(** * react-code-playground: type-definition acquisition and caching

    A shallow embedding of the type-acquisition pipeline of the playground:
    - [normalizeTypeUrl] and the dependency walker of [src/utils/typeFetcher.ts],
    - the persistent [TypeCache] ([typeCache.ts]),
    - the [IntelliSenseManager] load coordinator and its import extraction.

    JavaScript strings are modelled as lists of code units ([list ascii]). *)

From Stdlib Require Import Ascii String.
From Stdlib Require Import List Bool Arith NArith ZArith Lia.
From Stdlib Require Import Permutation Sorting.
Import ListNotations.

(** ** JavaScript strings *)

Module JsString.

Definition str := list ascii.

Definition lit (s : string) : str := list_ascii_of_string s.

Definition str_eq_dec : forall a b : str, {a = b} + {a <> b} :=
  list_eq_dec ascii_dec.

Definition str_eqb (a b : str) : bool :=
  if str_eq_dec a b then true else false.

(** [s.startsWith(p)] *)
Fixpoint startsWith (s p : str) {struct p} : bool :=
  match p, s with
  | [], _ => true
  | _ :: _, [] => false
  | c :: p', d :: s' => if ascii_dec c d then startsWith s' p' else false
  end.

(** [s.includes(p)] *)
Fixpoint includes (s p : str) : bool :=
  startsWith s p ||
  match s with
  | [] => false
  | _ :: s' => includes s' p
  end.

(** [s.endsWith(p)] *)
Definition endsWith (s p : str) : bool := startsWith (rev s) (rev p).

(** [s.replace(/pat/g, rep)] for a literal, non-empty pattern: occurrences are
    replaced from the left and never overlap.  [skip] counts the code units
    of the occurrence being replaced that are still to be dropped. *)
Fixpoint replaceAll_from (pat rep : str) (skip : nat) (s : str) : str :=
  match s with
  | [] => []
  | c :: s' =>
      match skip with
      | S k => replaceAll_from pat rep k s'
      | O =>
          if startsWith s pat
          then rep ++ replaceAll_from pat rep (length pat - 1) s'
          else c :: replaceAll_from pat rep 0 s'
      end
  end.

Definition replaceAll (pat rep s : str) : str := replaceAll_from pat rep 0 s.

End JsString.

Import JsString.

Declare Scope js_scope.
Delimit Scope js_scope with js.
Notation "$ s" := (lit s%string) (at level 9, s at level 0) : js_scope.
Open Scope js_scope.

(** ** [typeFetcher.ts]: URL normalisation *)

Definition dts : str := $".d.ts".
Definition dts_dts : str := $".d.ts.d.ts".

(** The [while (url.includes(".d.ts.d.ts"))] loop.  Every pass shortens the
    string, so [length url] iterations are enough. *)
Fixpoint collapse_dts (fuel : nat) (url : str) : str :=
  match fuel with
  | O => url
  | S f =>
      if includes url dts_dts
      then collapse_dts f (replaceAll dts_dts dts url)
      else url
  end.

Definition normalizeTypeUrl (url : str) : str :=
  let url := collapse_dts (length url) url in
  if endsWith url dts then url
  else if includes url $"?" then url
  else if endsWith url $"/" || includes url $".ts" || includes url $".js"
       then url
  else url ++ dts.


(** A URL is clean when no doubled declaration suffix occurs in it. *)
Definition typeUrl_clean (url : str) : Prop := includes url dts_dts = false.

(** The collapse of doubled suffixes, as a rewriting of the URL: one doubled
    suffix [.d.ts.d.ts] is replaced by a single [.d.ts]; the rest of the URL
    is kept as it is. *)
Inductive collapse_step : str -> str -> Prop :=
| collapse_at (a b : str) : collapse_step (a ++ dts_dts ++ b) (a ++ dts ++ b).

(** Any number of such replacements *)
Inductive collapses_to : str -> str -> Prop :=
| collapses_refl (u : str) : collapses_to u u
| collapses_step (u v r : str) :
    collapse_step u v -> collapses_to v r -> collapses_to u r.


(** ** Regular expressions of [intelligenceManager.ts]

    The three import patterns are sequences of single-character classes
    under the quantifiers [x], [x+] and [x*], with one capture group.  The
    matcher is the backtracking one of JavaScript: quantifiers are greedy and
    give characters back one at a time. *)

Module Regex.

Inductive quant := One | Plus | Star.

Record atom := Atom { cls : ascii -> bool; qnt : quant; captured : bool }.

Definition regex := list atom.

Definition code_unit (c : ascii) : nat := nat_of_ascii c.

Definition char_is (c : ascii) : ascii -> bool := fun d => if ascii_dec c d then true else false.

(** [\s], restricted to the code units below 256 *)
Definition space (c : ascii) : bool :=
  let n := code_unit c in
  ((9 <=? n) && (n <=? 13)) || (n =? 32) || (n =? 160).

(** [\w] *)
Definition word (c : ascii) : bool :=
  let n := code_unit c in
  ((48 <=? n) && (n <=? 57)) || ((65 <=? n) && (n <=? 90)) ||
  ((97 <=? n) && (n <=? 122)) || (n =? 95).

(** a single or a double quote *)
Definition quote (c : ascii) : bool := (code_unit c =? 39) || (code_unit c =? 34).

(** [[\w\s{},*]] *)
Definition import_clause (c : ascii) : bool :=
  word c || space c || char_is "{"%char c || char_is "}"%char c || char_is ","%char c || char_is "*"%char c.

Definition chars (s : string) : regex :=
  map (fun c => Atom (char_is c) One false) (list_ascii_of_string s).

(** Match [r] at the start of [s]; the result is the text of the capture
    group and the rest of the input after the match. *)
Fixpoint match_here (r : regex) : str -> str -> option (str * str) :=
  match r with
  | [] => fun s acc => Some (acc, s)
  | a :: r' =>
      let k := match_here r' in
      let push c acc := if captured a then acc ++ [c] else acc in
      let star :=
        fix star (s acc : str) {struct s} : option (str * str) :=
          match s with
          | c :: s' =>
              if cls a c
              then match star s' (push c acc) with
                   | Some m => Some m
                   | None => k s acc
                   end
              else k s acc
          | [] => k s acc
          end in
      match qnt a with
      | One => fun s acc =>
          match s with
          | c :: s' => if cls a c then k s' (push c acc) else None
          | [] => None
          end
      | Plus => fun s acc =>
          match s with
          | c :: s' => if cls a c then star s' (push c acc) else None
          | [] => None
          end
      | Star => star
      end
  end.

(** [pattern.exec(code)] from the current [lastIndex]: the leftmost match in
    [s], with the input left after it (the new [lastIndex]). *)
Fixpoint exec (r : regex) (s : str) : option (str * str) :=
  match match_here r s [] with
  | Some m => Some m
  | None => match s with
            | [] => None
            | _ :: s' => exec r s'
            end
  end.

(** The [while ((match = pattern.exec(code)) !== null)] loop of a global
    pattern: the capture group of every match, in order.  Every match of the
    patterns below consumes input, so [length s] rounds are enough. *)
Fixpoint exec_all (fuel : nat) (r : regex) (s : str) : list str :=
  match fuel with
  | O => []
  | S f =>
      match exec r s with
      | None => []
      | Some (g, rest) => g :: exec_all f r rest
      end
  end.

End Regex.

(** [s.split(sep)] for a one-character separator *)
Fixpoint split_on (sep : ascii) (s : str) : list str :=
  match s with
  | [] => [[]]
  | c :: s' =>
      if ascii_dec c sep then [] :: split_on sep s'
      else match split_on sep s' with
           | h :: t => (c :: h) :: t
           | [] => [[c]]
           end
  end.

(** [parts.join(sep)] *)
Fixpoint join (sep : str) (parts : list str) : str :=
  match parts with
  | [] => []
  | [p] => p
  | p :: rest => p ++ sep ++ join sep rest
  end.

(** A JavaScript [Set] of strings, in insertion order *)
Definition set_has (x : str) (s : list str) : bool :=
  existsb (str_eqb x) s.

Definition set_add (x : str) (s : list str) : list str :=
  if set_has x s then s else s ++ [x].

Definition set_delete (x : str) (s : list str) : list str :=
  filter (fun y => negb (str_eqb x y)) s.

(** ** [IntelliSenseManager.extractImports] *)

Import Regex.

(** [import\s+ CLAUSE+ \s+from\s+ Q (NQ+) Q], global, where [CLAUSE] is the
    class of word characters, white space, braces, comma and star, [Q] a
    quote and [NQ] any other character *)
Definition import_from_pattern : regex :=
  chars "import" ++ [Atom space Plus false; Atom import_clause Plus false;
                     Atom space Plus false] ++
  chars "from" ++ [Atom space Plus false; Atom quote One false;
                   Atom (fun c => negb (quote c)) Plus true;
                   Atom quote One false].

(** [import\s*\(\s* Q (NQ+) Q \s*\)] and [require\s*\(\s* Q (NQ+) Q \s*\)],
    global *)
Definition call_pattern (callee : string) : regex :=
  chars callee ++ [Atom space Star false] ++ chars "(" ++
  [Atom space Star false; Atom quote One false;
   Atom (fun c => negb (quote c)) Plus true; Atom quote One false;
   Atom space Star false] ++ chars ")".

Definition patterns : list regex :=
  [import_from_pattern; call_pattern "import"; call_pattern "require"].

Definition node_builtins : list str :=
  [$"fs"; $"path"; $"os"; $"crypto"; $"util"; $"events"].

Definition slash : ascii := "/"%char.

(** The body of the [while] loop for one match *)
Definition add_import (imports : list str) (moduleName : str) : list str :=
  if negb (startsWith moduleName $".") &&
     negb (startsWith moduleName $"/") &&
     negb (startsWith moduleName $"node:") &&
     negb (set_has moduleName node_builtins)
  then
    let cleanModuleName :=
      if startsWith moduleName $"@"
      then join $"/" (firstn 2 (split_on slash moduleName))
      else hd [] (split_on slash moduleName) in
    set_add cleanModuleName imports
  else imports.

Definition extractImports (code : str) : list str :=
  fold_left
    (fun imports pattern =>
       fold_left add_import (exec_all (length code) pattern code) imports)
    patterns [].

(** ** Asynchronous programs

    The pipeline is a set of [async] functions over shared module-level
    state.  A program is a tree of its effects: synchronous accesses to the
    shared state, inputs from the environment (the clock, the storage quota),
    and the suspension points ([await]) at which the event loop may run other
    tasks.  Exceptions are leaves; [try]/[catch]/[finally] are combinators. *)

Inductive exn := TypeError | SyntaxError | NetworkError | QuotaExceededError.

Inductive method := GET | HEAD.

Record request := Request { req_method : method; req_url : str }.

(** A [Response]: [ok], [statusText], the two headers that are read and the
    body ([None] when reading the body with [text()] rejects). *)
Record response := Response {
  res_ok : bool;
  res_statusText : str;
  res_etag : option str;
  res_types : option str;
  res_body : option str
}.

(** What [await fetch(...)] yields: a rejection or a response *)
Inductive reply := Rejected | Replied (r : response).

(** [CachedTypeInfo] of [typeCache.ts] *)
Record CachedTypeInfo := CachedType {
  content : str;
  timestamp : Z;
  version : option str;
  etag : option str
}.

(** The shared state other than the visited set: [localStorage] (its
    entries in [key(i)] order), the counters of [TypeCache], the files of
    the virtual file system, the extra libraries registered with the editor,
    and the two sets of [IntelliSenseManager]. *)
Record heap := Heap {
  localStorage : list (str * str);
  hitCount : N;
  missCount : N;
  files : list (str * str);
  extraLibs : list (str * str);
  loadingQueue : list str;
  loadedModules : list str
}.

(** A visited marker: a normalised URL, or [package:<specifier>] *)
Definition marker := str.

Inductive prog (A : Type) : Type :=
| Ret (a : A)
| Throw (e : exn)
| OutOfFuel
| IsVisited (m : marker) (k : bool -> prog A)
| MarkVisited (m : marker) (k : prog A)
| Read (k : heap -> prog A)
| Write (f : heap -> heap) (k : prog A)
| Now (k : Z -> prog A)
| Quota (k : bool -> prog A)
| Fetch (m : marker) (r : request) (k : reply -> prog A)
| Yield (k : prog A).

Arguments Ret {A} a.
Arguments Throw {A} e.
Arguments OutOfFuel {A}.
Arguments IsVisited {A} m k.
Arguments MarkVisited {A} m k.
Arguments Read {A} k.
Arguments Write {A} f k.
Arguments Now {A} k.
Arguments Quota {A} k.
Arguments Fetch {A} m r k.
Arguments Yield {A} k.

Fixpoint bind {A B : Type} (p : prog A) (f : A -> prog B) : prog B :=
  match p with
  | Ret a => f a
  | Throw e => Throw e
  | OutOfFuel => OutOfFuel
  | IsVisited m k => IsVisited m (fun b => bind (k b) f)
  | MarkVisited m k => MarkVisited m (bind k f)
  | Read k => Read (fun h => bind (k h) f)
  | Write g k => Write g (bind k f)
  | Now k => Now (fun t => bind (k t) f)
  | Quota k => Quota (fun b => bind (k b) f)
  | Fetch m r k => Fetch m r (fun x => bind (k x) f)
  | Yield k => Yield (bind k f)
  end.

(** [try { p } catch (e) { h e }] *)
Fixpoint try_catch {A : Type} (p : prog A) (h : exn -> prog A) : prog A :=
  match p with
  | Ret a => Ret a
  | Throw e => h e
  | OutOfFuel => OutOfFuel
  | IsVisited m k => IsVisited m (fun b => try_catch (k b) h)
  | MarkVisited m k => MarkVisited m (try_catch k h)
  | Read k => Read (fun s => try_catch (k s) h)
  | Write g k => Write g (try_catch k h)
  | Now k => Now (fun t => try_catch (k t) h)
  | Quota k => Quota (fun b => try_catch (k b) h)
  | Fetch m r k => Fetch m r (fun x => try_catch (k x) h)
  | Yield k => Yield (try_catch k h)
  end.

(** [try { p } finally { f }] *)
Fixpoint try_finally {A : Type} (p : prog A) (f : prog unit) : prog A :=
  match p with
  | Ret a => bind f (fun _ => Ret a)
  | Throw e => bind f (fun _ => Throw e)
  | OutOfFuel => OutOfFuel
  | IsVisited m k => IsVisited m (fun b => try_finally (k b) f)
  | MarkVisited m k => MarkVisited m (try_finally k f)
  | Read k => Read (fun s => try_finally (k s) f)
  | Write g k => Write g (try_finally k f)
  | Now k => Now (fun t => try_finally (k t) f)
  | Quota k => Quota (fun b => try_finally (k b) f)
  | Fetch m r k => Fetch m r (fun x => try_finally (k x) f)
  | Yield k => Yield (try_finally k f)
  end.

Declare Scope prog_scope.
Delimit Scope prog_scope with prog.
Notation "x <- p ;; q" := (bind p (fun x => q))
  (at level 61, p at next level, right associativity) : prog_scope.
Notation "p ;; q" := (bind p (fun _ => q))
  (at level 61, right associativity) : prog_scope.
Open Scope prog_scope.

Definition isVisited (m : marker) : prog bool := IsVisited m Ret.
Definition markVisited (m : marker) : prog unit := MarkVisited m (Ret tt).
Definition read : prog heap := Read Ret.
Definition write (f : heap -> heap) : prog unit := Write f (Ret tt).
Definition now : prog Z := Now Ret.
Definition fetch (m : marker) (r : request) : prog response :=
  Fetch m r (fun x => match x with
                      | Rejected => Throw NetworkError
                      | Replied res => Ret res
                      end).
(** [await p] for a call of an [async] function *)
Definition await {A : Type} (p : prog A) : prog A := x <- p ;; Yield (Ret x).

(** [for (const x of xs) { body x }] *)
Fixpoint for_of {X : Type} (xs : list X) (body : X -> prog unit) : prog unit :=
  match xs with
  | [] => Ret tt
  | x :: xs' => body x ;; for_of xs' body
  end.

(** *** Running a program to completion

    The environment answers every request; [tick] counts its answers. *)

Record world := World {
  net : nat -> request -> reply;
  clock : nat -> Z;
  quota_exceeded : nat -> bool
}.

Record state := State {
  visited : list marker;
  mem : heap;
  log : list (marker * request);
  tick : nat
}.

Inductive result (A : Type) : Type :=
| Returned (a : A)
| Thrown (e : exn)
| Diverged.

Arguments Returned {A} a.
Arguments Thrown {A} e.
Arguments Diverged {A}.

Definition with_visited (s : state) (v : list marker) : state :=
  State v (mem s) (log s) (tick s).
Definition with_mem (s : state) (h : heap) : state :=
  State (visited s) h (log s) (tick s).
Definition ticked (s : state) : state :=
  State (visited s) (mem s) (log s) (S (tick s)).
Definition logged (s : state) (m : marker) (r : request) : state :=
  State (visited s) (mem s) (log s ++ [(m, r)]) (S (tick s)).

Fixpoint run {A : Type} (w : world) (p : prog A) (s : state) : result A * state :=
  match p with
  | Ret a => (Returned a, s)
  | Throw e => (Thrown e, s)
  | OutOfFuel => (Diverged, s)
  | IsVisited m k => run w (k (set_has m (visited s))) s
  | MarkVisited m k => run w k (with_visited s (set_add m (visited s)))
  | Read k => run w (k (mem s)) s
  | Write f k => run w k (with_mem s (f (mem s)))
  | Now k => run w (k (clock w (tick s))) (ticked s)
  | Quota k => run w (k (quota_exceeded w (tick s))) (ticked s)
  | Fetch m r k => run w (k (net w (tick s) r)) (logged s m r)
  | Yield k => run w k s
  end.

(** ** Sample instances of the library functions

    A compact self-delimiting codec standing for [JSON.stringify] and
    [JSON.parse] on cache records, used to run the pipeline on examples. *)

Module Sample.

Definition one : ascii := "1"%char.
Definition colon : ascii := ":"%char.

(** A string as its length in unary, a colon and its code units *)
Definition encode_str (s : str) : str := repeat one (length s) ++ colon :: s.

Fixpoint take_ones (l : str) : option (nat * str) :=
  match l with
  | [] => None
  | c :: r =>
      if ascii_dec c colon then Some (0, r)
      else if ascii_dec c one then
        match take_ones r with
        | Some (n, r') => Some (S n, r')
        | None => None
        end
      else None
  end.

Definition decode_str (l : str) : option (str * str) :=
  match take_ones l with
  | Some (n, r) =>
      if length r <? n then None else Some (firstn n r, skipn n r)
  | None => None
  end.

Definition encode_opt (o : option str) : str :=
  match o with
  | None => $"N"
  | Some s => "S"%char :: encode_str s
  end.

Definition decode_opt (l : str) : option (option str * str) :=
  match l with
  | c :: r =>
      if ascii_dec c "N"%char then Some (None, r)
      else if ascii_dec c "S"%char then
        match decode_str r with
        | Some (s, r') => Some (Some s, r')
        | None => None
        end
      else None
  | [] => None
  end.

(** A positive number as its bits, lowest first, closed by a dot *)
Fixpoint encode_pos (p : positive) : str :=
  match p with
  | xH => $"."
  | xO q => "0"%char :: encode_pos q
  | xI q => "1"%char :: encode_pos q
  end.

Fixpoint decode_pos (l : str) : option (positive * str) :=
  match l with
  | [] => None
  | c :: r =>
      if ascii_dec c "."%char then Some (xH, r)
      else if ascii_dec c "0"%char then
        match decode_pos r with
        | Some (q, r') => Some (xO q, r')
        | None => None
        end
      else if ascii_dec c "1"%char then
        match decode_pos r with
        | Some (q, r') => Some (xI q, r')
        | None => None
        end
      else None
  end.

Definition encode_Z (z : Z) : str :=
  match z with
  | Z0 => $"z"
  | Zpos p => "+"%char :: encode_pos p
  | Zneg p => "-"%char :: encode_pos p
  end.

Definition decode_Z (l : str) : option (Z * str) :=
  match l with
  | [] => None
  | c :: r =>
      if ascii_dec c "z"%char then Some (Z0, r)
      else if ascii_dec c "+"%char then
        match decode_pos r with
        | Some (p, r') => Some (Zpos p, r')
        | None => None
        end
      else if ascii_dec c "-"%char then
        match decode_pos r with
        | Some (p, r') => Some (Zneg p, r')
        | None => None
        end
      else None
  end.

(** A record: an opening brace, the timestamp, the two optional fields and
    the content, which runs to the end *)
Definition stringify (info : CachedTypeInfo) : str :=
  "{"%char :: encode_Z (timestamp info) ++ encode_opt (version info)
    ++ encode_opt (etag info) ++ content info.

Definition parse (l : str) : option CachedTypeInfo :=
  match l with
  | c :: r =>
      if ascii_dec c "{"%char then
        match decode_Z r with
        | Some (t, r1) =>
            match decode_opt r1 with
            | Some (v, r2) =>
                match decode_opt r2 with
                | Some (e, r3) => Some (CachedType r3 t v e)
                | None => None
                end
            | None => None
            end
        | None => None
        end
      else None
  | [] => None
  end.

(** A scanner standing for [ts.preProcessFile]: a line [///<path>] is a
    reference directive, a line [import <name>] an import. *)
Definition newline : ascii := ascii_of_nat 10.

Fixpoint scan_lines (lines : list str) : list str * list str :=
  match lines with
  | [] => ([], [])
  | l :: rest =>
      let (refs, imports) := scan_lines rest in
      if startsWith l $"///" then (skipn 3 l :: refs, imports)
      else if startsWith l $"import " then (refs, skipn 7 l :: imports)
      else (refs, imports)
  end.

Definition scan (text : str) : list str * list str :=
  scan_lines (split_on newline text).

(** URL resolution for absolute URLs, rooted paths and paths relative to
    the directory of the base; anything else is rejected. *)
Fixpoint directory (acc base : str) : str :=
  match base with
  | [] => []
  | c :: rest =>
      if ascii_dec c "/"%char then acc ++ [c] ++ directory [] rest
      else directory (acc ++ [c]) rest
  end.

Definition resolve (rel base : str) : option str :=
  if startsWith rel $"https://" then Some rel
  else if startsWith rel $"./" then Some (directory [] base ++ skipn 2 rel)
  else if startsWith rel $"/" then Some ($"https://esm.sh" ++ rel)
  else None.

Definition found (types : option str) (body : str) : reply :=
  Replied (Response true $"OK" None types (Some body)).

Definition not_found : reply :=
  Replied (Response false $"Not Found" None None (Some [])).

(** A small registry: [react] has a declaration entry point with one
    reference and one import; [csstype] resolves but has no declarations;
    every other request fails. *)
Definition cdn_net (n : nat) (r : request) : reply :=
  let u := req_url r in
  if str_eqb u $"https://esm.sh/react"
  then found (Some $"/v18/react/index.d.ts") []
  else if str_eqb u $"https://esm.sh/v18/react/index.d.ts"
  then found None ($"///./global.d.ts" ++ [newline] ++ $"import csstype")
  else if str_eqb u $"https://esm.sh/v18/react/global.d.ts"
  then found None $"export {}"
  else if str_eqb u $"https://esm.sh/csstype"
  then found None []
  else if str_eqb u $"https://esm.sh/csstype?dts"
  then not_found
  else Rejected.

Definition cdn : world := World cdn_net (fun _ => 1000%Z) (fun _ => false).

(** A text of [n] code units *)
Definition filler (n : N) : str := repeat "x"%char (N.to_nat n).

(** An environment in which every request fails, the clock stands at
    [1000] and the storage never fills up *)
Definition offline : world :=
  World (fun _ _ => Rejected) (fun _ => 1000%Z) (fun _ => false).

Definition empty_heap : heap := Heap [] 0 0 [] [] [] [].

Definition initial : state := State [] empty_heap [] 0.

Definition with_storage (ls : list (str * str)) : state :=
  State [] (Heap ls 0 0 [] [] [] []) [] 0.

End Sample.

(** ** Tasks and the event loop

    A call of an [async] function runs until its first suspension point.
    A task suspended on a request has issued it; the event loop resumes
    suspended tasks in any order. *)

Inductive task (A : Type) : Type :=
| Finished (r : result A)
| Pending (r : request) (k : reply -> prog A)
| Paused (k : prog A).

Arguments Finished {A} r.
Arguments Pending {A} r k.
Arguments Paused {A} k.

Fixpoint start {A : Type} (w : world) (p : prog A) (s : state) : task A * state :=
  match p with
  | Ret a => (Finished (Returned a), s)
  | Throw e => (Finished (Thrown e), s)
  | OutOfFuel => (Finished Diverged, s)
  | IsVisited m k => start w (k (set_has m (visited s))) s
  | MarkVisited m k => start w k (with_visited s (set_add m (visited s)))
  | Read k => start w (k (mem s)) s
  | Write f k => start w k (with_mem s (f (mem s)))
  | Now k => start w (k (clock w (tick s))) (ticked s)
  | Quota k => start w (k (quota_exceeded w (tick s))) (ticked s)
  | Fetch m r k =>
      (Pending r k, State (visited s) (mem s) (log s ++ [(m, r)]) (tick s))
  | Yield k => (Paused k, s)
  end.

Definition resume {A : Type} (w : world) (t : task A) (s : state) : task A * state :=
  match t with
  | Finished r => (t, s)
  | Pending r k => start w (k (net w (tick s) r)) (ticked s)
  | Paused k => start w k s
  end.

(** Run a task to completion without interleaving *)
Definition finish {A : Type} (w : world) (t : task A) (s : state) : result A * state :=
  match t with
  | Finished r => (r, s)
  | Pending r k => run w (k (net w (tick s) r)) (ticked s)
  | Paused k => run w k s
  end.

Fixpoint replace_nth {X : Type} (i : nat) (x : X) (l : list X) : list X :=
  match l, i with
  | [], _ => []
  | _ :: rest, O => x :: rest
  | y :: rest, S j => y :: replace_nth j x rest
  end.

Inductive action (A : Type) : Type :=
| Spawn (p : prog A)
| Resume (i : nat).

Arguments Spawn {A} p.
Arguments Resume {A} i.

Definition step_pool {A : Type} (w : world) (cfg : list (task A) * state)
    (a : action A) : list (task A) * state :=
  let (pool, s) := cfg in
  match a with
  | Spawn p => let (t, s') := start w p s in (pool ++ [t], s')
  | Resume i =>
      match nth_error pool i with
      | Some t => let (t', s') := resume w t s in (replace_nth i t' pool, s')
      | None => (pool, s)
      end
  end.

Definition run_pool {A : Type} (w : world) (acts : list (action A))
    (cfg : list (task A) * state) : list (task A) * state :=
  fold_left (step_pool w) acts cfg.

(** Complete the tasks of a pool one after the other *)
Fixpoint finish_all {A : Type} (w : world) (pool : list (task A)) (s : state)
    : list (result A) * state :=
  match pool with
  | [] => ([], s)
  | t :: rest =>
      let (r, s') := finish w t s in
      let (rs, s'') := finish_all w rest s' in
      (r :: rs, s'')
  end.


(** ** The pipeline

    Library functions the code calls are parameters: the JSON codec of the
    cache records ([None] when [JSON.parse] throws), the import scanner
    [ts.preProcessFile] (the file names of the reference directives and of
    the imports), and URL resolution [new URL(rel, base).toString()]
    ([None] when the constructor throws).

    A value that [JSON.parse] accepts is taken to be a record as [set]
    writes it, with a string content and a numeric timestamp.  Other
    values that [JSON.parse] accepts, such as an empty object or a number,
    on which [get] counts a hit and returns [undefined], are not
    represented: a property that reads arbitrary storage assumes that the
    value it reads is [cache_written]. *)

Section Pipeline.

Variable JSON_parse : str -> option CachedTypeInfo.
Variable JSON_stringify : CachedTypeInfo -> str.
Variable preProcessFile : str -> list str * list str.
Variable resolveUrl : str -> str -> option str.

(** *** [localStorage] *)

Fixpoint getItem (key : str) (ls : list (str * str)) : option str :=
  match ls with
  | [] => None
  | (k, v) :: rest => if str_eqb key k then Some v else getItem key rest
  end.

Definition removeItem (key : str) (ls : list (str * str)) : list (str * str) :=
  filter (fun kv => negb (str_eqb key (fst kv))) ls.

Fixpoint setItem (key value : str) (ls : list (str * str)) : list (str * str) :=
  match ls with
  | [] => [(key, value)]
  | (k, v) :: rest =>
      if str_eqb key k then (key, value) :: rest
      else (k, v) :: setItem key value rest
  end.

Definition upd_storage (f : list (str * str) -> list (str * str)) (h : heap) : heap :=
  Heap (f (localStorage h)) (hitCount h) (missCount h) (files h) (extraLibs h)
       (loadingQueue h) (loadedModules h).

Definition count_hit (h : heap) : heap :=
  Heap (localStorage h) (hitCount h + 1)%N (missCount h) (files h) (extraLibs h)
       (loadingQueue h) (loadedModules h).

Definition count_miss (h : heap) : heap :=
  Heap (localStorage h) (hitCount h) (missCount h + 1)%N (files h) (extraLibs h)
       (loadingQueue h) (loadedModules h).

(** [localStorage.setItem], which throws when the quota is exceeded *)
Definition storage_setItem (key value : str) : prog unit :=
  Quota (fun full =>
    if full then Throw QuotaExceededError
    else write (upd_storage (setItem key value))).

(** *** [TypeCache] *)

Definition CACHE_PREFIX : str := $"ts-types-cache:".
Definition CACHE_EXPIRY : Z := 24 * 60 * 60 * 1000.
Definition MAX_CACHE_SIZE : N := 50 * 1024 * 1024.

Definition strlen (s : str) : N := N.of_nat (length s).

Definition alnum (c : ascii) : bool :=
  let n := nat_of_ascii c in
  ((48 <=? n) && (n <=? 57)) || ((65 <=? n) && (n <=? 90)) ||
  ((97 <=? n) && (n <=? 122)).

(** [url.replace(/[^a-zA-Z0-9]/g, "_")] under the cache prefix *)
Definition getCacheKey (url : str) : str :=
  CACHE_PREFIX ++ map (fun c => if alnum c then c else "_"%char) url.

Definition namespaced (kv : str * str) : bool := startsWith (fst kv) CACHE_PREFIX.

Definition getCurrentCacheSize (ls : list (str * str)) : N :=
  fold_left (fun total kv => if namespaced kv then (total + strlen (snd kv))%N else total)
            ls 0%N.

(** The first loop of [cleanupOldEntries]: [i] runs over the indices of
    [localStorage] while undecodable records are removed from it, so the
    record that follows a removed one moves to index [i] and is not visited. *)
Fixpoint scan_entries (fuel i : nat) (ls : list (str * str))
    (entries : list (str * Z)) : list (str * str) * list (str * Z) :=
  match fuel with
  | O => (ls, entries)
  | S f =>
      match nth_error ls i with
      | None => (ls, entries)
      | Some (key, value) =>
          if startsWith key CACHE_PREFIX then
            match value with
            | [] => scan_entries f (S i) ls entries
            | _ :: _ =>
                match JSON_parse value with
                | Some parsed =>
                    scan_entries f (S i) ls (entries ++ [(key, timestamp parsed)])
                | None => scan_entries f (S i) (removeItem key ls) entries
                end
            end
          else scan_entries f (S i) ls entries
      end
  end.

(** [entries.sort((a, b) => a.timestamp - b.timestamp)]: a stable sort; an
    entry goes before the later entries of the same timestamp *)
Fixpoint insert_entry (e : str * Z) (l : list (str * Z)) : list (str * Z) :=
  match l with
  | [] => [e]
  | x :: rest =>
      if (snd e <=? snd x)%Z then e :: l else x :: insert_entry e rest
  end.

Definition sort_entries (l : list (str * Z)) : list (str * Z) :=
  fold_right insert_entry [] l.

(** [Math.ceil(n * 0.3)]; the product is a double, whose rounding never
    crosses an integer for the lengths of an array, so this is the ceiling
    of [3n/10]. *)
Definition toRemove (n : nat) : nat := (3 * n + 9) / 10.

Definition evicted (ls : list (str * str)) : list (str * Z) :=
  let entries := sort_entries (snd (scan_entries (length ls) 0 ls [])) in
  firstn (toRemove (length entries)) entries.

Definition cleanup_storage (ls : list (str * str)) : list (str * str) :=
  fold_left (fun st e => removeItem (fst e) st) (evicted ls)
            (fst (scan_entries (length ls) 0 ls [])).

Definition cleanupOldEntries : prog unit := write (upd_storage cleanup_storage).

Definition ensureCacheSpace : prog unit :=
  h <- read ;;
  let currentSize := getCurrentCacheSize (localStorage h) in
  if (MAX_CACHE_SIZE <? currentSize)%N then await cleanupOldEntries
  else Ret tt.

Definition option_eqb (a b : option str) : bool :=
  match a, b with
  | Some x, Some y => str_eqb x y
  | None, None => true
  | _, _ => false
  end.

Definition validateETag (url cachedETag : str) : prog bool :=
  try_catch
    (response <- fetch url (Request HEAD url) ;;
     let currentETag := res_etag response in
     Ret (option_eqb currentETag (Some cachedETag)))
    (fun _ => Ret true).

Definition TypeCache_get (moduleUrl : str) : prog (option str) :=
  try_catch
    (let cacheKey := getCacheKey moduleUrl in
     h <- read ;;
     match getItem cacheKey (localStorage h) with
     | None | Some [] => write count_miss ;; Ret None
     | Some cached =>
         match JSON_parse cached with
         | None => Throw SyntaxError
         | Some parsedCache =>
             t <- now ;;
             if (CACHE_EXPIRY <? t - timestamp parsedCache)%Z then
               write (upd_storage (removeItem cacheKey)) ;;
               write count_miss ;;
               Ret None
             else
               isValid <- match etag parsedCache with
                          | Some (c :: e) => await (validateETag moduleUrl (c :: e))
                          | _ => Ret true
                          end ;;
               if isValid then write count_hit ;; Ret (Some (content parsedCache))
               else
                 write (upd_storage (removeItem cacheKey)) ;;
                 write count_miss ;;
                 Ret None
         end
     end)
    (fun _ => write count_miss ;; Ret None).

Definition TypeCache_set (moduleUrl content : str) (etag version : option str)
    : prog unit :=
  try_catch
    (await ensureCacheSpace ;;
     let cacheKey := getCacheKey moduleUrl in
     t <- now ;;
     let cacheInfo := CachedType content t version etag in
     storage_setItem cacheKey (JSON_stringify cacheInfo))
    (fun _ => Ret tt).

Definition TypeCache_remove (moduleUrl : str) : prog unit :=
  write (upd_storage (removeItem (getCacheKey moduleUrl))).

Definition TypeCache_clear : prog unit :=
  write (upd_storage (filter (fun kv => negb (namespaced kv)))).

(** The records of the cache namespace that [cleanupOldEntries] can order:
    key and stored timestamp, in storage order *)
Definition stored_entries (ls : list (str * str)) : list (str * Z) :=
  flat_map (fun kv =>
              if namespaced kv then
                match snd kv with
                | [] => []
                | _ :: _ =>
                    match JSON_parse (snd kv) with
                    | Some parsed => [(fst kv, timestamp parsed)]
                    | None => []
                    end
                end
              else [])
           ls.

(** Every record of the namespace is non-empty and decodable *)
Definition wellformed_storage (ls : list (str * str)) : Prop :=
  Forall (fun kv => namespaced kv = true ->
                    snd kv <> [] /\ JSON_parse (snd kv) <> None) ls.

Definition evicts (gone : list (str * Z)) (kv : str * str) : bool :=
  set_has (fst kv) (map fst gone).

Definition older_or_same (a b : str * Z) : Prop := (snd a <= snd b)%Z.

(** The storage after the write of [set]: left as it is when the quota is
    exceeded *)
Definition written (w : world) (s : state) (url content : str)
    (etag version : option str) (ls : list (str * str)) : list (str * str) :=
  if quota_exceeded w (S (tick s)) then ls
  else setItem (getCacheKey url)
               (JSON_stringify (CachedType content (clock w (tick s)) version etag))
               ls.

(** *** [typeFetcher.ts]: the dependency walker *)

(** [s.replace(pat, rep)] for a string pattern: the first occurrence *)
Fixpoint replaceFirst (pat rep s : str) : str :=
  if startsWith s pat then rep ++ skipn (length pat) s
  else match s with
       | [] => []
       | c :: s' => c :: replaceFirst pat rep s'
       end.

Definition line_terminator (c : ascii) : bool :=
  (nat_of_ascii c =? 10) || (nat_of_ascii c =? 13).

(** [s.replace(/\?.*$/, "")]: cut at the first question mark that is
    followed by no line terminator *)
Fixpoint strip_query (s : str) : str :=
  match s with
  | [] => []
  | c :: s' =>
      if Regex.char_is "?"%char c && negb (existsb line_terminator s') then []
      else c :: strip_query s'
  end.

(** Truthiness of an optional string: [undefined], [null] and the empty
    string are falsy *)
Definition truthy (s : option str) : bool :=
  match s with
  | Some (_ :: _) => true
  | _ => false
  end.

Definition upd_files (f : list (str * str) -> list (str * str)) (h : heap) : heap :=
  Heap (localStorage h) (hitCount h) (missCount h) (f (files h)) (extraLibs h)
       (loadingQueue h) (loadedModules h).

Definition upd_extraLibs (f : list (str * str) -> list (str * str)) (h : heap) : heap :=
  Heap (localStorage h) (hitCount h) (missCount h) (files h) (f (extraLibs h))
       (loadingQueue h) (loadedModules h).

(** [defaults.addExtraLib(text, path)] unless the same text is registered *)
Definition register (path text : str) : prog unit :=
  h <- read ;;
  match getItem path (extraLibs h) with
  | Some existing =>
      if str_eqb existing text then Ret tt
      else write (upd_extraLibs (setItem path text))
  | None => write (upd_extraLibs (setItem path text))
  end.

Definition virtualPath_of (url : str) (packageName : option str) : str :=
  match packageName with
  | Some (c :: p) => $"file:///node_modules/" ++ (c :: p) ++ $"/index.d.ts"
  | _ =>
      let virtualPath := replaceFirst $"https://esm.sh/" $"file:///node_modules/" url in
      if endsWith virtualPath dts then virtualPath
      else strip_query virtualPath ++ dts
  end.

(** [await res.text()] *)
Definition text_of (res : response) : prog str :=
  match res_body res with
  | Some t => Yield (Ret t)
  | None => Throw NetworkError
  end.

Inductive call :=
| ProcessFile (url : str) (packageName : option str)
| FetchEntry (specifier : str).

(** [processFile] and [fetchEntry], the two closures of [fetchAndAddTypes];
    [fuel] bounds the depth of their recursion. *)
Fixpoint walk (fuel : nat) (c : call) : prog unit :=
  match fuel with
  | O => OutOfFuel
  | S fuel' =>
    let processFile url packageName := walk fuel' (ProcessFile url packageName) in
    let fetchEntry specifier := walk fuel' (FetchEntry specifier) in
    match c with
    | ProcessFile url packageName =>
        let url := normalizeTypeUrl url in
        seen <- isVisited url ;;
        if seen then Ret tt else
        markVisited url ;;
        try_catch
          (cached <- await (TypeCache_get url) ;;
           downloaded <-
             (if truthy cached then Ret cached
              else
                res <- fetch url (Request GET url) ;;
                if negb (res_ok res) then Ret None
                else
                  text <- text_of res ;;
                  let etag := if truthy (res_etag res) then res_etag res else None in
                  await (TypeCache_set url text etag None) ;;
                  Ret (Some text)) ;;
           match downloaded with
           | None => Ret tt
           | Some text =>
               let virtualPath := virtualPath_of url packageName in
               write (upd_files (setItem virtualPath text)) ;;
               register virtualPath text ;;
               (match packageName with
                | Some (c :: p) =>
                    if negb (includes virtualPath $"/dist/")
                    then register ($"file:///node_modules/@types/" ++ (c :: p)
                                     ++ $"/index.d.ts") text
                    else Ret tt
                | _ => Ret tt
                end) ;;
               let info := preProcessFile text in
               for_of (fst info) (fun ref =>
                 match resolveUrl ref url with
                 | None => Throw TypeError
                 | Some u => await (processFile (normalizeTypeUrl u) None)
                 end) ;;
               for_of (snd info) (fun importRef =>
                 if startsWith importRef $"." then
                   match resolveUrl importRef url with
                   | None => Throw TypeError
                   | Some u => await (processFile (normalizeTypeUrl u) None)
                   end
                 else if negb (includes importRef $"/") then
                   try_catch (await (fetchEntry importRef)) (fun _ => Ret tt)
                 else Ret tt)
           end)
          (fun _ => Ret tt)
    | FetchEntry specifier =>
        let m := $"package:" ++ specifier in
        seen <- isVisited m ;;
        if seen then Ret tt else
        markVisited m ;;
        try_catch
          (let baseUrl := $"https://esm.sh/" ++ specifier in
           resp <- fetch m (Request HEAD baseUrl) ;;
           if negb (res_ok resp) then Ret tt
           else
             typesUrl <-
               match res_types resp with
               | Some (c :: typesHeader) =>
                   match resolveUrl (c :: typesHeader) baseUrl with
                   | Some u => Ret u
                   | None => Throw TypeError
                   end
               | _ => Ret ($"https://esm.sh/" ++ specifier ++ $"?dts")
               end ;;
             await (processFile typesUrl (Some specifier)))
          (fun _ => Ret tt)
    end
  end.

Definition processFile (fuel : nat) (url : str) (packageName : option str) : prog unit :=
  walk fuel (ProcessFile url packageName).

Definition fetchEntry (fuel : nat) (specifier : str) : prog unit :=
  walk fuel (FetchEntry specifier).

Definition fetchAndAddTypes (fuel : nat) (packageSpecifier : str) : prog unit :=
  await (fetchEntry fuel packageSpecifier).

(** *** [IntelliSenseManager] *)

Record IntelliSenseConfig := Config {
  enableCache : bool;
  enableAutoLoading : bool;
  supportedLibraries : list str;
  debounceMs : nat;
  maxConcurrentLoads : nat
}.

Definition defaultConfig : IntelliSenseConfig :=
  Config true true
    [ $"react"; $"react-dom"; $"react-router"; $"react-router-dom";
      $"react-query"; $"@tanstack/react-query"; $"react-hook-form"; $"formik";
      $"zustand"; $"redux"; $"@reduxjs/toolkit"; $"mobx"; $"jotai"; $"recoil";
      $"styled-components"; $"@emotion/react"; $"@emotion/styled";
      $"tailwindcss"; $"classnames"; $"clsx";
      $"lodash"; $"lodash-es"; $"ramda"; $"immer"; $"date-fns"; $"moment";
      $"dayjs";
      $"axios"; $"fetch"; $"ky"; $"swr";
      $"framer-motion"; $"react-spring"; $"react-transition-group";
      $"yup"; $"zod"; $"joi"; $"ajv";
      $"jest"; $"@testing-library/react"; $"@testing-library/jest-dom";
      $"vitest";
      $"uuid"; $"nanoid"; $"crypto-js"; $"js-cookie";
      $"@mui/material"; $"antd"; $"react-bootstrap"; $"chakra-ui";
      $"@vapor-ui/core"; $"vapor-ui";
      $"typescript"; $"eslint"; $"prettier" ]
    1000 3.

Definition upd_loading (f : list str -> list str) (h : heap) : heap :=
  Heap (localStorage h) (hitCount h) (missCount h) (files h) (extraLibs h)
       (f (loadingQueue h)) (loadedModules h).

Definition upd_loaded (f : list str -> list str) (h : heap) : heap :=
  Heap (localStorage h) (hitCount h) (missCount h) (files h) (extraLibs h)
       (loadingQueue h) (f (loadedModules h)).

Definition loadLibrary (fuel : nat) (config : IntelliSenseConfig)
    (libraryName : str) : prog bool :=
  h <- read ;;
  if set_has libraryName (loadedModules h) || set_has libraryName (loadingQueue h)
  then Ret true
  else if negb (set_has libraryName (supportedLibraries config))
  then Ret false
  else
    write (upd_loading (set_add libraryName)) ;;
    try_finally
      (try_catch
         (await (fetchAndAddTypes fuel libraryName) ;;
          write (upd_loaded (set_add libraryName)) ;;
          Ret true)
         (fun _ => Ret false))
      (write (upd_loading (set_delete libraryName))).

(** The record [{ library, success }] *)
Record LoadResult := LoadRes { library : str; success : bool }.

(** [Promise.allSettled] followed by the [map] of [loadLibraries]: a
    rejected member yields [success: false].  The promise stays pending
    ([None]) when a member never settles. *)
Fixpoint settle (names : list str) (results : list (result bool))
    : option (list LoadResult) :=
  match names, results with
  | [], [] => Some []
  | n :: names', r :: results' =>
      match r, settle names' results' with
      | Returned b, Some l => Some (LoadRes n b :: l)
      | Thrown _, Some l => Some (LoadRes n false :: l)
      | _, _ => None
      end
  | _, _ => None
  end.

(** [loadLibraries]: the calls of [loadLibrary] start in order, each up to
    its first suspension; the event loop then resumes them as [schedule]
    says, and what is left is run to completion. *)
Definition loadLibraries (w : world) (schedule : list nat) (fuel : nat)
    (config : IntelliSenseConfig) (libraryNames : list str) (s : state)
    : option (list LoadResult) * state :=
  let spawned :=
    run_pool w (map (fun lib => Spawn (loadLibrary fuel config lib)) libraryNames)
             ([], s) in
  let resumed := run_pool w (map Resume schedule) spawned in
  let (results, s') := finish_all w (fst resumed) (snd resumed) in
  (settle libraryNames results, s').

(** The libraries [analyzeAndLoadTypes] decides to load for a source text *)
Definition newLibraries (config : IntelliSenseConfig) (h : heap) (code : str)
    : list str :=
  filter (fun lib =>
            set_has lib (supportedLibraries config) &&
            negb (set_has lib (loadedModules h)) &&
            negb (set_has lib (loadingQueue h)))
         (extractImports code).

(** [clearCache] *)
Definition clearCache : prog unit :=
  TypeCache_clear ;; write (upd_loaded (fun _ => [])).

(** *** Properties of program trees *)

(** No branch of the program ends in an exception. *)
Inductive no_throw {A : Type} : prog A -> Prop :=
| nt_Ret a : no_throw (Ret a)
| nt_OutOfFuel : no_throw OutOfFuel
| nt_IsVisited m k : (forall b, no_throw (k b)) -> no_throw (IsVisited m k)
| nt_MarkVisited m k : no_throw k -> no_throw (MarkVisited m k)
| nt_Read k : (forall h, no_throw (k h)) -> no_throw (Read k)
| nt_Write f k : no_throw k -> no_throw (Write f k)
| nt_Now k : (forall t, no_throw (k t)) -> no_throw (Now k)
| nt_Quota k : (forall b, no_throw (k b)) -> no_throw (Quota k)
| nt_Fetch m r k : (forall x, no_throw (k x)) -> no_throw (Fetch m r k)
| nt_Yield k : no_throw k -> no_throw (Yield k).

(** A request issued for a target: the visited marker that guards it and
    the request *)
Definition event : Type := marker * request.

(** The requests of the walker for a target: the revalidation probe and the
    download of a file under the marker of its URL, and the resolution probe
    of a package under the marker of its specifier *)
Definition target_request (e : event) : Prop :=
  snd e = Request HEAD (fst e) \/ snd e = Request GET (fst e) \/
  exists specifier,
    fst e = $"package:" ++ specifier /\
    snd e = Request HEAD ($"https://esm.sh/" ++ specifier).

(** [guarded O p Q E]: every request of [p] is covered by an entry of [O],
    the requests it may still issue, or by a marker that [p] itself finds
    unvisited and records, in one synchronous step, before the request.
    An entry of [O] covers one request, and may be left unused.  [Q] and
    [E] hold of what is left of [O] when [p] returns or throws. *)
Inductive guarded {A : Type} (Q : A -> list event -> Prop)
    (E : exn -> list event -> Prop) : list event -> prog A -> Prop :=
| g_Ret O a : Q a O -> guarded Q E O (Ret a)
| g_Throw O e : E e O -> guarded Q E O (Throw e)
| g_OutOfFuel O : guarded Q E O OutOfFuel
| g_Guard O m k G body :
    guarded Q E O (k true) ->
    k false = MarkVisited m body ->
    NoDup G -> (forall e, In e G -> fst e = m /\ target_request e) ->
    guarded Q E (G ++ O) body ->
    guarded Q E O (IsVisited m k)
| g_Read O k : (forall h, guarded Q E O (k h)) -> guarded Q E O (Read k)
| g_Write O f k : guarded Q E O k -> guarded Q E O (Write f k)
| g_Now O k : (forall t, guarded Q E O (k t)) -> guarded Q E O (Now k)
| g_Quota O k : (forall b, guarded Q E O (k b)) -> guarded Q E O (Quota k)
| g_Fetch O1 O2 m r k :
    (forall x, guarded Q E (O1 ++ O2) (k x)) ->
    guarded Q E (O1 ++ (m, r) :: O2) (Fetch m r k)
| g_Yield O k : guarded Q E O k -> guarded Q E O (Yield k)
| g_Drop O1 O2 e p : guarded Q E (O1 ++ O2) p -> guarded Q E (O1 ++ e :: O2) p.

Definition anything {X : Type} : X -> list event -> Prop := fun _ _ => True.

(** Programs that issue no request except under markers of their own *)
Definition quiet {A : Type} (p : prog A) : Prop :=
  guarded anything anything [] p.

(** A task of the pool and the requests it may still issue *)
Definition task_guarded {A : Type} (O : list event) (t : task A) : Prop :=
  match t with
  | Finished _ => True
  | Pending _ k => forall x, guarded anything anything O (k x)
  | Paused k => guarded anything anything O k
  end.

Definition all_visited (s : state) (es : list event) : Prop :=
  forall e, In e es -> set_has (fst e) (visited s) = true /\ target_request e.

(** The URLs downloaded so far, in order *)
Definition is_download (e : event) : bool :=
  match req_method (snd e) with
  | GET => true
  | HEAD => false
  end.

Definition downloads (l : list event) : list str :=
  map (fun e => req_url (snd e)) (filter is_download l).

(** Markers are never removed *)
Definition grows (s s' : state) : Prop :=
  forall m, set_has m (visited s) = true -> set_has m (visited s') = true.

(** The invariant of the event loop: the requests issued so far and those
    the tasks may still issue are pairwise distinct, and the marker of each
    is recorded. *)
Definition pool_inv {A : Type} (pool : list (task A)) (s : state) : Prop :=
  exists owed : list (list event),
    Forall2 task_guarded owed pool /\
    NoDup (log s ++ concat owed) /\
    all_visited s (log s ++ concat owed).

Definition marker_of (c : call) : marker :=
  match c with
  | ProcessFile url _ => normalizeTypeUrl url
  | FetchEntry specifier => $"package:" ++ specifier
  end.

(** The calls the event loop may be asked to start *)
Definition walker_action (a : action unit) : Prop :=
  match a with
  | Resume _ => True
  | Spawn p =>
      exists fuel,
        (exists c, p = walk fuel c) \/
        (exists specifier, p = fetchAndAddTypes fuel specifier)
  end.

(** Every update of the shared state made by the program satisfies [P]. *)
Inductive writes_only {A : Type} (P : (heap -> heap) -> Prop) : prog A -> Prop :=
| wo_Ret a : writes_only P (Ret a)
| wo_Throw e : writes_only P (Throw e)
| wo_OutOfFuel : writes_only P OutOfFuel
| wo_IsVisited m k : (forall b, writes_only P (k b)) -> writes_only P (IsVisited m k)
| wo_MarkVisited m k : writes_only P k -> writes_only P (MarkVisited m k)
| wo_Read k : (forall h, writes_only P (k h)) -> writes_only P (Read k)
| wo_Write f k : P f -> writes_only P k -> writes_only P (Write f k)
| wo_Now k : (forall t, writes_only P (k t)) -> writes_only P (Now k)
| wo_Quota k : (forall b, writes_only P (k b)) -> writes_only P (Quota k)
| wo_Fetch m r k : (forall x, writes_only P (k x)) -> writes_only P (Fetch m r k)
| wo_Yield k : writes_only P k -> writes_only P (Yield k).

(** An update that leaves the two sets of the manager as they are *)
Definition keeps_manager (f : heap -> heap) : Prop :=
  forall h, loadingQueue (f h) = loadingQueue h /\
            loadedModules (f h) = loadedModules h.

Definition task_no_throw {A : Type} (t : task A) : Prop :=
  match t with
  | Finished r => forall e, r <> Thrown e
  | Pending _ k => forall x, no_throw (k x)
  | Paused k => no_throw k
  end.

(** A load of [name] in flight: up to its end the program leaves the two
    sets of the manager alone; it ends, if it ends, by marking the library
    loaded, taking it out of the loading queue and returning [true]. *)
Inductive in_flight (name : str) : prog bool -> Prop :=
| fl_OutOfFuel : in_flight name OutOfFuel
| fl_IsVisited m k : (forall b, in_flight name (k b)) -> in_flight name (IsVisited m k)
| fl_MarkVisited m k : in_flight name k -> in_flight name (MarkVisited m k)
| fl_Read k : (forall h, in_flight name (k h)) -> in_flight name (Read k)
| fl_Write f k : keeps_manager f -> in_flight name k -> in_flight name (Write f k)
| fl_Now k : (forall t, in_flight name (k t)) -> in_flight name (Now k)
| fl_Quota k : (forall b, in_flight name (k b)) -> in_flight name (Quota k)
| fl_Fetch m r k : (forall x, in_flight name (k x)) -> in_flight name (Fetch m r k)
| fl_Yield k : in_flight name k -> in_flight name (Yield k)
| fl_done :
    in_flight name
      (Write (upd_loaded (set_add name))
         (Write (upd_loading (set_delete name)) (Ret true))).

Definition task_in_flight (name : str) (t : task bool) : Prop :=
  match t with
  | Finished _ => True
  | Pending _ k => forall x, in_flight name (k x)
  | Paused k => in_flight name k
  end.

(** The state of a load as the event loop sees it: a suspended call has
    its library in the loading queue and not among the loaded ones; a
    finished call has returned [true] and left the library loaded and out
    of the queue, unless the recursion budget ran out. *)
Definition load_status (name : str) (cfg : task bool * state) : Prop :=
  let h := mem (snd cfg) in
  match fst cfg with
  | Finished (Returned b) =>
      b = true /\ set_has name (loadedModules h) = true /\
      set_has name (loadingQueue h) = false
  | Finished (Thrown _) => False
  | Finished Diverged => True
  | Pending _ _ | Paused _ =>
      set_has name (loadingQueue h) = true /\
      set_has name (loadedModules h) = false
  end.

(** A call resumed [n] times, with no other call in between *)
Fixpoint resumes {A : Type} (w : world) (n : nat) (cfg : task A * state)
    : task A * state :=
  match n with
  | O => cfg
  | S n' => resumes w n' (resume w (fst cfg) (snd cfg))
  end.

(** *** Finite dependency graphs

    [wp w p s Q E]: run to completion from [s] in the environment [w], the
    program [p] returns a value and a state that satisfy [Q], or throws an
    exception and leaves a state that satisfy [E]; it does not exhaust its
    recursion budget. *)
Definition wp {A : Type} (w : world) (p : prog A) (s : state)
    (Q : A -> state -> Prop) (E : exn -> state -> Prop) : Prop :=
  match run w p s with
  | (Returned a, s') => Q a s'
  | (Thrown e, s') => E e s'
  | (Diverged, _) => False
  end.

Definition never {X : Type} : X -> state -> Prop := fun _ _ => False.

(** The declaration texts the records of the cache hold are among [T]. *)
Definition storage_texts (T : str -> Prop) (h : heap) : Prop :=
  forall key value info,
    In (key, value) (localStorage h) ->
    JSON_parse value = Some info -> T (content info).

Definition package_marker (specifier : str) : marker := $"package:" ++ specifier.

Definition universe (Ufiles Upkgs : list str) : list marker :=
  Ufiles ++ map package_marker Upkgs.

(** The markers of the universe that are not recorded yet *)
Definition unvisited (U : list marker) (s : state) : nat :=
  length (filter (fun m => negb (set_has m (visited s))) U).

Definition valid_call (Ufiles Upkgs : list str) (c : call) : Prop :=
  match c with
  | ProcessFile url _ => In (normalizeTypeUrl url) Ufiles
  | FetchEntry specifier => In specifier Upkgs
  end.

(** A finite dependency graph: the codec decodes what it encodes, the
    bodies the network serves are among the texts [T], and the files
    [Ufiles] and packages [Upkgs] are closed under the references and
    imports of these texts and under the resolution of the packages. *)
Record finite_graph (w : world) (Ufiles Upkgs : list str) (T : str -> Prop)
    : Prop := FiniteGraph {
  fg_codec : forall info, JSON_parse (JSON_stringify info) = Some info;
  fg_body : forall n r resp t,
      net w n r = Replied resp -> res_body resp = Some t -> T t;
  fg_reference : forall url t rel u,
      In url Ufiles -> T t -> In rel (fst (preProcessFile t)) ->
      resolveUrl rel url = Some u -> In (normalizeTypeUrl u) Ufiles;
  fg_relative : forall url t rel u,
      In url Ufiles -> T t -> In rel (snd (preProcessFile t)) ->
      startsWith rel $"." = true ->
      resolveUrl rel url = Some u -> In (normalizeTypeUrl u) Ufiles;
  fg_bare : forall t name,
      T t -> In name (snd (preProcessFile t)) ->
      startsWith name $"." = false -> includes name $"/" = false ->
      In name Upkgs;
  fg_entry : forall specifier n resp c typesHeader u,
      In specifier Upkgs ->
      net w n (Request HEAD ($"https://esm.sh/" ++ specifier)) = Replied resp ->
      res_types resp = Some (c :: typesHeader) ->
      resolveUrl (c :: typesHeader) ($"https://esm.sh/" ++ specifier) = Some u ->
      In (normalizeTypeUrl u) Ufiles;
  fg_fallback : forall specifier n resp,
      In specifier Upkgs ->
      net w n (Request HEAD ($"https://esm.sh/" ++ specifier)) = Replied resp ->
      truthy (res_types resp) = false ->
      In (normalizeTypeUrl ($"https://esm.sh/" ++ specifier ++ $"?dts")) Ufiles
}.

(** The state of a walk in a finite graph: the cache holds texts of the
    graph and at most [k] markers of the universe are left to record. *)
Definition walking (T : str -> Prop) (U : list marker) (k : nat) (s : state) : Prop :=
  storage_texts T (mem s) /\ unvisited U s <= k.

(** *** Sample storages *)

(** An old small record and a record of 60 MB *)
Definition small_record : str * str :=
  (getCacheKey $"https://esm.sh/a.d.ts",
   Sample.stringify (CachedType $"export {}" 10 None None)).

Definition large_record : str * str :=
  (getCacheKey $"https://esm.sh/b.d.ts",
   Sample.stringify (CachedType (Sample.filler 60000000) 20 None None)).

Definition full_storage : list (str * str) := [small_record; large_record].

(** A record that [JSON.parse] rejects *)
Definition broken_record : str * str :=
  (getCacheKey $"https://esm.sh/c.d.ts", $"{not json").

(** A fresh record with a revalidation tag *)
Definition tagged_record : str * str :=
  (getCacheKey $"https://esm.sh/e.d.ts",
   Sample.stringify (CachedType $"export const e: number" 10 None (Some $"W/1"))).

(** The dependency graph of the sample registry *)
Definition sample_files : list str :=
  [ $"https://esm.sh/v18/react/index.d.ts";
    $"https://esm.sh/v18/react/global.d.ts";
    $"https://esm.sh/csstype?dts";
    $"https://esm.sh/global.d.ts" ].

Definition sample_packages : list str := [ $"react"; $"csstype" ].

Definition sample_texts (t : str) : Prop :=
  In t [ $"///./global.d.ts" ++ [Sample.newline] ++ $"import csstype";
         $"export {}"; [] ].

(** *** More of [TypeCache] and of the manager *)

(** The state [set] leaves: the namespace is cleaned first when it is over
    budget, then the record is written unless the quota is exceeded; the
    clock and the quota have been read once each. *)
Definition after_set (w : world) (s : state) (url content : str)
    (etag version : option str) : state :=
  let ls := localStorage (mem s) in
  let cleaned :=
    if (MAX_CACHE_SIZE <? getCurrentCacheSize ls)%N then cleanup_storage ls else ls in
  State (visited s)
        (upd_storage (fun _ => written w s url content etag version cleaned) (mem s))
        (log s) (S (S (tick s))).

(** The revalidation probe of [get], issued at tick [n], accepts the tag. *)
Definition revalidates (w : world) (n : nat) (url : str) (tag : option str) : Prop :=
  match tag with
  | Some (c :: t) =>
      match net w n (Request HEAD url) with
      | Rejected => True
      | Replied resp => res_etag resp = Some (c :: t)
      end
  | _ => True
  end.

(** A stored value that [get] handles as the embedding says: the empty
    string, a value that [JSON.parse] rejects, or a record as [set]
    writes it *)
Definition cache_written (cached : str) : Prop :=
  cached = [] \/ JSON_parse cached = None \/
  exists info, cached = JSON_stringify info.

(** The integer part of [getStats]: the number of records of the namespace
    and the sum of their lengths, with the two counters *)
Record CacheCounts := Counts {
  totalTypes : N;
  totalSize : N;
  statHits : N;
  statMisses : N
}.

Definition getStats_counts (h : heap) : CacheCounts :=
  let acc :=
    fold_left
      (fun (a : N * N) kv =>
         if namespaced kv then (fst a + 1, snd a + strlen (snd kv))%N else a)
      (localStorage h) (0, 0)%N in
  Counts (fst acc) (snd acc) (hitCount h) (missCount h).

(** [chunkArray]: the [for] loop with its index; [None] when the loop does
    not end within [fuel] rounds. *)
Fixpoint chunk_loop {X : Type} (fuel i : nat) (array : list X) (chunkSize : nat)
    (chunks : list (list X)) : option (list (list X)) :=
  match fuel with
  | O => None
  | S f =>
      if i <? length array
      then chunk_loop f (i + chunkSize) array chunkSize
                      (chunks ++ [firstn chunkSize (skipn i array)])
      else Some chunks
  end.

Definition chunkArray {X : Type} (fuel : nat) (array : list X) (chunkSize : nat)
    : option (list (list X)) :=
  chunk_loop fuel 0 array chunkSize [].

(** The updates of the shared state the cache and the walker make: to the
    records of the cache namespace, adding a file or a registration, and
    counting a hit or a miss. *)
Definition storage_safe (g : list (str * str) -> list (str * str)) : Prop :=
  forall ls key,
    startsWith key CACHE_PREFIX = false -> getItem key (g ls) = getItem key ls.

Inductive pipeline_write : (heap -> heap) -> Prop :=
| pw_storage g : storage_safe g -> pipeline_write (upd_storage g)
| pw_files path text : pipeline_write (upd_files (setItem path text))
| pw_extraLibs path text : pipeline_write (upd_extraLibs (setItem path text))
| pw_hit : pipeline_write count_hit
| pw_miss : pipeline_write count_miss.

(** All Ret leaves of a program satisfy [P], and it has no Throw leaf. *)
Inductive returns_only {A : Type} (P : A -> Prop) : prog A -> Prop :=
| ro_Ret a : P a -> returns_only P (Ret a)
| ro_OutOfFuel : returns_only P OutOfFuel
| ro_IsVisited m k : (forall b, returns_only P (k b)) -> returns_only P (IsVisited m k)
| ro_MarkVisited m k : returns_only P k -> returns_only P (MarkVisited m k)
| ro_Read k : (forall h, returns_only P (k h)) -> returns_only P (Read k)
| ro_Write f k : returns_only P k -> returns_only P (Write f k)
| ro_Now k : (forall t, returns_only P (k t)) -> returns_only P (Now k)
| ro_Quota k : (forall b, returns_only P (k b)) -> returns_only P (Quota k)
| ro_Fetch m r k : (forall x, returns_only P (k x)) -> returns_only P (Fetch m r k)
| ro_Yield k : returns_only P k -> returns_only P (Yield k).

Definition task_returns_only {A : Type} (P : A -> Prop) (t : task A) : Prop :=
  match t with
  | Finished (Returned a) => P a
  | Finished (Thrown _) => False
  | Finished Diverged => True
  | Pending _ k => forall x, returns_only P (k x)
  | Paused k => returns_only P k
  end.

(** The number of updates of the shared state that a run makes *)
Fixpoint updates {A : Type} (w : world) (p : prog A) (s : state) : nat :=
  match p with
  | Ret _ | Throw _ | OutOfFuel => 0
  | IsVisited m k => updates w (k (set_has m (visited s))) s
  | MarkVisited m k => updates w k (with_visited s (set_add m (visited s)))
  | Read k => updates w (k (mem s)) s
  | Write f k => S (updates w k (with_mem s (f (mem s))))
  | Now k => updates w (k (clock w (tick s))) (ticked s)
  | Quota k => updates w (k (quota_exceeded w (tick s))) (ticked s)
  | Fetch m r k => updates w (k (net w (tick s) r)) (logged s m r)
  | Yield k => updates w k s
  end.

(** Two code units that the cache key does not tell apart *)
Definition same_key_char (a b : ascii) : Prop :=
  a = b \/ (alnum a = false /\ alnum b = false).

(** What a later heap keeps of an earlier one: the [localStorage] keys
    outside the cache namespace, the files and registrations present (their
    text may be replaced), the counters (they may grow) and the two sets of
    the manager. *)
Definition heap_extends (h h' : heap) : Prop :=
  (forall key, startsWith key CACHE_PREFIX = false ->
               getItem key (localStorage h') = getItem key (localStorage h)) /\
  (forall path, getItem path (files h) <> None -> getItem path (files h') <> None) /\
  (forall path, getItem path (extraLibs h) <> None ->
                getItem path (extraLibs h') <> None) /\
  (hitCount h <= hitCount h')%N /\ (missCount h <= missCount h')%N /\
  loadingQueue h' = loadingQueue h /\ loadedModules h' = loadedModules h.

(** What [loadLibrary] may answer for a name: [true], or [false] for a name
    that is not allow-listed *)
Definition honest (config : IntelliSenseConfig) (name : str) (b : bool) : Prop :=
  b = true \/ set_has name (supportedLibraries config) = false.

Definition result_ok {A : Type} (P : A -> Prop) (r : result A) : Prop :=
  match r with
  | Returned a => P a
  | Thrown _ => False
  | Diverged => True
  end.

(** Updates that add a file or a registration only under a path that ends in
    [.d.ts] *)
Inductive declaration_write : (heap -> heap) -> Prop :=
| dw_storage g : declaration_write (upd_storage g)
| dw_files path text :
    endsWith path dts = true -> declaration_write (upd_files (setItem path text))
| dw_extraLibs path text :
    endsWith path dts = true -> declaration_write (upd_extraLibs (setItem path text))
| dw_hit : declaration_write count_hit
| dw_miss : declaration_write count_miss.

(** Every file and registration of [h'] that [h] does not have is under a
    path that ends in [.d.ts]. *)
Definition adds_declarations (h h' : heap) : Prop :=
  (forall path, getItem path (files h') <> None ->
                getItem path (files h) <> None \/ endsWith path dts = true) /\
  (forall path, getItem path (extraLibs h') <> None ->
                getItem path (extraLibs h) <> None \/ endsWith path dts = true).

(** A package name, as opposed to a path: it starts with neither a dot nor
    a slash, and contains no slash, or one when it is scoped. *)
Definition package_name (name : str) : Prop :=
  startsWith name $"." = false /\ startsWith name $"/" = false /\
  count_occ ascii_dec name slash <= (if startsWith name $"@" then 1 else 0).

(** ** [bundler.ts]: the text handed to the transpiler

    [bundle] transpiles the source as it is when it mentions [createRoot]
    or [render], and wrapped in an application shell otherwise. *)

Definition nl : str := [ascii_of_nat 10].

Definition hasCreateRoot (rawCode : str) : bool :=
  includes rawCode $"createRoot" || includes rawCode $"render".

Definition wrappedCode (rawCode : str) : str :=
  nl ++ $"import { createRoot } from 'react-dom/client';" ++ nl ++
  $"import { ThemeProvider } from '@vapor-ui/core';" ++ nl ++
  nl ++ rawCode ++ nl ++
  nl ++ $"const root = createRoot(document.getElementById('root')!);" ++ nl ++
  $"root.render(" ++ nl ++
  $"  <ThemeProvider>" ++ nl ++
  $"    <App />" ++ nl ++
  $"  </ThemeProvider>" ++ nl ++
  $");" ++ nl.

(** The first argument of [esbuild.transform] *)
Definition bundle_input (rawCode : str) : str :=
  if hasCreateRoot rawCode then rawCode else wrappedCode rawCode.

(** *** More sample environments *)

(** More than a day after the sample records were written *)
Definition late_world : world :=
  World (fun _ _ => Rejected) (fun _ => 100000000%Z) (fun _ => false).

(** A storage that refuses every write *)
Definition full_disk : world :=
  World (fun _ _ => Rejected) (fun _ => 1000%Z) (fun _ => true).

(** A registry with one package, which names no declaration file *)
Definition leaf_net (n : nat) (r : request) : reply :=
  let u := req_url r in
  if str_eqb u $"https://esm.sh/clsx" then Sample.found None []
  else if str_eqb u $"https://esm.sh/clsx?dts" then Sample.found None $"export {}"
  else Rejected.

Definition leaf_world : world := World leaf_net (fun _ => 1000%Z) (fun _ => false).

(** The state after [react] was loaded with every request failing *)
Definition loaded_state : state :=
  State [$"package:react"] (Heap [] 0 0 [] [] [] [$"react"])
        [($"package:react", Request HEAD $"https://esm.sh/react")] 1.

(** A setting of another application next to a cache record *)
Definition shared_storage : list (str * str) :=
  [($"theme", $"dark"); small_record].

(** * Properties *)

(** *** Facts on the string primitives *)

Section StringFacts.

Lemma startsWith_app (p s : str) : startsWith (p ++ s) p = true.
Proof.
  induction p as [|c p IH]; simpl; [reflexivity|].
  destruct (ascii_dec c c); [exact IH | congruence].
Qed.

Lemma startsWith_inv (s p : str) :
  startsWith s p = true -> exists r, s = p ++ r.
Proof.
  revert s; induction p as [|c p IH]; intros s H.
  - now exists s.
  - destruct s as [|d s]; simpl in H; [discriminate|].
    destruct (ascii_dec c d) as [->|]; [|discriminate].
    destruct (IH _ H) as [r ->]. now exists r.
Qed.

Lemma includes_app (a p b : str) : includes (a ++ p ++ b) p = true.
Proof.
  induction a as [|c a IH]; simpl.
  - destruct (p ++ b) eqn:E; simpl; rewrite <- ?E, startsWith_app; reflexivity.
  - rewrite IH. apply orb_true_r.
Qed.

Lemma includes_inv (s p : str) :
  includes s p = true -> exists a b, s = a ++ p ++ b.
Proof.
  induction s as [|c s IH]; simpl; intros H.
  - rewrite orb_false_r in H. destruct (startsWith_inv _ _ H) as [r ->].
    now exists [], r.
  - apply orb_true_iff in H. destruct H as [H|H].
    + destruct (startsWith_inv _ _ H) as [r ->]. now exists [], r.
    + destruct (IH H) as (a & b & ->). now exists (c :: a), b.
Qed.

Lemma endsWith_app (a p : str) : endsWith (a ++ p) p = true.
Proof. unfold endsWith. rewrite rev_app_distr. apply startsWith_app. Qed.


Lemma startsWith_length (s p : str) :
  startsWith s p = true -> length p <= length s.
Proof.
  intros H. destruct (startsWith_inv _ _ H) as [r ->].
  rewrite length_app. lia.
Qed.

(** A replacement pass never lengthens the string when the replacement is
    no longer than the pattern. *)
Lemma replaceAll_from_length (pat rep : str) :
  length rep <= length pat -> 0 < length pat ->
  forall s k, k <= length s ->
    length (replaceAll_from pat rep k s) + k <= length s.
Proof.
  intros Hrep Hpat. induction s as [|c s IH]; intros k Hk; simpl in *.
  - lia.
  - destruct k as [|k].
    + destruct (startsWith (c :: s) pat) eqn:E.
      * apply startsWith_length in E. simpl in E.
        rewrite length_app.
        specialize (IH (length pat - 1) ltac:(lia)). lia.
      * simpl. specialize (IH 0 ltac:(lia)). lia.
    + specialize (IH k ltac:(lia)). lia.
Qed.

(** A pass that finds an occurrence strictly shortens the string. *)
Lemma replaceAll_shrinks (pat rep s : str) :
  length rep < length pat ->
  includes s pat = true ->
  length (replaceAll pat rep s) < length s.
Proof.
  intros Hlen. unfold replaceAll.
  induction s as [|c s IH]; simpl; intros H.
  - rewrite orb_false_r in H. apply startsWith_length in H. simpl in H. lia.
  - destruct (startsWith (c :: s) pat) eqn:E.
    + apply startsWith_length in E. simpl in E. rewrite length_app.
      pose proof (replaceAll_from_length pat rep ltac:(lia) ltac:(lia)
                    s (length pat - 1) ltac:(lia)). lia.
    + simpl in H. simpl. apply IH in H. lia.
Qed.

End StringFacts.

(** *** Facts on [normalizeTypeUrl] *)

Lemma collapse_dts_fixed (fuel : nat) (url : str) :
  includes url dts_dts = false -> collapse_dts fuel url = url.
Proof. intros H. destruct fuel; simpl; [reflexivity | now rewrite H]. Qed.

Lemma collapse_dts_clean (fuel : nat) :
  forall url, length url <= fuel ->
    includes (collapse_dts fuel url) dts_dts = false.
Proof.
  induction fuel as [|f IH]; intros url Hlen; simpl.
  - destruct url; [reflexivity | simpl in Hlen; lia].
  - destruct (includes url dts_dts) eqn:E; [|exact E].
    apply IH.
    assert (length (replaceAll dts_dts dts url) < length url).
    { apply replaceAll_shrinks; [simpl; lia | exact E]. }
    lia.
Qed.

(** Appending [.d.ts] to a string without [.ts] cannot create a doubled suffix. *)
Lemma append_dts_clean (u : str) :
  includes u $".ts" = false -> includes (u ++ dts) dts_dts = false.
Proof.
  intros H. destruct (includes (u ++ dts) dts_dts) eqn:E; [|reflexivity].
  exfalso. apply includes_inv in E. destruct E as (a & b & E).
  assert (Hu : u = a ++ $".d" ++ $".ts" ++ firstn (length b) (skipn (length a + 5) u)).
  { assert (Hl : length u = length a + 5 + length b).
    { apply (f_equal (@length ascii)) in E.
      rewrite !length_app in E. simpl in E. lia. }
    assert (E1 : firstn (length a + 5) (u ++ dts) = a ++ dts).
    { rewrite E. change dts_dts with (dts ++ dts).
      rewrite <- app_assoc, (app_assoc a dts).
      replace (length a + 5) with (length (a ++ dts)) by (rewrite length_app; reflexivity).
      now rewrite firstn_app, Nat.sub_diag, firstn_all, firstn_O, app_nil_r. }
    rewrite firstn_app in E1.
    replace (length a + 5 - length u) with 0 in E1 by lia.
    rewrite firstn_O, app_nil_r in E1.
    rewrite <- (firstn_skipn (length a + 5) u) at 1.
    rewrite E1. change dts with ($".d" ++ $".ts").
    rewrite <- !app_assoc. do 3 f_equal.
    rewrite firstn_all2; [reflexivity|]. rewrite length_skipn. lia. }
  rewrite Hu in H.
  rewrite (app_assoc a), includes_app in H. discriminate.
Qed.

Lemma normalizeTypeUrl_clean (url : str) : typeUrl_clean (normalizeTypeUrl url).
Proof.
  unfold normalizeTypeUrl, typeUrl_clean.
  pose proof (collapse_dts_clean (length url) url (le_n _)) as Hc.
  set (u := collapse_dts (length url) url) in *.
  destruct (endsWith u dts); [exact Hc|].
  destruct (includes u $"?"); [exact Hc|].
  destruct (endsWith u $"/"); [exact Hc|].
  destruct (includes u $".ts") eqn:Ets; [exact Hc|].
  destruct (includes u $".js"); [exact Hc|].
  simpl. now apply append_dts_clean.
Qed.

Lemma normalizeTypeUrl_of_clean (url : str) :
  typeUrl_clean url ->
  normalizeTypeUrl url =
    if endsWith url dts then url
    else if includes url $"?" then url
    else if endsWith url $"/" || includes url $".ts" || includes url $".js"
         then url
    else url ++ dts.
Proof.
  intros H. unfold normalizeTypeUrl. now rewrite (collapse_dts_fixed _ _ H).
Qed.



Lemma normalizeTypeUrl_twice (url : str) :
  normalizeTypeUrl (normalizeTypeUrl url) = normalizeTypeUrl url.
Proof.
  rewrite (normalizeTypeUrl_of_clean _ (normalizeTypeUrl_clean url)).
  unfold normalizeTypeUrl.
  pose proof (collapse_dts_clean (length url) url (le_n _)) as Hc.
  set (u := collapse_dts (length url) url) in *.
  destruct (endsWith u dts) eqn:E1; [now rewrite E1|].
  destruct (includes u $"?") eqn:E2; [now rewrite E1, E2|].
  destruct (endsWith u $"/" || includes u $".ts" || includes u $".js") eqn:E3.
  - now rewrite E1, E2, E3.
  - now rewrite endsWith_app.
Qed.

(** C10: [normalizeTypeUrl] is idempotent: normalising a URL that a parent
    step has already normalised does not change it. *)
Theorem normalizeTypeUrl_idempotent (url : str) :
  normalizeTypeUrl (normalizeTypeUrl url) = normalizeTypeUrl url.
Proof. exact (normalizeTypeUrl_twice url). Qed.

(** *** The collapse as a rewriting *)









Lemma collapses_of_clean (u v : str) :
  typeUrl_clean u -> collapses_to u v -> v = u.
Proof.
  intros Hc H. destruct H as [u|u v' v Hs _]; [reflexivity|].
  destruct Hs as [a b]. unfold typeUrl_clean in Hc.
  rewrite includes_app in Hc. discriminate.
Qed.









(** *** Import extraction *)

Lemma str_eqb_eq (a b : str) : str_eqb a b = true <-> a = b.
Proof. unfold str_eqb. destruct (str_eq_dec a b); split; congruence. Qed.

Lemma set_has_In (x : str) (s : list str) : set_has x s = true <-> In x s.
Proof.
  unfold set_has. rewrite existsb_exists. split.
  - intros (y & Hy & E). apply str_eqb_eq in E. now subst.
  - intros H. exists x. split; [exact H | now apply str_eqb_eq].
Qed.

Lemma set_add_In (x y : str) (s : list str) :
  In y (set_add x s) <-> y = x \/ In y s.
Proof.
  unfold set_add. destruct (set_has x s) eqn:E.
  - apply set_has_In in E. split; [tauto | intros [-> | H]; assumption].
  - rewrite in_app_iff. simpl. split; intros H; intuition congruence.
Qed.

Lemma set_add_NoDup (x : str) (s : list str) : NoDup s -> NoDup (set_add x s).
Proof.
  intros H. unfold set_add. destruct (set_has x s) eqn:E; [exact H|].
  assert (~ In x s) by (rewrite <- set_has_In; congruence).
  apply NoDup_rev in H. rewrite <- (rev_involutive (s ++ [x])).
  apply NoDup_rev. rewrite rev_app_distr. simpl. constructor; [|exact H].
  now rewrite <- in_rev.
Qed.

Lemma add_import_NoDup (imports : list str) (m : str) :
  NoDup imports -> NoDup (add_import imports m).
Proof.
  intros H. unfold add_import.
  destruct (_ && _); [now apply set_add_NoDup | exact H].
Qed.

Lemma fold_add_import_NoDup (ms : list str) :
  forall imports, NoDup imports -> NoDup (fold_left add_import ms imports).
Proof.
  induction ms as [|m ms IH]; intros imports H; simpl; [exact H|].
  apply IH. now apply add_import_NoDup.
Qed.

Lemma extractImports_NoDup (code : str) : NoDup (extractImports code).
Proof.
  unfold extractImports. generalize patterns. intros ps.
  assert (G : forall acc, NoDup acc ->
            NoDup (fold_left (fun imports pattern =>
              fold_left add_import (Regex.exec_all (length code) pattern code) imports)
              ps acc)).
  { induction ps as [|p ps IH]; intros acc H; simpl; [exact H|].
    apply IH. now apply fold_add_import_NoDup. }
  apply G. constructor.
Qed.

(** C8: on the source text of the specification, extraction yields exactly
    the two specifiers [@vapor-ui/core] and [lodash]; the relative import is
    dropped, the subpath [lodash/fp] collapses to its first segment, and the
    result of any extraction has no duplicates. *)
Theorem extractImports_example :
  extractImports
    $"import { Button } from '@vapor-ui/core'; import x from './local'; const y = require('lodash/fp');"
  = [$"@vapor-ui/core"; $"lodash"] /\
  extractImports $"import a from '@vapor-ui/core/button'; require('@vapor-ui/core')"
  = [$"@vapor-ui/core"] /\
  forall code, NoDup (extractImports code).
Proof.
  split; [vm_compute; reflexivity|].
  split; [vm_compute; reflexivity|].
  exact extractImports_NoDup.
Qed.

(** *** Running composed programs *)

Lemma run_bind {A B : Type} (w : world) (p : prog A) (f : A -> prog B) :
  forall s,
    run w (bind p f) s =
    match run w p s with
    | (Returned a, s') => run w (f a) s'
    | (Thrown e, s') => (Thrown e, s')
    | (Diverged, s') => (Diverged, s')
    end.
Proof.
  induction p as [a|e| |m k IH|m k IH|k IH|g k IH|k IH|k IH|m r k IH|k IH];
    intros s; simpl; auto.
Qed.

Lemma run_try_catch {A : Type} (w : world) (p : prog A) (h : exn -> prog A) :
  forall s,
    run w (try_catch p h) s =
    match run w p s with
    | (Thrown e, s') => run w (h e) s'
    | other => other
    end.
Proof.
  induction p as [a|e| |m k IH|m k IH|k IH|g k IH|k IH|k IH|m r k IH|k IH];
    intros s; simpl; auto.
Qed.

Lemma run_try_finally {A : Type} (w : world) (p : prog A) (f : prog unit) :
  forall s,
    run w (try_finally p f) s =
    match run w p s with
    | (Returned a, s') =>
        match run w f s' with
        | (Returned _, s'') => (Returned a, s'')
        | (Thrown e, s'') => (Thrown e, s'')
        | (Diverged, s'') => (Diverged, s'')
        end
    | (Thrown e, s') =>
        match run w f s' with
        | (Returned _, s'') => (Thrown e, s'')
        | (Thrown e', s'') => (Thrown e', s'')
        | (Diverged, s'') => (Diverged, s'')
        end
    | (Diverged, s') => (Diverged, s')
    end.
Proof.
  induction p as [a|e| |m k IH|m k IH|k IH|g k IH|k IH|k IH|m r k IH|k IH];
    intros s; simpl; auto.
  - rewrite run_bind. destruct (run w f s) as [[u|e|] s']; reflexivity.
  - rewrite run_bind. destruct (run w f s) as [[u|e'|] s']; reflexivity.
Qed.

(** *** [TypeCache.get] *)

Arguments option_eqb : simpl never.

Lemma get_undecodable (w : world) (s : state) (url : str)
      (c : ascii) (cached : str) :
  getItem (getCacheKey url) (localStorage (mem s)) = Some (c :: cached) ->
  JSON_parse (c :: cached) = None ->
  run w (TypeCache_get url) s = (Returned None, with_mem s (count_miss (mem s))).
Proof.
  intros Hget Hparse. unfold TypeCache_get. simpl. rewrite Hget, Hparse.
  reflexivity.
Qed.

(** C6: an unexpired record with a revalidation tag is served from the cache
    when the HEAD probe throws, and also when it completes with the stored
    tag; it is dropped exactly when the probe completes and reports another
    tag, or none. *)
Theorem get_revalidation_fail_open (w : world) (s : state) (url : str)
      (c0 : ascii) (cached : str) (info : CachedTypeInfo) (c : ascii) (tag : str) :
  getItem (getCacheKey url) (localStorage (mem s)) = Some (c0 :: cached) ->
  JSON_parse (c0 :: cached) = Some info ->
  etag info = Some (c :: tag) ->
  (clock w (tick s) - timestamp info <= CACHE_EXPIRY)%Z ->
  let probe := net w (S (tick s)) (Request HEAD url) in
  let out := run w (TypeCache_get url) s in
  (probe = Rejected ->
     fst out = Returned (Some (content info)) /\
     localStorage (mem (snd out)) = localStorage (mem s)) /\
  (forall resp, probe = Replied resp -> res_etag resp = Some (c :: tag) ->
     fst out = Returned (Some (content info)) /\
     localStorage (mem (snd out)) = localStorage (mem s)) /\
  (forall resp, probe = Replied resp -> res_etag resp <> Some (c :: tag) ->
     fst out = Returned None /\
     localStorage (mem (snd out)) =
       removeItem (getCacheKey url) (localStorage (mem s))) /\
  log (snd out) = log s ++ [(url, Request HEAD url)].
Proof.
  intros Hget Hparse Htag Hfresh probe out.
  assert (Hexp : (CACHE_EXPIRY <? clock w (tick s) - timestamp info)%Z = false)
    by (apply Z.ltb_ge; exact Hfresh).
  subst out. unfold TypeCache_get. simpl. rewrite Hget, Hparse. simpl.
  rewrite Hexp, Htag. simpl. fold probe.
  destruct probe as [|resp] eqn:E; simpl.
  - split; [intros _; split; reflexivity|].
    split; [intros resp; discriminate|].
    split; [intros resp; discriminate | reflexivity].
  - match goal with
    | |- context [option_eqb ?a ?b] => destruct (option_eqb a b) eqn:Eq
    end; simpl.
    + assert (Hs : res_etag resp = Some (c :: tag)).
      { unfold option_eqb in Eq.
        destruct (res_etag resp) as [x|]; [|discriminate].
        apply str_eqb_eq in Eq. now subst. }
      split; [discriminate|].
      split; [intros _ _ _; split; reflexivity|].
      split; [|reflexivity].
      intros resp' [= <-] Hne. contradiction.
    + assert (Hs : res_etag resp <> Some (c :: tag)).
      { intros Hs. rewrite Hs in Eq. unfold option_eqb in Eq.
        rewrite (proj2 (str_eqb_eq _ _) eq_refl) in Eq. discriminate. }
      split; [discriminate|].
      split; [intros resp' [= <-] Hx; contradiction|].
      split; [intros _ _ _; split; reflexivity | reflexivity].
Qed.

(** *** [cleanupOldEntries] *)

Opaque CACHE_PREFIX.

Lemma skipn_nth_error {X : Type} (l : list X) :
  forall i x, nth_error l i = Some x -> skipn i l = x :: skipn (S i) l.
Proof.
  induction l as [|y l IH]; intros [|i] x H; simpl in *; try discriminate.
  - now injection H as ->.
  - now apply IH.
Qed.

Lemma scan_entries_wellformed (fuel : nat) :
  forall i ls acc,
    wellformed_storage ls -> length ls <= fuel + i ->
    scan_entries fuel i ls acc = (ls, acc ++ stored_entries (skipn i ls)).
Proof.
  induction fuel as [|f IH]; intros i ls acc Hwf Hlen; simpl.
  - rewrite skipn_all2 by lia. simpl. now rewrite app_nil_r.
  - destruct (nth_error ls i) as [[key value]|] eqn:E.
    + rewrite (skipn_nth_error _ _ _ E).
      assert (Hin : In (key, value) ls) by (eapply nth_error_In; eauto).
      pose proof (proj1 (Forall_forall _ _) Hwf _ Hin) as Hkv.
      unfold stored_entries. simpl flat_map. unfold namespaced at 1.
      simpl fst. simpl snd.
      destruct (startsWith key CACHE_PREFIX) eqn:Ens.
      * destruct (Hkv Ens) as [Hne Hdec]. simpl in Hne, Hdec.
        destruct value as [|c value]; [congruence|].
        destruct (JSON_parse (c :: value)) as [parsed|]; [|congruence].
        rewrite IH; [|assumption|lia]. unfold stored_entries.
        rewrite <- app_assoc. reflexivity.
      * rewrite IH; [|assumption|lia]. reflexivity.
    + apply nth_error_None in E. rewrite skipn_all2 by lia. simpl.
      now rewrite app_nil_r.
Qed.

Lemma insert_entry_perm (e : str * Z) (l : list (str * Z)) :
  Permutation (insert_entry e l) (e :: l).
Proof.
  induction l as [|x l IH]; simpl; [reflexivity|].
  destruct (snd e <=? snd x)%Z; [reflexivity|].
  rewrite IH. apply perm_swap.
Qed.

Lemma sort_entries_perm (l : list (str * Z)) : Permutation (sort_entries l) l.
Proof.
  induction l as [|x l IH]; simpl; [reflexivity|].
  rewrite insert_entry_perm. now constructor.
Qed.

Lemma insert_entry_sorted (e : str * Z) (l : list (str * Z)) :
  StronglySorted older_or_same l -> StronglySorted older_or_same (insert_entry e l).
Proof.
  induction 1 as [|x l Hs IH Hall]; simpl.
  - repeat constructor.
  - destruct (snd e <=? snd x)%Z eqn:E.
    + apply Z.leb_le in E. constructor; [now constructor|].
      constructor; [exact E|].
      eapply Forall_impl; [|exact Hall]. unfold older_or_same. intros; lia.
    + apply Z.leb_gt in E. constructor; [exact IH|].
      eapply Permutation_Forall; [symmetry; apply insert_entry_perm|].
      constructor; [unfold older_or_same; lia | exact Hall].
Qed.

Lemma sort_entries_sorted (l : list (str * Z)) :
  StronglySorted older_or_same (sort_entries l).
Proof.
  induction l as [|x l IH]; simpl; [constructor | now apply insert_entry_sorted].
Qed.

Lemma in_skipn {X : Type} (k : nat) (l : list X) (x : X) :
  In x (skipn k l) -> In x l.
Proof.
  intros H. rewrite <- (firstn_skipn k l). apply in_or_app. now right.
Qed.

Lemma in_firstn {X : Type} (k : nat) (l : list X) (x : X) :
  In x (firstn k l) -> In x l.
Proof.
  intros H. rewrite <- (firstn_skipn k l). apply in_or_app. now left.
Qed.

Lemma sorted_prefix_oldest (l : list (str * Z)) :
  StronglySorted older_or_same l ->
  forall k a b, In a (firstn k l) -> In b (skipn k l) -> older_or_same a b.
Proof.
  induction 1 as [|x l Hs IH Hall]; intros k a b Ha Hb.
  - destruct k; contradiction.
  - destruct k as [|k]; simpl in *; [contradiction|].
    destruct Ha as [<-|Ha].
    + apply (proj1 (Forall_forall _ _) Hall). eapply in_skipn; eauto.
    + eapply IH; eauto.
Qed.

Lemma str_eqb_sym (a b : str) : str_eqb a b = str_eqb b a.
Proof. unfold str_eqb. destruct (str_eq_dec a b), (str_eq_dec b a); congruence. Qed.

Lemma fold_removeItem (es : list (str * Z)) :
  forall ls,
    fold_left (fun st e => removeItem (fst e) st) es ls =
    filter (fun kv => negb (evicts es kv)) ls.
Proof.
  induction es as [|e es IH]; intros ls; simpl.
  - exact (eq_sym (filter_true ls)).
  - rewrite IH. unfold removeItem.
    induction ls as [|kv ls IHl]; simpl; [reflexivity|].
    unfold evicts at 2. simpl. rewrite (str_eqb_sym (fst e) (fst kv)).
    destruct (str_eqb (fst kv) (fst e)); simpl; [exact IHl|].
    fold (evicts es kv). destruct (evicts es kv); simpl; now rewrite IHl.
Qed.

Lemma cleanup_storage_wellformed (ls : list (str * str)) :
  wellformed_storage ls ->
  evicted ls = firstn (toRemove (length (stored_entries ls)))
                      (sort_entries (stored_entries ls)) /\
  cleanup_storage ls = filter (fun kv => negb (evicts (evicted ls) kv)) ls.
Proof.
  intros Hwf. unfold cleanup_storage, evicted.
  rewrite (scan_entries_wellformed (length ls) 0 ls [] Hwf) by lia.
  simpl. split.
  - now rewrite (Permutation_length (sort_entries_perm _)).
  - apply fold_removeItem.
Qed.

(** *** [TypeCache.set] *)

Lemma run_set_within_budget (w : world) (s : state) (url content : str)
      (etag version : option str) :
  (getCurrentCacheSize (localStorage (mem s)) <= MAX_CACHE_SIZE)%N ->
  fst (run w (TypeCache_set url content etag version) s) = Returned tt /\
  localStorage (mem (snd (run w (TypeCache_set url content etag version) s))) =
    written w s url content etag version (localStorage (mem s)).
Proof.
  intros H. apply N.ltb_ge in H.
  unfold TypeCache_set, ensureCacheSpace, written. simpl. rewrite H. simpl.
  destruct (quota_exceeded w (S (tick s))); simpl; split; reflexivity.
Qed.

Lemma run_set_over_budget (w : world) (s : state) (url content : str)
      (etag version : option str) :
  (MAX_CACHE_SIZE < getCurrentCacheSize (localStorage (mem s)))%N ->
  fst (run w (TypeCache_set url content etag version) s) = Returned tt /\
  localStorage (mem (snd (run w (TypeCache_set url content etag version) s))) =
    written w s url content etag version (cleanup_storage (localStorage (mem s))).
Proof.
  intros H. apply N.ltb_lt in H.
  unfold TypeCache_set, ensureCacheSpace, written. simpl. rewrite H. simpl.
  destruct (quota_exceeded w (S (tick s))); simpl; split; reflexivity.
Qed.

Lemma stored_entries_count (ls : list (str * str)) :
  wellformed_storage ls ->
  length (stored_entries ls) = length (filter namespaced ls).
Proof.
  induction 1 as [|kv ls Hkv Hwf IH]; [reflexivity|].
  unfold stored_entries in *. simpl. rewrite length_app, IH.
  destruct (namespaced kv); [|reflexivity].
  destruct (Hkv eq_refl) as [Hne Hdec].
  destruct (snd kv) as [|c v]; [congruence|].
  destruct (JSON_parse (c :: v)); [reflexivity | congruence].
Qed.

(** C4 (as amended): when the records of the cache namespace already exceed
    the budget at the time of a [set], and each of them is decodable, [set]
    first removes the records of the [ceil(3n/10)] oldest of the [n] entries
    (no removed entry is younger than a kept one), and only then writes. *)
Theorem set_evicts_when_over_budget (w : world) (s : state) (url content : str)
      (etag version : option str) :
  let ls := localStorage (mem s) in
  let out := run w (TypeCache_set url content etag version) s in
  (MAX_CACHE_SIZE < getCurrentCacheSize ls)%N ->
  wellformed_storage ls ->
  fst out = Returned tt /\
  localStorage (mem (snd out)) =
    written w s url content etag version
            (filter (fun kv => negb (evicts (evicted ls) kv)) ls) /\
  length (evicted ls) = (3 * length (filter namespaced ls) + 9) / 10 /\
  exists kept,
    Permutation (evicted ls ++ kept) (stored_entries ls) /\
    forall g k, In g (evicted ls) -> In k kept -> (snd g <= snd k)%Z.
Proof.
  intros ls out Hover Hwf.
  destruct (run_set_over_budget w s url content etag version Hover) as [Hr Hs].
  destruct (cleanup_storage_wellformed ls Hwf) as [Hev Hcl].
  fold ls in Hs. rewrite Hcl in Hs.
  split; [exact Hr|]. split; [exact Hs|].
  set (n := length (stored_entries ls)) in *.
  assert (Hk : toRemove n <= n).
  { unfold toRemove. apply Nat.lt_succ_r. apply Nat.Div0.div_lt_upper_bound. lia. }
  split.
  - rewrite <- (stored_entries_count ls Hwf). fold n.
    rewrite Hev, firstn_length_le; [reflexivity|].
    rewrite (Permutation_length (sort_entries_perm _)). exact Hk.
  - exists (skipn (toRemove n) (sort_entries (stored_entries ls))).
    rewrite Hev. split.
    + rewrite firstn_skipn. apply sort_entries_perm.
    + intros g k Hg Hkk.
      exact (sorted_prefix_oldest _ (sort_entries_sorted _) _ _ _ Hg Hkk).
Qed.

Lemma cache_size_acc (ls : list (str * str)) :
  forall a,
    fold_left (fun total kv => if namespaced kv then (total + strlen (snd kv))%N else total)
              ls a =
    (a + getCurrentCacheSize ls)%N.
Proof.
  unfold getCurrentCacheSize.
  induction ls as [|kv ls IH]; intros a; simpl; [lia|].
  rewrite IH, (IH (if namespaced kv then _ else _)).
  destruct (namespaced kv); lia.
Qed.

Lemma cache_size_cons (kv : str * str) (ls : list (str * str)) :
  getCurrentCacheSize (kv :: ls) =
  ((if namespaced kv then strlen (snd kv) else 0) + getCurrentCacheSize ls)%N.
Proof.
  unfold getCurrentCacheSize at 1. simpl. rewrite cache_size_acc.
  destruct (namespaced kv); lia.
Qed.

(** *** Exceptions never leave the walker *)

Lemma no_throw_bind {A B : Type} (p : prog A) (f : A -> prog B) :
  no_throw p -> (forall a, no_throw (f a)) -> no_throw (bind p f).
Proof.
  intros Hp Hf. induction Hp; simpl; try (constructor; auto). apply Hf.
Qed.

(** A [try] whose handler does not throw does not throw, whatever it runs. *)
Lemma no_throw_try_catch {A : Type} (p : prog A) (h : exn -> prog A) :
  (forall e, no_throw (h e)) -> no_throw (try_catch p h).
Proof.
  intros Hh.
  induction p as [a|e| |m k IH|m k IH|k IH|g k IH|k IH|k IH|m r k IH|k IH];
    simpl; try (constructor; auto). apply Hh.
Qed.

Lemma no_throw_run {A : Type} (w : world) (p : prog A) :
  no_throw p -> forall s e, fst (run w p s) <> Thrown e.
Proof.
  induction 1; intros s e; simpl; try discriminate; auto.
Qed.

Lemma no_throw_start {A : Type} (w : world) (p : prog A) :
  no_throw p -> forall s,
    match fst (start w p s) with
    | Finished r => forall e, r <> Thrown e
    | Pending _ k => forall x, no_throw (k x)
    | Paused k => no_throw k
    end.
Proof.
  induction 1; intros s; simpl; auto; try (intros; discriminate);
    match goal with H : _ |- _ => apply H end.
Qed.

Lemma walk_no_throw (fuel : nat) (c : call) : no_throw (walk fuel c).
Proof.
  destruct fuel as [|fuel]; [constructor|].
  destruct c as [url packageName|specifier]; cbn [walk].
  - apply no_throw_bind; [constructor; intros; constructor|].
    intros [|]; [constructor|].
    apply no_throw_bind; [repeat constructor|]. intros _.
    apply no_throw_try_catch. intros; constructor.
  - apply no_throw_bind; [constructor; intros; constructor|].
    intros [|]; [constructor|].
    apply no_throw_bind; [repeat constructor|]. intros _.
    apply no_throw_try_catch. intros; constructor.
Qed.

Lemma fetchAndAddTypes_no_throw (fuel : nat) (specifier : str) :
  no_throw (fetchAndAddTypes fuel specifier).
Proof.
  unfold fetchAndAddTypes, await, fetchEntry.
  apply no_throw_bind; [apply walk_no_throw|]. intros; repeat constructor.
Qed.

(** *** Requests are covered by markers *)

Lemma guarded_conseq {A : Type} (Q Q' : A -> list event -> Prop)
      (E E' : exn -> list event -> Prop) (O : list event) (p : prog A) :
  guarded Q E O p ->
  (forall a O', Q a O' -> Q' a O') -> (forall e O', E e O' -> E' e O') ->
  guarded Q' E' O p.
Proof.
  intros H HQ HE. induction H; try (econstructor; eauto; fail).
Qed.

Lemma guarded_frame {A : Type} (Q : A -> list event -> Prop)
      (E : exn -> list event -> Prop) (O X : list event) (p : prog A) :
  guarded Q E O p ->
  guarded (fun a O' => exists O0, O' = O0 ++ X /\ Q a O0)
          (fun e O' => exists O0, O' = O0 ++ X /\ E e O0) (O ++ X) p.
Proof.
  intros H. induction H.
  - constructor. eauto.
  - constructor. eauto.
  - constructor.
  - eapply g_Guard; eauto. now rewrite app_assoc.
  - constructor; auto.
  - constructor; auto.
  - constructor; auto.
  - constructor; auto.
  - rewrite <- app_assoc. simpl. constructor. intros x.
    rewrite app_assoc. auto.
  - constructor; auto.
  - rewrite <- app_assoc. simpl. constructor. rewrite app_assoc. auto.
Qed.

Lemma guarded_bind {A B : Type} (Q : B -> list event -> Prop)
      (E : exn -> list event -> Prop) (O : list event) (p : prog A)
      (f : A -> prog B) :
  guarded (fun a O' => guarded Q E O' (f a)) E O p -> guarded Q E O (bind p f).
Proof.
  intros H. induction H; simpl; try (econstructor; eauto; fail); auto.
  eapply g_Guard; eauto. simpl.
  match goal with H : _ = MarkVisited _ _ |- _ => now rewrite H end.
Qed.

Lemma guarded_try_catch {A : Type} (Q : A -> list event -> Prop)
      (E : exn -> list event -> Prop) (O : list event) (p : prog A)
      (h : exn -> prog A) :
  guarded Q (fun e O' => guarded Q E O' (h e)) O p ->
  guarded Q E O (try_catch p h).
Proof.
  intros H. induction H; simpl; try (econstructor; eauto; fail); auto.
  eapply g_Guard; eauto. simpl.
  match goal with H : _ = MarkVisited _ _ |- _ => now rewrite H end.
Qed.

Lemma quiet_any {A : Type} (O : list event) (p : prog A) :
  quiet p -> guarded anything anything O p.
Proof.
  intros H. apply (guarded_frame _ _ [] O) in H. simpl in H.
  eapply guarded_conseq; eauto; unfold anything; auto.
Qed.

Lemma guarded_any {A : Type} (Q : A -> list event -> Prop)
      (E : exn -> list event -> Prop) (O : list event) (p : prog A) :
  guarded Q E O p -> guarded anything anything O p.
Proof. intros H. eapply guarded_conseq; eauto; unfold anything; auto. Qed.

Lemma any_bind {A B : Type} (O : list event) (p : prog A) (f : A -> prog B) :
  guarded anything anything O p -> (forall a, quiet (f a)) ->
  guarded anything anything O (bind p f).
Proof.
  intros Hp Hf. apply guarded_bind.
  eapply guarded_conseq; eauto. intros a O' _. now apply quiet_any.
Qed.

Lemma any_try_catch {A : Type} (O : list event) (p : prog A) (h : exn -> prog A) :
  guarded anything anything O p -> (forall e, quiet (h e)) ->
  guarded anything anything O (try_catch p h).
Proof.
  intros Hp Hh. apply guarded_try_catch.
  eapply guarded_conseq; eauto. intros e O' _. now apply quiet_any.
Qed.

Lemma quiet_Ret {A : Type} (a : A) : quiet (Ret a).
Proof. now constructor. Qed.

Lemma quiet_Throw {A : Type} (e : exn) : quiet (@Throw A e).
Proof. now constructor. Qed.

Lemma quiet_bind {A B : Type} (p : prog A) (f : A -> prog B) :
  quiet p -> (forall a, quiet (f a)) -> quiet (bind p f).
Proof. apply any_bind. Qed.

Lemma quiet_try_catch {A : Type} (p : prog A) (h : exn -> prog A) :
  quiet p -> (forall e, quiet (h e)) -> quiet (try_catch p h).
Proof. apply any_try_catch. Qed.

Lemma quiet_await {A : Type} (p : prog A) : quiet p -> quiet (await p).
Proof.
  intros H. apply quiet_bind; [exact H|]. intros a. constructor. apply quiet_Ret.
Qed.

Lemma quiet_write (f : heap -> heap) : quiet (write f).
Proof. constructor. apply quiet_Ret. Qed.

Lemma quiet_for_of {X : Type} (xs : list X) (body : X -> prog unit) :
  (forall x, quiet (body x)) -> quiet (for_of xs body).
Proof.
  intros H. induction xs as [|x xs IH]; simpl; [apply quiet_Ret|].
  apply quiet_bind; auto.
Qed.

Ltac guard_leaf :=
  first [ constructor; first [reflexivity | exact I]
        | apply (g_Drop _ _ [] []); constructor; first [reflexivity | exact I] ].

Ltac guard_step :=
  match goal with
  | |- guarded _ _ _ (Ret _) => guard_leaf
  | |- guarded _ _ _ (Throw _) => guard_leaf
  | |- guarded _ _ _ OutOfFuel => constructor
  | |- guarded _ _ _ (Read _) => constructor; intros
  | |- guarded _ _ _ (Write _ _) => constructor
  | |- guarded _ _ _ (Now _) => constructor; intros
  | |- guarded _ _ _ (Quota _) => constructor; intros
  | |- guarded _ _ _ (Yield _) => constructor
  | |- guarded _ _ [(?m, ?r)] (Fetch ?m ?r _) =>
      apply (g_Fetch _ _ [] []); intros
  | |- quiet _ => unfold quiet
  | |- guarded _ _ _ ?p =>
      match p with
      | context [match ?x with _ => _ end] => destruct x
      end
  end.

Ltac guard_auto := repeat (cbn [bind try_catch await]; guard_step).

Lemma quiet_register (path text : str) : quiet (register path text).
Proof. unfold register, read, write. guard_auto. Qed.

Lemma quiet_cleanupOldEntries : quiet cleanupOldEntries.
Proof. unfold cleanupOldEntries, write. guard_auto. Qed.

Lemma quiet_ensureCacheSpace : quiet ensureCacheSpace.
Proof. unfold ensureCacheSpace, cleanupOldEntries, read, write. guard_auto. Qed.

Lemma quiet_TypeCache_set (url content : str) (etag version : option str) :
  quiet (TypeCache_set url content etag version).
Proof.
  unfold TypeCache_set, ensureCacheSpace, cleanupOldEntries, storage_setItem,
    now, read, write.
  guard_auto.
Qed.

Lemma guarded_validateETag (url tag : str) :
  guarded (fun _ O => O = []) (fun _ O => O = [])
          [(url, Request HEAD url)] (validateETag url tag).
Proof. unfold validateETag, fetch. guard_auto. Qed.

Lemma guarded_TypeCache_get (url : str) :
  guarded (fun _ O => O = []) (fun _ O => O = [])
          [(url, Request HEAD url)] (TypeCache_get url).
Proof.
  unfold TypeCache_get, validateETag, fetch, now, read, write. guard_auto.
Qed.

Lemma quiet_text_of (res : response) : quiet (text_of res).
Proof. unfold text_of. guard_auto. Qed.

Lemma event_methods_distinct (u : str) :
  NoDup [(u, Request HEAD u); (u, Request GET u)].
Proof.
  constructor; [simpl; intros [H|[]]; discriminate|].
  constructor; [simpl; tauto | constructor].
Qed.

(** Every request of [processFile] and [fetchEntry] is issued under the
    marker the call has just recorded. *)
Lemma walk_quiet (fuel : nat) : forall c, quiet (walk fuel c).
Proof.
  induction fuel as [|fuel IH]; intros c; [constructor|].
  destruct c as [url packageName|specifier]; cbn [walk].
  - set (u := normalizeTypeUrl url).
    unfold isVisited, markVisited. cbn [bind].
    eapply (g_Guard _ _ [] u _ [(u, Request HEAD u); (u, Request GET u)]).
    + apply quiet_Ret.
    + reflexivity.
    + apply event_methods_distinct.
    + simpl. intros e [<-|[<-|[]]]; (split; [reflexivity|]);
        unfold target_request; simpl; auto.
    + rewrite app_nil_r. apply any_try_catch; [|intros; apply quiet_Ret].
      apply guarded_bind. unfold await at 1. apply guarded_bind.
      eapply guarded_conseq.
      * apply (guarded_frame _ _ _ [(u, Request GET u)] _ (guarded_TypeCache_get u)).
      * intros cached O' (O0 & -> & ->). cbn [app].
        constructor. constructor.
        apply any_bind.
        -- destruct (truthy cached); [guard_leaf|].
           unfold fetch. cbn [bind]. apply (g_Fetch _ _ [] []). intros x. cbn beta.
           destruct x as [|res]; cbn [bind]; [now constructor|].
           destruct (negb (res_ok res)); [apply quiet_Ret|].
           apply quiet_bind; [apply quiet_text_of|]. intros text.
           apply quiet_bind; [apply quiet_await, quiet_TypeCache_set|].
           intros _. apply quiet_Ret.
        -- intros [text|]; [|apply quiet_Ret].
           apply quiet_bind; [apply quiet_write|]. intros _.
           apply quiet_bind; [apply quiet_register|]. intros _.
           apply quiet_bind.
           { destruct packageName as [[|c p]|]; try apply quiet_Ret.
             destruct (negb _); [apply quiet_register | apply quiet_Ret]. }
           intros _. apply quiet_bind.
           { apply quiet_for_of. intros ref.
             destruct (resolveUrl ref u); [|apply quiet_Throw].
             apply quiet_await, IH. }
           intros _. apply quiet_for_of. intros importRef.
           destruct (startsWith importRef _).
           { destruct (resolveUrl importRef u); [|apply quiet_Throw].
             apply quiet_await, IH. }
           destruct (negb _); [|apply quiet_Ret].
           apply quiet_try_catch; [apply quiet_await, IH|].
           intros; apply quiet_Ret.
      * intros e O' _. exact I.
  - set (m := $"package:" ++ specifier).
    unfold isVisited, markVisited. cbn [bind].
    eapply (g_Guard _ _ [] m _
              [(m, Request HEAD ($"https://esm.sh/" ++ specifier))]).
    + apply quiet_Ret.
    + reflexivity.
    + constructor; [simpl; tauto | constructor].
    + simpl. intros e [<-|[]]. split; [reflexivity|].
      unfold target_request. simpl. right. right. now exists specifier.
    + rewrite app_nil_r. apply any_try_catch; [|intros; apply quiet_Ret].
      unfold fetch. cbn [bind]. apply (g_Fetch _ _ [] []). intros x. cbn beta.
      destruct x as [|resp]; cbn [bind]; [now constructor|].
      destruct (negb (res_ok resp)); [apply quiet_Ret|].
      apply quiet_bind.
      { destruct (res_types resp) as [[|c typesHeader]|]; try apply quiet_Ret.
        destruct (resolveUrl _ _); [apply quiet_Ret | apply quiet_Throw]. }
      intros typesUrl. apply quiet_await, IH.
Qed.

(** *** The walker leaves the manager's sets alone *)

Lemma wo_bind {A B : Type} (P : (heap -> heap) -> Prop) (p : prog A)
      (f : A -> prog B) :
  writes_only P p -> (forall a, writes_only P (f a)) -> writes_only P (bind p f).
Proof. intros Hp Hf. induction Hp; simpl; try (constructor; auto). apply Hf. Qed.

Lemma wo_try_catch {A : Type} (P : (heap -> heap) -> Prop) (p : prog A)
      (h : exn -> prog A) :
  writes_only P p -> (forall e, writes_only P (h e)) -> writes_only P (try_catch p h).
Proof. intros Hp Hh. induction Hp; simpl; try (constructor; auto). apply Hh. Qed.

Lemma wo_await {A : Type} (P : (heap -> heap) -> Prop) (p : prog A) :
  writes_only P p -> writes_only P (await p).
Proof. intros H. apply wo_bind; [exact H|]. intros; repeat constructor. Qed.

Lemma wo_for_of {X : Type} (P : (heap -> heap) -> Prop) (xs : list X)
      (body : X -> prog unit) :
  (forall x, writes_only P (body x)) -> writes_only P (for_of xs body).
Proof.
  intros H. induction xs as [|x xs IH]; simpl; [constructor|].
  apply wo_bind; auto.
Qed.

Lemma wo_run {A : Type} (w : world) (p : prog A) :
  writes_only keeps_manager p ->
  forall s,
    loadingQueue (mem (snd (run w p s))) = loadingQueue (mem s) /\
    loadedModules (mem (snd (run w p s))) = loadedModules (mem s).
Proof.
  induction 1 as [a|e| |m k Hk IH|m k Hk IH|k Hk IH|f k Hf Hk IH|k Hk IH|k Hk IH
                 |m r k Hk IH|k Hk IH]; intros s; simpl; auto;
    try (now apply IH);
    try (match goal with
         | |- context [run w _ ?s'] => first [exact (IH s') | exact (IH _ s')]
         end).
  destruct (IH (with_mem s (f (mem s)))) as [H1 H2]. simpl in *.
  destruct (Hf (mem s)) as [H3 H4]. split; congruence.
Qed.

Lemma keeps_storage f : keeps_manager (upd_storage f).
Proof. intros h; split; reflexivity. Qed.
Lemma keeps_files f : keeps_manager (upd_files f).
Proof. intros h; split; reflexivity. Qed.
Lemma keeps_extraLibs f : keeps_manager (upd_extraLibs f).
Proof. intros h; split; reflexivity. Qed.
Lemma keeps_hit : keeps_manager count_hit.
Proof. intros h; split; reflexivity. Qed.
Lemma keeps_miss : keeps_manager count_miss.
Proof. intros h; split; reflexivity. Qed.

Ltac wo_step :=
  match goal with
  | |- keeps_manager _ =>
      first [apply keeps_storage | apply keeps_files | apply keeps_extraLibs
            | apply keeps_hit | apply keeps_miss]
  | |- writes_only _ (Write _ _) => constructor
  | |- writes_only _ (Ret _) => constructor
  | |- writes_only _ (Throw _) => constructor
  | |- writes_only _ OutOfFuel => constructor
  | |- writes_only _ (Yield _) => constructor
  | |- writes_only _ (IsVisited _ _) => constructor; intros
  | |- writes_only _ (MarkVisited _ _) => constructor
  | |- writes_only _ (Read _) => constructor; intros
  | |- writes_only _ (Now _) => constructor; intros
  | |- writes_only _ (Quota _) => constructor; intros
  | |- writes_only _ (Fetch _ _ _) => constructor; intros
  | |- writes_only _ ?p =>
      match p with
      | context [match ?x with _ => _ end] => destruct x
      end
  end.

Ltac wo_auto := repeat (cbn [bind try_catch await]; wo_step).

Lemma wo_register (path text : str) :
  writes_only keeps_manager (register path text).
Proof. unfold register, read, write. wo_auto. Qed.

Lemma wo_TypeCache_set (url content : str) (etag version : option str) :
  writes_only keeps_manager (TypeCache_set url content etag version).
Proof.
  unfold TypeCache_set, ensureCacheSpace, cleanupOldEntries, storage_setItem,
    now, read, write.
  wo_auto.
Qed.

Lemma wo_TypeCache_get (url : str) :
  writes_only keeps_manager (TypeCache_get url).
Proof.
  unfold TypeCache_get, validateETag, fetch, now, read, write. wo_auto.
Qed.

Lemma wo_text_of (res : response) : writes_only keeps_manager (text_of res).
Proof. unfold text_of. wo_auto. Qed.

Lemma walk_keeps_manager (fuel : nat) :
  forall c, writes_only keeps_manager (walk fuel c).
Proof.
  induction fuel as [|fuel IH]; intros c; [constructor|].
  destruct c as [url packageName|specifier]; cbn [walk].
  - set (u := normalizeTypeUrl url).
    unfold isVisited, markVisited. cbn [bind].
    constructor. intros [|]; [constructor|]. constructor.
    apply wo_try_catch; [|intros; constructor].
    apply wo_bind; [apply wo_await, wo_TypeCache_get|]. intros cached.
    apply wo_bind.
    { destruct (truthy cached); [constructor|].
      unfold fetch. cbn [bind]. constructor. intros x.
      destruct x as [|res]; cbn [bind]; [constructor|].
      destruct (negb (res_ok res)); [constructor|].
      apply wo_bind; [apply wo_text_of|]. intros text.
      apply wo_bind; [apply wo_await, wo_TypeCache_set|].
      intros _. constructor. }
    intros [text|]; [|constructor].
    apply wo_bind; [unfold write; wo_auto|]. intros _.
    apply wo_bind; [apply wo_register|]. intros _.
    apply wo_bind.
    { destruct packageName as [[|c p]|]; try constructor.
      destruct (negb _); [apply wo_register | constructor]. }
    intros _. apply wo_bind.
    { apply wo_for_of. intros ref.
      destruct (resolveUrl ref u); [|constructor]. apply wo_await, IH. }
    intros _. apply wo_for_of. intros importRef.
    destruct (startsWith importRef _).
    { destruct (resolveUrl importRef u); [|constructor]. apply wo_await, IH. }
    destruct (negb _); [|constructor].
    apply wo_try_catch; [apply wo_await, IH | intros; constructor].
  - unfold isVisited, markVisited. cbn [bind].
    constructor. intros [|]; [constructor|]. constructor.
    apply wo_try_catch; [|intros; constructor].
    unfold fetch. cbn [bind]. constructor. intros x.
    destruct x as [|resp]; cbn [bind]; [constructor|].
    destruct (negb (res_ok resp)); [constructor|].
    apply wo_bind.
    { destruct (res_types resp) as [[|c typesHeader]|]; try constructor.
      destruct (resolveUrl _ _); constructor. }
    intros typesUrl. apply wo_await, IH.
Qed.

(** *** The event loop keeps requests distinct *)

Lemma set_add_has (m x : str) (v : list str) :
  set_has x v = true -> set_has x (set_add m v) = true.
Proof.
  rewrite !set_has_In, set_add_In. auto.
Qed.

Lemma set_add_has_self (m : str) (v : list str) : set_has m (set_add m v) = true.
Proof. rewrite set_has_In, set_add_In. auto. Qed.

Lemma perm_move_event (e : event) (L O1 O2 R : list event) :
  Permutation (L ++ (O1 ++ e :: O2) ++ R) ((L ++ [e]) ++ (O1 ++ O2) ++ R).
Proof.
  rewrite <- !app_assoc. simpl.
  apply Permutation_app_head.
  rewrite <- Permutation_middle. reflexivity.
Qed.

Lemma NoDup_drop_event (e : event) (L O1 O2 R : list event) :
  NoDup (L ++ (O1 ++ e :: O2) ++ R) -> NoDup (L ++ (O1 ++ O2) ++ R).
Proof.
  intros H. rewrite <- app_assoc in H. simpl in H.
  rewrite app_assoc in H. apply NoDup_remove_1 in H.
  now rewrite <- !app_assoc in *.
Qed.

Lemma start_sound {A : Type} (w : world) (Q : A -> list event -> Prop)
      (E : exn -> list event -> Prop) (O : list event) (p : prog A) :
  guarded Q E O p ->
  forall s R,
    NoDup (log s ++ O ++ R) -> all_visited s (log s ++ O ++ R) ->
    exists O',
      task_guarded O' (fst (start w p s)) /\
      NoDup (log (snd (start w p s)) ++ O' ++ R) /\
      all_visited (snd (start w p s)) (log (snd (start w p s)) ++ O' ++ R) /\
      grows s (snd (start w p s)).
Proof.
  induction 1 as [O a HQ|O e HE|O|O m k G body Hseen IHseen Hk HG Hm Hbody IHbody
                 |O k Hk IH|O f k Hk IH|O k Hk IH|O k Hk IH
                 |O1 O2 m r k Hk IH|O k Hk IH|O1 O2 e p Hp IH];
    intros s R Hnd Hvis.
  - exists O. simpl. split; [exact I|]. split; [exact Hnd|].
    split; [exact Hvis | intros m; auto].
  - exists O. simpl. split; [exact I|]. split; [exact Hnd|].
    split; [exact Hvis | intros m; auto].
  - exists O. simpl. split; [exact I|]. split; [exact Hnd|].
    split; [exact Hvis | intros m; auto].
  - simpl. destruct (set_has m (visited s)) eqn:Em.
    + apply IHseen; assumption.
    + rewrite Hk. simpl.
      set (s1 := with_visited s (set_add m (visited s))).
      assert (Hfresh : forall e, In e G -> ~ In e (log s ++ O ++ R)).
      { intros e HeG Hin. apply Hvis in Hin. destruct Hin as [Hin _].
        rewrite (proj1 (Hm e HeG)) in Hin. congruence. }
      destruct (IHbody s1 R) as (O' & H1 & H2 & H3 & H4).
      * simpl. rewrite <- app_assoc.
        apply (Permutation_NoDup (l := G ++ log s ++ O ++ R)).
        { rewrite !app_assoc. apply Permutation_app_tail.
          rewrite <- !app_assoc. rewrite (app_assoc G), (app_assoc (log s)).
          apply Permutation_app_tail. apply Permutation_app_comm. }
        apply NoDup_app; [exact HG | exact Hnd |].
        intros e HeG. now apply Hfresh.
      * intros e Hin. simpl. rewrite !in_app_iff in Hin.
        destruct Hin as [Hin|[[Hin|Hin]|Hin]].
        -- split; [apply set_add_has|]; apply Hvis; rewrite in_app_iff; auto.
        -- destruct (Hm e Hin) as [-> Ht]. split; [apply set_add_has_self | exact Ht].
        -- split; [apply set_add_has|]; apply Hvis; rewrite !in_app_iff; auto.
        -- split; [apply set_add_has|]; apply Hvis; rewrite !in_app_iff; auto.
      * exists O'. split; [exact H1|]. split; [exact H2|]. split; [exact H3|].
        intros x Hx. apply H4. simpl. now apply set_add_has.
  - simpl. apply (IH (mem s) s R); assumption.
  - simpl. destruct (IH (with_mem s (f (mem s))) R) as (O' & H1 & H2 & H3 & H4);
      try assumption.
    exists O'. split; [exact H1|]. split; [exact H2|]. split; [exact H3|exact H4].
  - simpl. destruct (IH (clock w (tick s)) (ticked s) R) as (O' & H1 & H2 & H3 & H4);
      try assumption.
    exists O'. split; [exact H1|]. split; [exact H2|]. split; [exact H3|exact H4].
  - simpl. destruct (IH (quota_exceeded w (tick s)) (ticked s) R)
      as (O' & H1 & H2 & H3 & H4); try assumption.
    exists O'. split; [exact H1|]. split; [exact H2|]. split; [exact H3|exact H4].
  - simpl. exists (O1 ++ O2). split; [|split; [|split]].
    + intros x. eapply guarded_any. apply Hk.
    + eapply Permutation_NoDup; [apply perm_move_event | exact Hnd].
    + intros e He. apply Hvis.
      eapply Permutation_in; [symmetry; apply perm_move_event | exact He].
    + intros x; auto.
  - simpl. exists O. split; [eapply guarded_any; exact Hk|].
    split; [exact Hnd|]. split; [exact Hvis | intros x; auto].
  - apply IH.
    + now apply NoDup_drop_event in Hnd.
    + intros x Hx. apply Hvis. rewrite !in_app_iff in *. simpl.
      intuition.
Qed.

Lemma grows_all_visited (s s' : state) (es : list event) :
  grows s s' -> all_visited s es -> all_visited s' es.
Proof. intros Hg H e He. destruct (H e He). split; auto. Qed.

Lemma Forall2_pick {X Y : Type} (P : X -> Y -> Prop) (xs : list X) (ys : list Y) :
  Forall2 P xs ys ->
  forall i y, nth_error ys i = Some y ->
    exists xa x xb ya yb,
      xs = xa ++ x :: xb /\ ys = ya ++ y :: yb /\ length ya = i /\
      Forall2 P xa ya /\ Forall2 P xb yb /\ P x y.
Proof.
  induction 1 as [|x0 y0 xs ys Hxy Hrest IH]; intros i y Hi.
  - destruct i; discriminate.
  - destruct i as [|i]; simpl in Hi.
    + injection Hi as <-. exists [], x0, xs, [], ys. repeat split; auto.
    + destruct (IH i y Hi) as (xa & x & xb & ya & yb & -> & -> & Hl & Ha & Hb & Hp).
      exists (x0 :: xa), x, xb, (y0 :: ya), yb. simpl.
      repeat split; auto.
Qed.

Lemma replace_nth_middle {X : Type} (xa xb : list X) (x x' : X) :
  replace_nth (length xa) x' (xa ++ x :: xb) = xa ++ x' :: xb.
Proof. induction xa as [|a xa IH]; simpl; [reflexivity | now rewrite IH]. Qed.

Lemma perm_owed (L A O B : list event) :
  Permutation (L ++ A ++ O ++ B) (L ++ O ++ A ++ B).
Proof.
  apply Permutation_app_head. rewrite !app_assoc.
  apply Permutation_app_tail. apply Permutation_app_comm.
Qed.

Lemma pool_inv_spawn {A : Type} (w : world) (pool : list (task A)) (s : state)
      (p : prog A) :
  quiet p -> pool_inv pool s ->
  pool_inv (fst (step_pool w (pool, s) (Spawn p)))
           (snd (step_pool w (pool, s) (Spawn p))) /\
  grows s (snd (step_pool w (pool, s) (Spawn p))).
Proof.
  intros Hq (owed & Hall & Hnd & Hvis). simpl.
  destruct (start_sound w _ _ _ _ Hq s (concat owed) Hnd Hvis)
    as (O' & H1 & H2 & H3 & H4).
  destruct (start w p s) as [t s'] eqn:Es. simpl in *.
  split; [|exact H4].
  exists (owed ++ [O']). split; [|split].
  - apply Forall2_app; [exact Hall | now constructor].
  - rewrite concat_app. simpl. rewrite app_nil_r.
    eapply Permutation_NoDup; [|exact H2].
    apply Permutation_app_head. apply Permutation_app_comm.
  - rewrite concat_app. simpl. rewrite app_nil_r.
    intros e He. apply H3. rewrite !in_app_iff in *. tauto.
Qed.

Lemma pool_inv_resume {A : Type} (w : world) (pool : list (task A)) (s : state)
      (i : nat) :
  pool_inv pool s ->
  pool_inv (fst (step_pool w (pool, s) (Resume i)))
           (snd (step_pool w (pool, s) (Resume i))) /\
  grows s (snd (step_pool w (pool, s) (Resume i))).
Proof.
  intros Hinv. simpl.
  destruct (nth_error pool i) as [t|] eqn:Ei;
    [|simpl; split; [exact Hinv | intros m; auto]].
  destruct Hinv as (owed & Hall & Hnd & Hvis).
  destruct (Forall2_pick _ _ _ Hall i t Ei)
    as (oa & O & ob & pa & pb & -> & -> & Hlen & Ha & Hb & Ht).
  rewrite concat_app in Hnd, Hvis. simpl in Hnd, Hvis.
  assert (Hnd' : NoDup (log s ++ O ++ concat oa ++ concat ob)).
  { eapply Permutation_NoDup; [apply perm_owed | exact Hnd]. }
  assert (Hvis' : all_visited s (log s ++ O ++ concat oa ++ concat ob)).
  { intros e He. apply Hvis.
    eapply Permutation_in; [symmetry; apply perm_owed | exact He]. }
  assert (Hstep : forall (q : prog A) (s0 : state),
            guarded anything anything O q ->
            log s0 = log s -> visited s0 = visited s ->
            pool_inv (replace_nth i (fst (start w q s0)) (pa ++ t :: pb))
                     (snd (start w q s0)) /\
            grows s (snd (start w q s0))).
  { intros q s0 Hq Hlog Hv.
    destruct (start_sound w _ _ _ _ Hq s0 (concat oa ++ concat ob))
      as (O' & H1 & H2 & H3 & H4).
    - now rewrite Hlog.
    - intros e He. unfold all_visited in Hvis'. rewrite Hv, Hlog in *. auto.
    - split; [|intros m Hm; apply H4; now rewrite Hv].
      exists (oa ++ O' :: ob). rewrite <- Hlen, replace_nth_middle.
      split; [|split].
      + apply Forall2_app; [exact Ha | constructor; assumption].
      + rewrite concat_app. simpl.
        eapply Permutation_NoDup; [symmetry; apply perm_owed | exact H2].
      + rewrite concat_app. simpl. intros e He. apply H3.
        eapply Permutation_in; [apply perm_owed | exact He]. }
  destruct t as [r|r k|k]; simpl.
  - split; [|intros m; auto].
    rewrite <- Hlen, replace_nth_middle.
    exists (oa ++ O :: ob). split; [|split].
    + apply Forall2_app; [exact Ha | constructor; assumption].
    + rewrite concat_app. exact Hnd.
    + rewrite concat_app. exact Hvis.
  - destruct (start w (k (net w (tick s) r)) (ticked s)) as [t' s'] eqn:Es.
    pose proof (Hstep (k (net w (tick s) r)) (ticked s) (Ht _) eq_refl eq_refl) as H.
    rewrite Es in H. exact H.
  - destruct (start w k s) as [t' s'] eqn:Es.
    pose proof (Hstep k s Ht eq_refl eq_refl) as H.
    rewrite Es in H. exact H.
Qed.

Lemma fetchAndAddTypes_quiet (fuel : nat) (specifier : str) :
  quiet (fetchAndAddTypes fuel specifier).
Proof. unfold fetchAndAddTypes, fetchEntry. apply quiet_await, walk_quiet. Qed.

Lemma walker_action_quiet (p : prog unit) :
  walker_action (Spawn p) -> quiet p.
Proof.
  intros (fuel & [[c ->]|[specifier ->]]);
    [apply walk_quiet | apply fetchAndAddTypes_quiet].
Qed.

Lemma run_pool_inv (w : world) (acts : list (action unit)) :
  Forall walker_action acts ->
  forall pool s,
    pool_inv pool s ->
    pool_inv (fst (run_pool w acts (pool, s))) (snd (run_pool w acts (pool, s))) /\
    grows s (snd (run_pool w acts (pool, s))).
Proof.
  induction 1 as [|a acts Ha Hacts IH]; intros pool s Hinv.
  - simpl. split; [exact Hinv | intros m; auto].
  - unfold run_pool. cbn [fold_left]. fold (run_pool w acts).
    assert (Hstep : pool_inv (fst (step_pool w (pool, s) a))
                             (snd (step_pool w (pool, s) a)) /\
                    grows s (snd (step_pool w (pool, s) a))).
    { destruct a as [p|i].
      - apply pool_inv_spawn; [now apply walker_action_quiet | exact Hinv].
      - apply pool_inv_resume; exact Hinv. }
    destruct (step_pool w (pool, s) a) as [pool1 s1]. simpl in Hstep.
    destruct Hstep as [Hinv1 Hg1].
    destruct (IH pool1 s1 Hinv1) as [Hinv2 Hg2].
    split; [exact Hinv2 | intros m Hm; apply Hg2, Hg1, Hm].
Qed.

Lemma start_grows {A : Type} (w : world) (p : prog A) :
  forall s, grows s (snd (start w p s)).
Proof.
  induction p as [a|e| |m k IH|m k IH|k IH|g k IH|k IH|k IH|m r k IH|k IH];
    intros s x Hx; simpl; auto; try (now apply IH).
  apply IH. simpl. now apply set_add_has.
Qed.

Lemma walk_seen (w : world) (fuel : nat) (c : call) (s : state) :
  set_has (marker_of c) (visited s) = true ->
  start w (walk (S fuel) c) s = (Finished (Returned tt), s) /\
  run w (walk (S fuel) c) s = (Returned tt, s).
Proof.
  intros H. destruct c as [url packageName|specifier]; cbn [walk marker_of] in *;
    unfold isVisited; cbn [bind start run]; rewrite H; split; reflexivity.
Qed.

Lemma walk_marks (w : world) (fuel : nat) (c : call) (s : state) :
  set_has (marker_of c) (visited (snd (start w (walk (S fuel) c) s))) = true.
Proof.
  destruct (set_has (marker_of c) (visited s)) eqn:E.
  - now rewrite (proj1 (walk_seen w fuel c s E)).
  - destruct c as [url packageName|specifier]; cbn [walk marker_of] in *;
      unfold isVisited, markVisited; cbn [bind start]; rewrite E;
      cbn [bind start]; apply start_grows; simpl; apply set_add_has_self.
Qed.

Lemma downloads_NoDup (l : list event) :
  NoDup l -> (forall e, In e l -> target_request e) -> NoDup (downloads l).
Proof.
  intros Hnd Hshape. unfold downloads.
  apply NoDup_map_NoDup_ForallPairs; [|now apply NoDup_filter].
  assert (Hget : forall e, In e (filter is_download l) ->
                           e = (req_url (snd e), Request GET (req_url (snd e)))).
  { intros [m r] He. apply filter_In in He. destruct He as [Hin Hd].
    unfold is_download in Hd. simpl in *.
    destruct (Hshape _ Hin) as [H|[H|(sp & _ & H)]]; simpl in H; subst r;
      simpl in *; try discriminate. reflexivity. }
  intros x y Hx Hy Heq. rewrite (Hget x Hx), (Hget y Hy). now rewrite Heq.
Qed.

(** C1: whatever calls of [processFile], [fetchEntry] and [fetchAndAddTypes]
    are started and however the event loop interleaves them, no request is
    issued twice for a target: the requests issued are pairwise distinct
    pairs of a marker and a revalidation probe, a download or a resolution
    probe for it, and each marker is in the visited set.  A call records its
    marker before it suspends for the first time, and a call whose marker is
    recorded returns at once, leaving the state as it is.  In particular
    no URL is downloaded twice. *)
Theorem visited_once (w : world) (acts : list (action unit)) (s0 : state) :
  Forall walker_action acts ->
  log s0 = [] ->
  let s := snd (run_pool w acts ([], s0)) in
  NoDup (log s) /\
  (forall e, In e (log s) ->
     set_has (fst e) (visited s) = true /\ target_request e) /\
  NoDup (downloads (log s)) /\
  grows s0 s /\
  (forall fuel c s1,
     set_has (marker_of c) (visited (snd (start w (walk (S fuel) c) s1))) = true) /\
  (forall fuel c s1,
     set_has (marker_of c) (visited s1) = true ->
     start w (walk (S fuel) c) s1 = (Finished (Returned tt), s1)).
Proof.
  intros Hacts Hlog s.
  assert (Hinit : pool_inv (@nil (task unit)) s0).
  { exists []. rewrite Hlog. simpl. split; [constructor|].
    split; [constructor | intros e []]. }
  destruct (run_pool_inv w acts Hacts [] s0 Hinit) as [(owed & _ & Hnd & Hvis) Hg].
  fold s in Hnd, Hvis, Hg.
  assert (Honce : NoDup (log s)) by now apply NoDup_app_remove_r in Hnd.
  assert (Hrec : forall e, In e (log s) ->
                   set_has (fst e) (visited s) = true /\ target_request e).
  { intros e He. apply Hvis. rewrite in_app_iff. auto. }
  split; [exact Honce|]. split; [exact Hrec|].
  split; [apply downloads_NoDup; [exact Honce | intros e He; apply Hrec, He]|].
  split; [exact Hg|].
  split; [intros; apply walk_marks|].
  intros fuel c s1 H. apply (walk_seen w fuel c s1 H).
Qed.

(** *** [loadLibrary] *)

Lemma run_await {A : Type} (w : world) (p : prog A) (s : state) :
  run w (await p) s = run w p s.
Proof.
  unfold await. rewrite run_bind.
  destruct (run w p s) as [[a|e|] s']; reflexivity.
Qed.

Lemma set_delete_has (x : str) (l : list str) : set_has x (set_delete x l) = false.
Proof.
  destruct (set_has x (set_delete x l)) eqn:E; [|reflexivity].
  apply set_has_In in E. unfold set_delete in E. apply filter_In in E.
  destruct E as [_ E]. rewrite (proj2 (str_eqb_eq x x) eq_refl) in E. discriminate.
Qed.

Lemma fetchAndAddTypes_keeps_manager (fuel : nat) (specifier : str) :
  writes_only keeps_manager (fetchAndAddTypes fuel specifier).
Proof. unfold fetchAndAddTypes, fetchEntry. apply wo_await, walk_keeps_manager. Qed.

Lemma fetchAndAddTypes_outcome (w : world) (fuel : nat) (specifier : str) (s : state) :
  fst (run w (fetchAndAddTypes fuel specifier) s) = Returned tt \/
  fst (run w (fetchAndAddTypes fuel specifier) s) = Diverged.
Proof.
  pose proof (no_throw_run w _ (fetchAndAddTypes_no_throw fuel specifier) s) as H.
  destruct (fst (run w (fetchAndAddTypes fuel specifier) s)) as [[]|e|]; auto.
  now destruct (H e).
Qed.

Lemma loadLibrary_done (w : world) (fuel : nat) (config : IntelliSenseConfig)
      (name : str) (s : state) :
  set_has name (loadedModules (mem s)) = true ->
  run w (loadLibrary fuel config name) s = (Returned true, s).
Proof. intros H. unfold loadLibrary, read. cbn [bind run]. now rewrite H. Qed.

Lemma newLibraries_skips_loaded (config : IntelliSenseConfig) (h : heap)
      (code name : str) :
  set_has name (loadedModules h) = true -> ~ In name (newLibraries config h code).
Proof.
  intros H Hin. unfold newLibraries in Hin. apply filter_In in Hin.
  destruct Hin as [_ Hin]. rewrite H in Hin.
  rewrite andb_false_r in Hin. discriminate.
Qed.


(** *** Running in a finite graph *)

Lemma wp_bind {A B : Type} (w : world) (p : prog A) (f : A -> prog B) (s : state)
      (Q : B -> state -> Prop) (E : exn -> state -> Prop) :
  wp w p s (fun a s' => wp w (f a) s' Q E) E -> wp w (bind p f) s Q E.
Proof.
  unfold wp. rewrite run_bind. destruct (run w p s) as [[a|e|] s']; auto.
Qed.

Lemma wp_try_catch {A : Type} (w : world) (p : prog A) (h : exn -> prog A)
      (s : state) (Q : A -> state -> Prop) (E : exn -> state -> Prop) :
  wp w p s Q (fun e s' => wp w (h e) s' Q E) -> wp w (try_catch p h) s Q E.
Proof.
  unfold wp. rewrite run_try_catch. destruct (run w p s) as [[a|e|] s']; auto.
Qed.

Lemma wp_conseq {A : Type} (w : world) (p : prog A) (s : state)
      (Q Q' : A -> state -> Prop) (E E' : exn -> state -> Prop) :
  wp w p s Q E ->
  (forall a s', Q a s' -> Q' a s') -> (forall e s', E e s' -> E' e s') ->
  wp w p s Q' E'.
Proof.
  unfold wp. destruct (run w p s) as [[a|e|] s']; auto.
Qed.

Lemma wp_await {A : Type} (w : world) (p : prog A) (s : state)
      (Q : A -> state -> Prop) (E : exn -> state -> Prop) :
  wp w p s Q E -> wp w (await p) s Q E.
Proof. unfold wp. now rewrite run_await. Qed.

Lemma wp_for_of {X : Type} (w : world) (xs : list X) (body : X -> prog unit)
      (I : state -> Prop) (E : exn -> state -> Prop) :
  (forall x s, In x xs -> I s -> wp w (body x) s (fun _ => I) E) ->
  forall s, I s -> wp w (for_of xs body) s (fun _ => I) E.
Proof.
  induction xs as [|x xs IH]; intros Hbody s Hs; simpl.
  - exact Hs.
  - apply wp_bind. eapply wp_conseq.
    + apply Hbody; [now left | exact Hs].
    + intros a s' Hs'. apply IH; [|exact Hs'].
      intros y s0 Hy. apply Hbody. now right.
    + auto.
Qed.

Lemma wp_Ret {A : Type} (w : world) (a : A) (s : state)
      (Q : A -> state -> Prop) (E : exn -> state -> Prop) :
  Q a s -> wp w (Ret a) s Q E.
Proof. exact (fun H => H). Qed.

Lemma wp_Throw {A : Type} (w : world) (e : exn) (s : state)
      (Q : A -> state -> Prop) (E : exn -> state -> Prop) :
  E e s -> wp w (Throw e) s Q E.
Proof. exact (fun H => H). Qed.

Lemma wp_Fetch {A : Type} (w : world) (m : marker) (r : request)
      (k : reply -> prog A) (s : state)
      (Q : A -> state -> Prop) (E : exn -> state -> Prop) :
  wp w (k (net w (tick s) r)) (logged s m r) Q E -> wp w (Fetch m r k) s Q E.
Proof. exact (fun H => H). Qed.

Lemma wp_Yield {A : Type} (w : world) (k : prog A) (s : state)
      (Q : A -> state -> Prop) (E : exn -> state -> Prop) :
  wp w k s Q E -> wp w (Yield k) s Q E.
Proof. exact (fun H => H). Qed.

Lemma wp_Write {A : Type} (w : world) (f : heap -> heap) (k : prog A) (s : state)
      (Q : A -> state -> Prop) (E : exn -> state -> Prop) :
  wp w k (with_mem s (f (mem s))) Q E -> wp w (Write f k) s Q E.
Proof. exact (fun H => H). Qed.

Lemma wp_guard {A : Type} (w : world) (m : marker) (k : prog A) (a : A) (s : state)
      (Q : A -> state -> Prop) (E : exn -> state -> Prop) :
  (set_has m (visited s) = true -> Q a s) ->
  (set_has m (visited s) = false ->
   wp w k (with_visited s (set_add m (visited s))) Q E) ->
  wp w (seen <- isVisited m ;; if seen then Ret a else markVisited m ;; k) s Q E.
Proof.
  intros H1 H2. unfold wp, isVisited, markVisited. cbn [bind run].
  destruct (set_has m (visited s)) eqn:Em; cbn [bind run].
  - now apply H1.
  - now apply H2.
Qed.

Lemma filter_length_lt {X : Type} (f g : X -> bool) (l : list X) (m : X) :
  (forall x, g x = true -> f x = true) ->
  In m l -> f m = true -> g m = false ->
  length (filter g l) < length (filter f l).
Proof.
  intros Hgf. induction l as [|x l IH]; intros Hin Hf Hg; [contradiction|].
  assert (Hle : forall l0, length (filter g l0) <= length (filter f l0)).
  { induction l0 as [|y l0 IH0]; simpl; [lia|].
    destruct (g y) eqn:Egy; [rewrite (Hgf y Egy); simpl; lia|].
    destruct (f y); simpl; lia. }
  simpl. destruct Hin as [->|Hin].
  - rewrite Hf, Hg. simpl. specialize (Hle l). lia.
  - specialize (IH Hin Hf Hg).
    destruct (g x) eqn:Egx; [rewrite (Hgf x Egx); simpl; lia|].
    destruct (f x); simpl; lia.
Qed.

Section FiniteGraph.

Variable w : world.
Variables Ufiles Upkgs : list str.
Variable T : str -> Prop.
Hypothesis graph : finite_graph w Ufiles Upkgs T.

Let U : list marker := universe Ufiles Upkgs.

Lemma walking_frame (k : nat) (s s' : state) :
  walking T U k s ->
  (forall kv, In kv (localStorage (mem s')) -> In kv (localStorage (mem s))) ->
  visited s' = visited s ->
  walking T U k s'.
Proof.
  intros [Ht Hk] Hsub Hv. split.
  - intros key value info Hin. apply (Ht key value info). now apply Hsub.
  - unfold unvisited in *. now rewrite Hv.
Qed.

Lemma removeItem_In (key : str) (ls : list (str * str)) (kv : str * str) :
  In kv (removeItem key ls) -> In kv ls.
Proof. unfold removeItem. intros H. now apply filter_In in H. Qed.

Lemma getItem_In (key : str) (ls : list (str * str)) (v : str) :
  getItem key ls = Some v -> In (key, v) ls.
Proof.
  induction ls as [|[k0 v0] ls IH]; simpl; [discriminate|].
  destruct (str_eqb key k0) eqn:E.
  - intros [= <-]. apply str_eqb_eq in E. subst. now left.
  - intros H. right. now apply IH.
Qed.

Ltac run_cases :=
  repeat (simpl;
          match goal with
          | |- context [match ?x with _ => _ end] =>
              lazymatch x with
              | run _ _ _ => fail
              | _ => destruct x eqn:?
              end
          end).

Lemma TypeCache_get_walking (k : nat) (url : str) (s : state) :
  walking T U k s ->
  wp w (TypeCache_get url) s
     (fun r s' => walking T U k s' /\ forall t, r = Some t -> T t) never.
Proof.
  intros Hw. unfold wp, TypeCache_get, validateETag, fetch, now, read, write.
  simpl.
  destruct (getItem (getCacheKey url) (localStorage (mem s))) as [cached|] eqn:Eg;
    run_cases;
    (split;
     [ eapply walking_frame;
       [ exact Hw
       | simpl; intros kv; try apply removeItem_In; auto
       | reflexivity ]
     | intros t0 Ht0; try discriminate ]).
  all: injection Ht0 as <-.
  all: apply getItem_In in Eg.
  all: destruct Hw as [Ht _]; eapply Ht; eauto.
Qed.

Lemma walking_write (k : nat) (s s' : state) :
  walking T U k s ->
  (forall key value,
     In (key, value) (localStorage (mem s')) ->
     In (key, value) (localStorage (mem s)) \/
     exists info, value = JSON_stringify info /\ T (content info)) ->
  visited s' = visited s ->
  walking T U k s'.
Proof.
  intros [Ht Hk] Hsub Hv. split.
  - intros key value info Hin Hp. destruct (Hsub key value Hin) as [H|(i & -> & Hi)].
    + now apply (Ht key value info).
    + rewrite (fg_codec _ _ _ _ graph) in Hp. now injection Hp as <-.
  - unfold unvisited in *. now rewrite Hv.
Qed.

Lemma setItem_In (key value : str) (ls : list (str * str)) (kv : str * str) :
  In kv (setItem key value ls) -> kv = (key, value) \/ In kv ls.
Proof.
  induction ls as [|[k0 v0] ls IH]; simpl.
  - intros [<-|[]]. now left.
  - destruct (str_eqb key k0); simpl.
    + intros [<-|H]; auto.
    + intros [<-|H]; auto. destruct (IH H); auto.
Qed.

Lemma scan_entries_In (fuel : nat) :
  forall i ls acc kv, In kv (fst (scan_entries fuel i ls acc)) -> In kv ls.
Proof.
  induction fuel as [|f IH]; intros i ls acc kv; simpl; [auto|].
  destruct (nth_error ls i) as [[key value]|]; [|auto].
  destruct (startsWith key CACHE_PREFIX); [|apply IH].
  destruct value as [|c value]; [apply IH|].
  destruct (JSON_parse (c :: value)); [apply IH|].
  intros H. apply IH in H. now apply removeItem_In in H.
Qed.

Lemma cleanup_storage_In (ls : list (str * str)) (kv : str * str) :
  In kv (cleanup_storage ls) -> In kv ls.
Proof.
  unfold cleanup_storage.
  generalize (evicted ls). intros es.
  assert (G : forall st, In kv (fold_left (fun st e => removeItem (fst e) st) es st) ->
                         In kv st).
  { induction es as [|e es IH]; simpl; [auto|].
    intros st H. apply IH in H. now apply removeItem_In in H. }
  intros H. apply G in H. now apply scan_entries_In in H.
Qed.

Lemma TypeCache_set_walking (k : nat) (url text : str) (tag version : option str)
      (s : state) :
  walking T U k s -> T text ->
  wp w (TypeCache_set url text tag version) s (fun _ s' => walking T U k s') never.
Proof.
  intros Hw Ht.
  unfold wp, TypeCache_set, ensureCacheSpace, cleanupOldEntries, storage_setItem,
    now, read, write.
  simpl. run_cases;
    (eapply walking_write; [exact Hw | | reflexivity]);
    simpl; intros key value Hin;
    repeat match goal with
           | H : In _ (setItem _ _ _) |- _ =>
               apply setItem_In in H; destruct H as [[= -> ->]|H]
           | H : In _ (cleanup_storage _) |- _ => apply cleanup_storage_In in H
           end; auto.
  all: right; eexists; split; [reflexivity | exact Ht].
Qed.

Lemma walking_mark (k : nat) (m : marker) (s : state) :
  walking T U k s -> In m U -> set_has m (visited s) = false ->
  exists k', k = S k' /\
             walking T U k' (with_visited s (set_add m (visited s))).
Proof.
  intros [Ht Hk] Hin Hm.
  assert (Hlt : unvisited U (with_visited s (set_add m (visited s))) < unvisited U s).
  { unfold unvisited. simpl. apply (filter_length_lt _ _ _ m); auto.
    - intros x Hx. apply negb_true_iff in Hx. apply negb_true_iff.
      destruct (set_has x (visited s)) eqn:E; [|reflexivity].
      now rewrite (set_add_has m x _ E) in Hx.
    - now rewrite Hm.
    - now rewrite set_add_has_self. }
  destruct k as [|k']; [lia|]. exists k'. split; [reflexivity|].
  split; [exact Ht | lia].
Qed.

Lemma walking_weaken (k k' : nat) (s : state) :
  walking T U k s -> k <= k' -> walking T U k' s.
Proof. intros [Ht Hk] Hle. split; [exact Ht | lia]. Qed.

Lemma register_walking (k : nat) (path text : str) (s : state) :
  walking T U k s ->
  wp w (register path text) s (fun _ s' => walking T U k s') never.
Proof.
  intros Hw. unfold wp, register, read, write. run_cases;
    (eapply walking_frame; [exact Hw | simpl; auto | reflexivity]).
Qed.

Ltac framed H :=
  eapply walking_frame; [exact H | simpl; auto | reflexivity].

Lemma walk_terminates (fuel : nat) :
  forall c k s,
    valid_call Ufiles Upkgs c -> k < fuel -> walking T U k s ->
    wp w (walk fuel c) s (fun _ s' => walking T U k s') never.
Proof.
  induction fuel as [|fuel IH]; intros c k s Hc Hk Hw; [lia|].
  destruct c as [url pkg|spec]; cbn [walk valid_call] in *.
  - set (u := normalizeTypeUrl url) in *.
    apply wp_guard; [auto|]. intros Hm.
    assert (HuU : In u U) by (apply in_or_app; now left).
    destruct (walking_mark k u s Hw HuU Hm) as (k' & -> & Hw1).
    apply wp_try_catch.
    apply wp_conseq with (Q := fun _ s' => walking T U k' s')
                         (E := fun _ s' => walking T U k' s').
    2: { intros a s' H. eapply walking_weaken; eauto. }
    2: { intros e s' H. apply wp_Ret. eapply walking_weaken; eauto. }
    apply wp_bind. apply wp_await.
    eapply wp_conseq; [apply TypeCache_get_walking; exact Hw1 | | intros e s' []].
    intros cached s2 [Hw2 Hc2]. cbn beta.
    apply wp_bind.
    apply wp_conseq with
      (Q := fun d s' => walking T U k' s' /\ forall t, d = Some t -> T t)
      (E := fun _ s' => walking T U k' s'); [| |auto].
    { destruct (truthy cached) eqn:Etr; [apply wp_Ret; split; assumption|].
      unfold fetch. cbn [bind]. apply wp_Fetch.
      destruct (net w (tick s2) (Request GET u)) as [|res] eqn:Enet; cbn [bind].
      - apply wp_Throw. framed Hw2.
      - destruct (negb (res_ok res));
          [apply wp_Ret; split; [framed Hw2 | discriminate]|].
        apply wp_bind. unfold text_of.
        destruct (res_body res) as [t|] eqn:Eb; [|apply wp_Throw; framed Hw2].
        apply wp_Yield, wp_Ret.
        assert (Ht : T t) by (eapply (fg_body _ _ _ _ graph); eauto).
        apply wp_bind. apply wp_await.
        eapply wp_conseq;
          [apply TypeCache_set_walking; [framed Hw2 | exact Ht] | | intros e s' []].
        intros ? s' Hs'. apply wp_Ret. split; [exact Hs'|].
        now intros t0 [= <-]. }
    intros d s3 [Hw3 Hd]. destruct d as [text|]; [|apply wp_Ret; exact Hw3].
    assert (Ht : T text) by now apply Hd.
    apply wp_bind. unfold write. apply wp_Write, wp_Ret.
    apply wp_bind.
    eapply wp_conseq; [apply register_walking; framed Hw3 | | intros e s' []].
    intros ? s4 Hw4. apply wp_bind.
    apply wp_conseq with (Q := fun _ s' => walking T U k' s')
                         (E := fun _ s' => walking T U k' s'); [| |auto].
    { destruct pkg as [[|c p]|]; try (apply wp_Ret; exact Hw4).
      destruct (negb _); [|apply wp_Ret; exact Hw4].
      eapply wp_conseq; [apply register_walking; exact Hw4 | auto | intros e s' []]. }
    intros ? s5 Hw5. apply wp_bind.
    eapply wp_conseq;
      [apply (wp_for_of w _ _ (walking T U k') (fun _ s' => walking T U k' s'));
       [|exact Hw5] | | auto].
    { intros ref s6 Hin Hs6.
      destruct (resolveUrl ref u) as [c|] eqn:Er; [|apply wp_Throw; exact Hs6].
      apply wp_await.
      eapply wp_conseq; [apply (IH _ k'); [|lia|exact Hs6] | auto | intros e s' []].
      cbn [valid_call]. rewrite normalizeTypeUrl_twice.
      eapply (fg_reference _ _ _ _ graph); eauto. }
    intros ? s6 Hw6.
    apply (wp_for_of w _ _ (walking T U k') (fun _ s' => walking T U k' s'));
      [|exact Hw6].
    intros imp s7 Hin Hs7.
    destruct (startsWith imp $".") eqn:Edot.
    { destruct (resolveUrl imp u) as [c|] eqn:Er; [|apply wp_Throw; exact Hs7].
      apply wp_await.
      eapply wp_conseq; [apply (IH _ k'); [|lia|exact Hs7] | auto | intros e s' []].
      cbn [valid_call]. rewrite normalizeTypeUrl_twice.
      eapply (fg_relative _ _ _ _ graph); eauto. }
    destruct (negb (includes imp $"/")) eqn:Esl; [|apply wp_Ret; exact Hs7].
    apply negb_true_iff in Esl.
    apply wp_try_catch. apply wp_await.
    eapply wp_conseq; [apply (IH _ k'); [|lia|exact Hs7] | auto | intros e s' []].
    cbn [valid_call]. eapply (fg_bare _ _ _ _ graph); eauto.
  - apply wp_guard; [auto|]. intros Hm.
    assert (HmU : In ($"package:" ++ spec) U).
    { apply in_or_app. right. apply (in_map package_marker). exact Hc. }
    destruct (walking_mark k _ s Hw HmU Hm) as (k' & -> & Hw1).
    apply wp_try_catch.
    apply wp_conseq with (Q := fun _ s' => walking T U k' s')
                         (E := fun _ s' => walking T U k' s').
    2: { intros a s' H. eapply walking_weaken; eauto. }
    2: { intros e s' H. apply wp_Ret. eapply walking_weaken; eauto. }
    unfold fetch. cbn [bind]. apply wp_Fetch.
    match goal with
    | |- context [net w ?n ?r] => destruct (net w n r) as [|resp] eqn:Enet
    end; cbn [bind]; [apply wp_Throw; framed Hw1|].
    destruct (negb (res_ok resp)); [apply wp_Ret; framed Hw1|].
    apply wp_bind.
    apply wp_conseq with
      (Q := fun typesUrl s' => walking T U k' s' /\
                              In (normalizeTypeUrl typesUrl) Ufiles)
      (E := fun _ s' => walking T U k' s'); [| |auto].
    { destruct (res_types resp) as [[|c typesHeader]|] eqn:Ety.
      - apply wp_Ret. split; [framed Hw1|].
        eapply (fg_fallback _ _ _ _ graph); eauto. now rewrite Ety.
      - destruct (resolveUrl (c :: typesHeader) _) as [u0|] eqn:Er;
          [|apply wp_Throw; framed Hw1].
        apply wp_Ret. split; [framed Hw1|].
        eapply (fg_entry _ _ _ _ graph); eauto.
      - apply wp_Ret. split; [framed Hw1|].
        eapply (fg_fallback _ _ _ _ graph); eauto. now rewrite Ety. }
    intros typesUrl s2 [Hw2 Hin]. apply wp_await.
    eapply wp_conseq; [apply (IH _ k'); [exact Hin|lia|exact Hw2] | auto | intros e s' []].
Qed.

Lemma unvisited_le (s : state) : unvisited U s <= length U.
Proof. unfold unvisited. apply filter_length_le. Qed.

(** In a finite graph, a recursion budget above the size of the universe is
    enough for [fetchAndAddTypes] to return. *)
Lemma fetchAndAddTypes_returns (fuel : nat) (specifier : str) (s : state) :
  storage_texts T (mem s) -> In specifier Upkgs -> length U < fuel ->
  fst (run w (fetchAndAddTypes fuel specifier) s) = Returned tt /\
  storage_texts T (mem (snd (run w (fetchAndAddTypes fuel specifier) s))).
Proof.
  intros Hs Hin Hfuel.
  assert (Hw : walking T U (length U) s) by (split; [exact Hs | apply unvisited_le]).
  pose proof (walk_terminates fuel (FetchEntry specifier) (length U) s Hin Hfuel Hw) as H.
  unfold fetchAndAddTypes, fetchEntry. rewrite run_await. unfold wp in H.
  destruct (run w (walk fuel (FetchEntry specifier)) s) as [[[]|e|] s'];
    [|contradiction|contradiction].
  split; [reflexivity | exact (proj1 H)].
Qed.

End FiniteGraph.

(** C9: [fetchAndAddTypes] resolves and never rejects.  No branch of its
    program ends in an exception: whatever the network and the storage
    answer, a run to completion does not throw, and neither does the task at
    any of its suspension points under any interleaving with other calls.
    When the dependency graph the network serves is finite, a recursion
    budget above its size is enough for the call to return. *)
Theorem fetchAndAddTypes_never_rejects (w : world) (specifier : str) :
  (forall fuel, no_throw (fetchAndAddTypes fuel specifier)) /\
  (forall fuel s e, fst (run w (fetchAndAddTypes fuel specifier) s) <> Thrown e) /\
  (forall fuel s, task_no_throw (fst (start w (fetchAndAddTypes fuel specifier) s))) /\
  (forall Ufiles Upkgs T s fuel,
     finite_graph w Ufiles Upkgs T ->
     storage_texts T (mem s) ->
     In specifier Upkgs ->
     length (universe Ufiles Upkgs) < fuel ->
     fst (run w (fetchAndAddTypes fuel specifier) s) = Returned tt).
Proof.
  split; [intros fuel; apply fetchAndAddTypes_no_throw|].
  split; [intros fuel s e; apply no_throw_run, fetchAndAddTypes_no_throw|].
  split.
  - intros fuel s.
    pose proof (no_throw_start w _ (fetchAndAddTypes_no_throw fuel specifier) s) as Hs.
    unfold task_no_throw.
    destruct (fst (start w (fetchAndAddTypes fuel specifier) s)); exact Hs.
  - intros Ufiles Upkgs T s fuel Hg Hs Hin Hfuel.
    exact (proj1 (fetchAndAddTypes_returns w Ufiles Upkgs T Hg fuel specifier s
                    Hs Hin Hfuel)).
Qed.

(** *** A load in flight *)

Lemma in_flight_start (w : world) (name : str) (p : prog bool) :
  in_flight name p ->
  forall s,
    set_has name (loadingQueue (mem s)) = true ->
    set_has name (loadedModules (mem s)) = false ->
    load_status name (start w p s) /\ task_in_flight name (fst (start w p s)).
Proof.
  induction 1 as [|m k Hk IH|m k Hk IH|k Hk IH|f k Hf Hk IH|k Hk IH|k Hk IH
                 |m r k Hk IH|k Hk IH|]; intros s Hq Hl; cbn [start].
  - split; exact I.
  - now apply IH.
  - now apply IH.
  - now apply IH.
  - destruct (Hf (mem s)) as [H1 H2].
    apply IH; cbn [mem with_mem]; congruence.
  - now apply IH.
  - now apply IH.
  - split; [|exact Hk]. unfold load_status. cbn [fst snd mem]. now split.
  - split; [|exact Hk]. unfold load_status. cbn [fst snd]. now split.
  - split; [|exact I]. unfold load_status. cbn [fst snd mem with_mem].
    cbn [upd_loading upd_loaded loadedModules loadingQueue].
    split; [reflexivity|]. split; [apply set_add_has_self | apply set_delete_has].
Qed.

Lemma in_flight_resume (w : world) (name : str) (cfg : task bool * state) :
  load_status name cfg -> task_in_flight name (fst cfg) ->
  load_status name (resume w (fst cfg) (snd cfg)) /\
  task_in_flight name (fst (resume w (fst cfg) (snd cfg))).
Proof.
  destruct cfg as [[r|q k|k] s]; cbn [fst snd resume]; intros Hs Ht.
  - split; [exact Hs | exact I].
  - destruct Hs as [Hq Hl]. now apply in_flight_start.
  - destruct Hs as [Hq Hl]. now apply in_flight_start.
Qed.

Lemma in_flight_resumes (w : world) (name : str) (n : nat) :
  forall cfg,
    load_status name cfg -> task_in_flight name (fst cfg) ->
    load_status name (resumes w n cfg).
Proof.
  induction n as [|n IH]; intros cfg Hs Ht; cbn [resumes]; [exact Hs|].
  destruct (in_flight_resume w name cfg Hs Ht) as [Hs' Ht'].
  now apply IH.
Qed.

(** The body of [loadLibrary] after the guards, around any call that does
    not throw and leaves the sets of the manager alone *)
Lemma load_body_in_flight (name : str) (p : prog unit) :
  no_throw p -> writes_only keeps_manager p ->
  in_flight name
    (try_finally
       (try_catch
          (await p ;; write (upd_loaded (set_add name)) ;; Ret true)
          (fun _ => Ret false))
       (write (upd_loading (set_delete name)))).
Proof.
  unfold await, write.
  induction 1 as [a| |m k Hk IH|m k Hk IH|k Hk IH|f k Hk IH|k Hk IH|k Hk IH
                 |m r k Hk IH|k Hk IH]; intros Hwo;
    inversion Hwo; subst; cbn [bind try_catch try_finally];
    first [apply fl_Yield, fl_done | constructor; auto].
Qed.

Lemma loadLibrary_status (w : world) (fuel : nat) (config : IntelliSenseConfig)
      (name : str) (s : state) :
  set_has name (supportedLibraries config) = true ->
  set_has name (loadedModules (mem s)) = false ->
  set_has name (loadingQueue (mem s)) = false ->
  (forall n, load_status name (resumes w n (start w (loadLibrary fuel config name) s))) /\
  (fuel <> 0 ->
   forall r, fst (start w (loadLibrary fuel config name) s) <> Finished r).
Proof.
  intros Hsup Hl Hq.
  set (s1 := with_mem s (upd_loading (set_add name) (mem s))).
  assert (Hstart : start w (loadLibrary fuel config name) s =
            start w (try_finally
                       (try_catch
                          (await (fetchAndAddTypes fuel name) ;;
                           write (upd_loaded (set_add name)) ;; Ret true)
                          (fun _ => Ret false))
                       (write (upd_loading (set_delete name)))) s1).
  { unfold loadLibrary, read, write. cbn [bind start].
    rewrite Hl, Hq, Hsup. reflexivity. }
  rewrite Hstart. split.
  - intros n.
    destruct (in_flight_start w name _
                (load_body_in_flight name _ (fetchAndAddTypes_no_throw fuel name)
                   (fetchAndAddTypes_keeps_manager fuel name)) s1) as [H1 H2].
    + cbn [s1 mem with_mem upd_loading loadingQueue]. apply set_add_has_self.
    + exact Hl.
    + now apply in_flight_resumes.
  - intros Hfuel r. destruct fuel as [|f]; [contradiction|].
    unfold fetchAndAddTypes, fetchEntry, await, write.
    cbn [walk]. unfold isVisited, markVisited, fetch.
    cbn [bind try_catch try_finally start].
    destruct (set_has ($"package:" ++ name) (visited s1));
      cbn [bind try_catch try_finally start]; discriminate.
Qed.


(** C2: for an allow-listed library that is neither loaded nor loading,
    [loadLibrary] marks it loading before [fetchAndAddTypes] starts, it is
    still loading when the fetch completes, and when the fetch completes,
    whatever the network answered, the library is marked loaded and no
    longer loading and the call returns [true]; a later [loadLibrary]
    returns at once without any effect and [analyzeAndLoadTypes] does not
    select the library again.  In a finite dependency graph a recursion
    budget above its size is enough for the call to return.

    Seen from the event loop: the call itself is suspended when it hands
    control back for the first time, and at that point and at every later
    suspension its library is in the loading queue and not yet loaded; it
    can only finish by returning [true] with the library loaded and out of
    the queue.  After the explicit reset, [clearCache], the library is
    unloaded again: [analyzeAndLoadTypes] selects it when it is imported,
    and [loadLibrary] goes through the same transitions once more. *)
Theorem loadLibrary_marks_loaded (w : world) (fuel : nat)
      (config : IntelliSenseConfig) (name : str) (s : state) :
  set_has name (supportedLibraries config) = true ->
  set_has name (loadedModules (mem s)) = false ->
  set_has name (loadingQueue (mem s)) = false ->
  let s1 := with_mem s (upd_loading (set_add name) (mem s)) in
  let mid := run w (fetchAndAddTypes fuel name) s1 in
  let out := run w (loadLibrary fuel config name) s in
  set_has name (loadingQueue (mem s1)) = true /\
  set_has name (loadingQueue (mem (snd mid))) = true /\
  (fst mid = Returned tt \/ fst mid = Diverged) /\
  (fst mid = Diverged -> fst out = Diverged) /\
  (fst mid = Returned tt ->
     out = (Returned true,
            with_mem (snd mid)
              (upd_loading (set_delete name)
                 (upd_loaded (set_add name) (mem (snd mid))))) /\
     set_has name (loadedModules (mem (snd out))) = true /\
     set_has name (loadingQueue (mem (snd out))) = false /\
     (forall w' fuel',
        run w' (loadLibrary fuel' config name) (snd out) = (Returned true, snd out)) /\
     (forall code, ~ In name (newLibraries config (mem (snd out)) code))) /\
  (forall Ufiles Upkgs T,
     finite_graph w Ufiles Upkgs T -> storage_texts T (mem s) ->
     In name Upkgs -> length (universe Ufiles Upkgs) < fuel ->
     fst out = Returned true) /\
  (forall n,
     load_status name (resumes w n (start w (loadLibrary fuel config name) s))) /\
  (fuel <> 0 ->
   forall r, fst (start w (loadLibrary fuel config name) s) <> Finished r) /\
  (fst mid = Returned tt ->
   forall w' fuel',
     let reset := snd (run w' clearCache (snd out)) in
     set_has name (loadedModules (mem reset)) = false /\
     (forall code, In name (extractImports code) ->
                   In name (newLibraries config (mem reset) code)) /\
     (forall n,
        load_status name
          (resumes w' n (start w' (loadLibrary fuel' config name) reset))) /\
     (fuel' <> 0 ->
      forall r, fst (start w' (loadLibrary fuel' config name) reset) <> Finished r)).
Proof.
  intros Hsup Hloaded Hloading s1 mid out.
  assert (Hs1 : set_has name (loadingQueue (mem s1)) = true)
    by (simpl; apply set_add_has_self).
  destruct (wo_run w _ (fetchAndAddTypes_keeps_manager fuel name) s1) as [Hq Hl].
  fold mid in Hq, Hl.
  assert (Hout : out =
            match mid with
            | (Returned _, s2) =>
                (Returned true,
                 with_mem s2 (upd_loading (set_delete name)
                                (upd_loaded (set_add name) (mem s2))))
            | (Thrown _, s2) =>
                (Returned false, with_mem s2 (upd_loading (set_delete name) (mem s2)))
            | (Diverged, s2) => (Diverged, s2)
            end).
  { subst out. unfold loadLibrary, read, write. cbn [bind run].
    rewrite Hloaded, Hloading, Hsup. cbn [orb negb bind run].
    rewrite run_try_finally, run_try_catch, run_bind, run_await.
    fold s1. fold mid. destruct mid as [[u|e|] s2]; reflexivity. }
  pose proof (fetchAndAddTypes_outcome w fuel name s1) as Hmid. fold mid in Hmid.
  assert (Hfin : forall Ufiles Upkgs T,
             finite_graph w Ufiles Upkgs T -> storage_texts T (mem s) ->
             In name Upkgs -> length (universe Ufiles Upkgs) < fuel ->
             fst mid = Returned tt).
  { intros Ufiles Upkgs T Hg Hst Hin Hfuel.
    exact (proj1 (fetchAndAddTypes_returns w Ufiles Upkgs T Hg fuel name s1
                    Hst Hin Hfuel)). }
  assert (Hnew :
    (forall n,
       load_status name (resumes w n (start w (loadLibrary fuel config name) s))) /\
    (fuel <> 0 ->
     forall r, fst (start w (loadLibrary fuel config name) s) <> Finished r) /\
    (fst mid = Returned tt ->
     forall w' fuel',
       let reset := snd (run w' clearCache (snd out)) in
       set_has name (loadedModules (mem reset)) = false /\
       (forall code, In name (extractImports code) ->
                     In name (newLibraries config (mem reset) code)) /\
       (forall n,
          load_status name
            (resumes w' n (start w' (loadLibrary fuel' config name) reset))) /\
       (fuel' <> 0 ->
        forall r,
          fst (start w' (loadLibrary fuel' config name) reset) <> Finished r))).
  { destruct (loadLibrary_status w fuel config name s Hsup Hloaded Hloading)
      as [A B].
    split; [exact A|]. split; [exact B|].
    intros Hret w' fuel' reset.
    assert (Hl' : set_has name (loadedModules (mem reset)) = false) by reflexivity.
    assert (Hq' : set_has name (loadingQueue (mem reset)) = false).
    { change (loadingQueue (mem reset)) with (loadingQueue (mem (snd out))).
      rewrite Hout. clearbody mid. destruct mid as [[u|e|] s2];
        cbn [fst] in Hret; try discriminate Hret.
      cbn [snd mem with_mem upd_loading loadingQueue]. apply set_delete_has. }
    destruct (loadLibrary_status w' fuel' config name reset Hsup Hl' Hq')
      as [A' B'].
    split; [exact Hl'|]. split; [|split; [exact A' | exact B']].
    intros code Hin. unfold newLibraries. apply filter_In.
    split; [exact Hin|]. now rewrite Hsup, Hl', Hq'. }
  clearbody out mid. subst out.
  split; [exact Hs1|]. split; [now rewrite Hq|].
  split; [exact Hmid|].
  destruct mid as [[u|e|] s2]; cbn [fst snd] in *.
  - split; [discriminate|]. split; [|split; [reflexivity | exact Hnew]]. intros _.
    assert (Hdone : set_has name (set_add name (loadedModules (mem s2))) = true)
      by apply set_add_has_self.
    split; [reflexivity|]. split; [exact Hdone|].
    split; [apply set_delete_has|]. split.
    + intros w' fuel'. apply loadLibrary_done. exact Hdone.
    + intros code. apply newLibraries_skips_loaded. exact Hdone.
  - destruct Hmid; discriminate.
  - split; [reflexivity|]. split; [discriminate|]. split; [|exact Hnew].
    intros Ufiles Upkgs T Hg Hst Hin Hfuel.
    now specialize (Hfin Ufiles Upkgs T Hg Hst Hin Hfuel).
Qed.

(** *** More on [localStorage] and [TypeCache] *)

Lemma str_eqb_refl (a : str) : str_eqb a a = true.
Proof. now apply str_eqb_eq. Qed.

Lemma str_eqb_neq (a b : str) : a <> b -> str_eqb a b = false.
Proof.
  intros H. destruct (str_eqb a b) eqn:E; [|reflexivity].
  apply str_eqb_eq in E. contradiction.
Qed.

Lemma getItem_setItem_same (key value : str) (ls : list (str * str)) :
  getItem key (setItem key value ls) = Some value.
Proof.
  induction ls as [|[k v] ls IH]; simpl.
  - now rewrite str_eqb_refl.
  - destruct (str_eqb key k) eqn:E; simpl; [now rewrite str_eqb_refl|].
    now rewrite E.
Qed.

Lemma getItem_setItem_other (key key' value : str) (ls : list (str * str)) :
  key' <> key -> getItem key' (setItem key value ls) = getItem key' ls.
Proof.
  intros Hne. induction ls as [|[k v] ls IH]; simpl.
  - now rewrite (str_eqb_neq _ _ Hne).
  - destruct (str_eqb key k) eqn:E; simpl.
    + apply str_eqb_eq in E. subst k. now rewrite (str_eqb_neq _ _ Hne).
    + now rewrite IH.
Qed.

Lemma getItem_removeItem_same (key : str) (ls : list (str * str)) :
  getItem key (removeItem key ls) = None.
Proof.
  unfold removeItem. induction ls as [|[k v] ls IH]; simpl; [reflexivity|].
  destruct (str_eqb key k) eqn:E; simpl; [exact IH | now rewrite E].
Qed.

Lemma getItem_removeItem_other (key key' : str) (ls : list (str * str)) :
  key' <> key -> getItem key' (removeItem key ls) = getItem key' ls.
Proof.
  intros Hne. unfold removeItem.
  induction ls as [|[k v] ls IH]; simpl; [reflexivity|].
  destruct (str_eqb key k) eqn:E; simpl.
  - apply str_eqb_eq in E. subst k. now rewrite (str_eqb_neq _ _ Hne).
  - now rewrite IH.
Qed.

Lemma getCacheKey_namespaced (url : str) :
  startsWith (getCacheKey url) CACHE_PREFIX = true.
Proof. unfold getCacheKey. apply startsWith_app. Qed.

Lemma run_set_state (w : world) (s : state) (url content : str)
      (tag version : option str) :
  run w (TypeCache_set url content tag version) s =
  (Returned tt, after_set w s url content tag version).
Proof.
  unfold TypeCache_set, ensureCacheSpace, cleanupOldEntries, storage_setItem,
    now, read, write, after_set, written.
  simpl.
  destruct (MAX_CACHE_SIZE <? getCurrentCacheSize (localStorage (mem s)))%N;
    simpl; destruct (quota_exceeded w (S (tick s))); simpl;
    destruct s as [v [ls hc mc fs el lq lm] lg tk]; reflexivity.
Qed.

(** A fresh, acceptable record is a hit. *)
Lemma run_get_hit (w : world) (s : state) (url : str) (c0 : ascii) (cached : str)
      (info : CachedTypeInfo) :
  getItem (getCacheKey url) (localStorage (mem s)) = Some (c0 :: cached) ->
  JSON_parse (c0 :: cached) = Some info ->
  (clock w (tick s) - timestamp info <= CACHE_EXPIRY)%Z ->
  revalidates w (S (tick s)) url (etag info) ->
  fst (run w (TypeCache_get url) s) = Returned (Some (content info)) /\
  mem (snd (run w (TypeCache_get url) s)) = count_hit (mem s).
Proof.
  intros Hget Hparse Hfresh Hval.
  assert (Hexp : (CACHE_EXPIRY <? clock w (tick s) - timestamp info)%Z = false)
    by (apply Z.ltb_ge; exact Hfresh).
  unfold TypeCache_get, validateETag, fetch, now, read, write. simpl.
  rewrite Hget, Hparse. simpl. rewrite Hexp.
  unfold revalidates in Hval.
  destruct (etag info) as [[|c t]|]; simpl; try (split; reflexivity).
  destruct (net w (S (tick s)) (Request HEAD url)) as [|resp]; simpl;
    [split; reflexivity|].
  rewrite Hval. unfold option_eqb. rewrite str_eqb_refl. simpl. split; reflexivity.
Qed.

(** X1: what [set] stores, a later [get] of the same URL returns, as long
    as the write was not refused for quota, the record has not expired and
    its tag, if any, is accepted by the probe (or the probe fails). *)
Theorem cache_round_trip (w : world) (s : state) (url content : str)
      (tag version : option str) :
  (forall info, JSON_parse (JSON_stringify info) = Some info) ->
  (forall info, JSON_stringify info <> []) ->
  quota_exceeded w (S (tick s)) = false ->
  let s1 := snd (run w (TypeCache_set url content tag version) s) in
  (clock w (tick s1) - clock w (tick s) <= CACHE_EXPIRY)%Z ->
  revalidates w (S (tick s1)) url tag ->
  fst (run w (TypeCache_get url) s1) = Returned (Some content) /\
  hitCount (mem (snd (run w (TypeCache_get url) s1))) = (hitCount (mem s) + 1)%N.
Proof.
  intros Hcodec Hne Hq s1 Hfresh Hval.
  subst s1. rewrite run_set_state in *. cbn [snd] in *.
  set (info := CachedType content (clock w (tick s)) version tag).
  assert (Hget : getItem (getCacheKey url)
                   (localStorage (mem (after_set w s url content tag version)))
                 = Some (JSON_stringify info)).
  { unfold after_set, written. simpl. rewrite Hq. apply getItem_setItem_same. }
  destruct (JSON_stringify info) as [|c0 cached] eqn:Es;
    [now destruct (Hne info)|].
  assert (Hparse : JSON_parse (c0 :: cached) = Some info)
    by (rewrite <- Es; apply Hcodec).
  destruct (run_get_hit w _ url c0 cached info Hget Hparse Hfresh Hval) as [H1 H2].
  split; [exact H1|]. rewrite H2. reflexivity.
Qed.

Ltac branch_cases :=
  repeat (simpl;
          match goal with
          | |- context [match ?x with _ => _ end] =>
              lazymatch x with
              | run _ _ _ => fail
              | _ => destruct x eqn:?
              end
          end).

(** X2: a record older than the expiry window is reported as a miss and
    removed from storage, without any request; the next [get] finds no
    record. *)
Theorem get_expired (w : world) (s : state) (url : str) (c0 : ascii) (cached : str)
      (info : CachedTypeInfo) :
  getItem (getCacheKey url) (localStorage (mem s)) = Some (c0 :: cached) ->
  JSON_parse (c0 :: cached) = Some info ->
  (CACHE_EXPIRY < clock w (tick s) - timestamp info)%Z ->
  let out := run w (TypeCache_get url) s in
  fst out = Returned None /\
  localStorage (mem (snd out)) = removeItem (getCacheKey url) (localStorage (mem s)) /\
  getItem (getCacheKey url) (localStorage (mem (snd out))) = None /\
  missCount (mem (snd out)) = (missCount (mem s) + 1)%N /\
  log (snd out) = log s.
Proof.
  intros Hget Hparse Hold out. apply Z.ltb_lt in Hold.
  subst out. unfold TypeCache_get, now, read, write. simpl.
  rewrite Hget, Hparse. simpl. rewrite Hold. simpl.
  repeat split. apply getItem_removeItem_same.
Qed.

Lemma run_get_absent (w : world) (s : state) (url : str) :
  getItem (getCacheKey url) (localStorage (mem s)) = None \/
  getItem (getCacheKey url) (localStorage (mem s)) = Some [] ->
  run w (TypeCache_get url) s = (Returned None, with_mem s (count_miss (mem s))).
Proof.
  intros [H|H]; unfold TypeCache_get, read, write; simpl; rewrite H; reflexivity.
Qed.

(** X3: [get] for a URL with no record, or with an empty one, is a miss
    that changes nothing but the miss counter: no request, no clock read,
    no write to storage. *)
Theorem get_absent (w : world) (s : state) (url : str) :
  getItem (getCacheKey url) (localStorage (mem s)) = None \/
  getItem (getCacheKey url) (localStorage (mem s)) = Some [] ->
  run w (TypeCache_get url) s = (Returned None, with_mem s (count_miss (mem s))) /\
  log (snd (run w (TypeCache_get url) s)) = log s /\
  tick (snd (run w (TypeCache_get url) s)) = tick s.
Proof.
  intros H. rewrite (run_get_absent w s url H). repeat split.
Qed.

(** X4: a [get] that finds no value, an empty one, one that [JSON.parse]
    rejects, or a record as [set] writes it, returns, whatever the network
    answers, and counts exactly one hit or one miss: a hit when it returns
    the content of the record, with the storage left as it is, and a miss
    when it returns nothing. *)
Theorem get_counts_once (w : world) (s : state) (url : str) :
  (forall info, JSON_parse (JSON_stringify info) = Some info) ->
  match getItem (getCacheKey url) (localStorage (mem s)) with
  | Some cached => cache_written cached
  | None => True
  end ->
  let out := run w (TypeCache_get url) s in
  let h := mem s in
  let h' := mem (snd out) in
  (exists text, fst out = Returned (Some text) /\
                hitCount h' = (hitCount h + 1)%N /\ missCount h' = missCount h /\
                localStorage h' = localStorage h /\
                (forall info,
                   getItem (getCacheKey url) (localStorage h)
                     = Some (JSON_stringify info) ->
                   text = content info)) \/
  (fst out = Returned None /\
   hitCount h' = hitCount h /\ missCount h' = (missCount h + 1)%N).
Proof.
  intros Hcodec Hshape.
  unfold TypeCache_get, validateETag, fetch, now, read, write. simpl.
  destruct (getItem (getCacheKey url) (localStorage (mem s))) as [cached|] eqn:Eg;
    branch_cases;
    first [ right; repeat split; reflexivity
          | left; eexists;
            split; [reflexivity|]; split; [reflexivity|];
            split; [reflexivity|]; split; [reflexivity|];
            intros info Hi; injection Hi as Hi;
            match goal with
            | Hp : JSON_parse _ = Some _ |- _ =>
                rewrite Hi, Hcodec in Hp; injection Hp as <-; reflexivity
            end ].
Qed.

(** X5: [set] always returns normally.  When the storage refuses the write
    for quota, no record is written: a cache within budget is left exactly
    as it was. *)
Theorem set_swallows_quota (w : world) (s : state) (url content : str)
      (tag version : option str) :
  let out := run w (TypeCache_set url content tag version) s in
  fst out = Returned tt /\
  (quota_exceeded w (S (tick s)) = true ->
   (getCurrentCacheSize (localStorage (mem s)) <= MAX_CACHE_SIZE)%N ->
   localStorage (mem (snd out)) = localStorage (mem s)) /\
  (quota_exceeded w (S (tick s)) = false ->
   getItem (getCacheKey url) (localStorage (mem (snd out))) =
     Some (JSON_stringify (CachedType content (clock w (tick s)) version tag))).
Proof.
  intros out. subst out. rewrite run_set_state. cbn [fst snd].
  split; [reflexivity|]. unfold after_set, written. simpl. split.
  - intros Hq Hsize. apply N.ltb_ge in Hsize. now rewrite Hq, Hsize.
  - intros Hq. rewrite Hq. apply getItem_setItem_same.
Qed.

Lemma set_then_get_hit (w : world) (s : state) (u1 u2 content : str)
      (tag version : option str) :
  (forall info, JSON_parse (JSON_stringify info) = Some info) ->
  (forall info, JSON_stringify info <> []) ->
  getCacheKey u1 = getCacheKey u2 ->
  quota_exceeded w (S (tick s)) = false ->
  let s1 := snd (run w (TypeCache_set u1 content tag version) s) in
  (clock w (tick s1) - clock w (tick s) <= CACHE_EXPIRY)%Z ->
  revalidates w (S (tick s1)) u2 tag ->
  fst (run w (TypeCache_get u2) s1) = Returned (Some content).
Proof.
  intros Hcodec Hne Hkey Hq s1 Hfresh Hval.
  subst s1. rewrite run_set_state in *. cbn [snd] in *.
  set (info := CachedType content (clock w (tick s)) version tag).
  assert (Hget : getItem (getCacheKey u2)
                   (localStorage (mem (after_set w s u1 content tag version)))
                 = Some (JSON_stringify info)).
  { unfold after_set, written. simpl. rewrite Hq, <- Hkey.
    apply getItem_setItem_same. }
  destruct (JSON_stringify info) as [|c0 cached] eqn:Es;
    [now destruct (Hne info)|].
  assert (Hparse : JSON_parse (c0 :: cached) = Some info)
    by (rewrite <- Es; apply Hcodec).
  exact (proj1 (run_get_hit w _ u2 c0 cached info Hget Hparse Hfresh Hval)).
Qed.

Lemma sanitize_eq (a b : ascii) :
  (if alnum a then a else "_"%char) = (if alnum b then b else "_"%char) <->
  same_key_char a b.
Proof.
  unfold same_key_char.
  assert (Hu : alnum "_"%char = false) by reflexivity.
  destruct (alnum a) eqn:Ea, (alnum b) eqn:Eb; split; intros H.
  - now left.
  - destruct H as [->|[H _]]; [reflexivity | discriminate].
  - subst a. congruence.
  - destruct H as [->|[H _]]; [congruence | discriminate].
  - subst b. congruence.
  - destruct H as [->|[_ H]]; [congruence | discriminate].
  - now right.
  - reflexivity.
Qed.

(** X6: two URLs have the same cache key exactly when they have the same
    length and agree on every letter and digit; a record stored for one is
    then served by [get] for the other. *)
Theorem cache_key_collisions (u1 u2 : str) :
  (getCacheKey u1 = getCacheKey u2 <-> Forall2 same_key_char u1 u2) /\
  (forall w s content tag version,
     (forall info, JSON_parse (JSON_stringify info) = Some info) ->
     (forall info, JSON_stringify info <> []) ->
     Forall2 same_key_char u1 u2 ->
     quota_exceeded w (S (tick s)) = false ->
     let s1 := snd (run w (TypeCache_set u1 content tag version) s) in
     (clock w (tick s1) - clock w (tick s) <= CACHE_EXPIRY)%Z ->
     revalidates w (S (tick s1)) u2 tag ->
     fst (run w (TypeCache_get u2) s1) = Returned (Some content)).
Proof.
  assert (Hiff : getCacheKey u1 = getCacheKey u2 <-> Forall2 same_key_char u1 u2).
  { unfold getCacheKey. split.
    - intros H. apply app_inv_head in H. revert u2 H.
      induction u1 as [|a u1 IH]; intros [|b u2] H; simpl in H;
        try discriminate; [constructor|].
      injection H as Hab Hrest. constructor; [now apply sanitize_eq | now apply IH].
    - intros H. f_equal. induction H as [|a b u1 u2 Hab _ IH]; simpl; [reflexivity|].
      now rewrite (proj2 (sanitize_eq a b) Hab), IH. }
  split; [exact Hiff|].
  intros w s content tag version Hcodec Hne Hsame Hq s1 Hfresh Hval.
  apply (set_then_get_hit w s u1 u2 content tag version Hcodec Hne); auto.
  now apply Hiff.
Qed.

Lemma stats_fold (ls : list (str * str)) :
  forall a : N * N,
    fold_left
      (fun (a : N * N) kv =>
         if namespaced kv then (fst a + 1, snd a + strlen (snd kv))%N else a)
      ls a =
    ((fst a + N.of_nat (length (filter namespaced ls)))%N,
     (snd a + getCurrentCacheSize ls)%N).
Proof.
  induction ls as [|kv ls IH]; intros [n z]; simpl.
  - unfold getCurrentCacheSize. simpl. f_equal; lia.
  - rewrite IH, cache_size_cons. destruct (namespaced kv); simpl; f_equal; lia.
Qed.

Lemma getStats_totals (h : heap) :
  totalTypes (getStats_counts h) = N.of_nat (length (filter namespaced (localStorage h))) /\
  totalSize (getStats_counts h) = getCurrentCacheSize (localStorage h).
Proof. unfold getStats_counts. rewrite stats_fold. simpl. split; reflexivity. Qed.

Lemma getItem_cleared (key : str) (ls : list (str * str)) :
  startsWith key CACHE_PREFIX = true ->
  getItem key (filter (fun kv => negb (namespaced kv)) ls) = None.
Proof.
  intros Hkey. induction ls as [|[k v] ls IH]; simpl; [reflexivity|].
  unfold namespaced at 1. simpl.
  destruct (startsWith k CACHE_PREFIX) eqn:Ek; simpl; [exact IH|].
  rewrite IH. rewrite str_eqb_neq; [reflexivity|]. intros ->. congruence.
Qed.

Lemma filter_filter_neg {X : Type} (f : X -> bool) (l : list X) :
  filter f (filter (fun x => negb (f x)) l) = [].
Proof.
  induction l as [|x l IH]; simpl; [reflexivity|].
  destruct (f x) eqn:E; simpl; [exact IH | now rewrite E].
Qed.

Lemma cleared_size (ls : list (str * str)) :
  getCurrentCacheSize (filter (fun kv => negb (namespaced kv)) ls) = 0%N.
Proof.
  induction ls as [|kv ls IH]; simpl; [reflexivity|].
  destruct (namespaced kv) eqn:E; simpl; [exact IH|].
  now rewrite cache_size_cons, E, IH.
Qed.

Lemma filter_twice {X : Type} (f : X -> bool) (l : list X) :
  filter f (filter f l) = filter f l.
Proof.
  induction l as [|x l IH]; simpl; [reflexivity|].
  destruct (f x) eqn:E; simpl; [now rewrite E, IH | exact IH].
Qed.

(** X9: after [clear] the statistics report no record and no byte, every
    [get] is a miss, and the hit and miss counters are as before; clearing
    again changes nothing. *)
Theorem clear_empties_namespace (w : world) (s : state) :
  let s' := snd (run w TypeCache_clear s) in
  totalTypes (getStats_counts (mem s')) = 0%N /\
  totalSize (getStats_counts (mem s')) = 0%N /\
  statHits (getStats_counts (mem s')) = hitCount (mem s) /\
  statMisses (getStats_counts (mem s')) = missCount (mem s) /\
  (forall url, fst (run w (TypeCache_get url) s') = Returned None) /\
  snd (run w TypeCache_clear s') = s'.
Proof.
  intros s'. subst s'. unfold TypeCache_clear, write.
  cbn [run snd mem with_mem].
  destruct (getStats_totals
              (upd_storage (filter (fun kv => negb (namespaced kv))) (mem s)))
    as [Ht Hs].
  rewrite Ht, Hs. cbn [localStorage upd_storage].
  split; [now rewrite filter_filter_neg|].
  split; [apply cleared_size|].
  split; [reflexivity|]. split; [reflexivity|]. split.
  - intros url. rewrite run_get_absent; [reflexivity|]. left. simpl.
    apply getItem_cleared, getCacheKey_namespaced.
  - unfold with_mem, upd_storage. simpl. now rewrite filter_twice.
Qed.

(** X10: after [remove(url)] a [get] of that URL is a miss, and the records
    under every other key are untouched. *)
Theorem remove_then_get (w : world) (s : state) (url : str) :
  let s' := snd (run w (TypeCache_remove url) s) in
  fst (run w (TypeCache_get url) s') = Returned None /\
  (forall key, key <> getCacheKey url ->
     getItem key (localStorage (mem s')) = getItem key (localStorage (mem s))).
Proof.
  intros s'. subst s'. unfold TypeCache_remove, write. cbn [run snd]. split.
  - rewrite run_get_absent; [reflexivity|]. left. simpl.
    apply getItem_removeItem_same.
  - intros key Hne. simpl. now apply getItem_removeItem_other.
Qed.

(** *** What the cache and the walker write *)

Lemma foreign_neq (key k : str) :
  startsWith key CACHE_PREFIX = false -> startsWith k CACHE_PREFIX = true -> key <> k.
Proof. intros H1 H2 ->. congruence. Qed.

Lemma storage_safe_removeItem (k : str) :
  startsWith k CACHE_PREFIX = true -> storage_safe (removeItem k).
Proof.
  intros Hk ls key Hkey. apply getItem_removeItem_other.
  now apply foreign_neq.
Qed.

Lemma storage_safe_setItem (k v : str) :
  startsWith k CACHE_PREFIX = true -> storage_safe (setItem k v).
Proof.
  intros Hk ls key Hkey. apply getItem_setItem_other. now apply foreign_neq.
Qed.

Lemma scan_entries_foreign (fuel : nat) :
  forall i ls acc key,
    startsWith key CACHE_PREFIX = false ->
    getItem key (fst (scan_entries fuel i ls acc)) = getItem key ls.
Proof.
  induction fuel as [|f IH]; intros i ls acc key Hkey; simpl; [reflexivity|].
  destruct (nth_error ls i) as [[k value]|]; [|reflexivity].
  destruct (startsWith k CACHE_PREFIX) eqn:Ek; [|now apply IH].
  destruct value as [|c value]; [now apply IH|].
  destruct (JSON_parse (c :: value)); [now apply IH|].
  rewrite IH by exact Hkey. now apply storage_safe_removeItem.
Qed.

Lemma scan_entries_namespaced (fuel : nat) :
  forall i ls acc,
    Forall (fun e : str * Z => startsWith (fst e) CACHE_PREFIX = true) acc ->
    Forall (fun e : str * Z => startsWith (fst e) CACHE_PREFIX = true)
           (snd (scan_entries fuel i ls acc)).
Proof.
  induction fuel as [|f IH]; intros i ls acc Hacc; simpl; [exact Hacc|].
  destruct (nth_error ls i) as [[k value]|]; [|exact Hacc].
  destruct (startsWith k CACHE_PREFIX) eqn:Ek; [|now apply IH].
  destruct value as [|c value]; [now apply IH|].
  destruct (JSON_parse (c :: value)); [|now apply IH].
  apply IH. apply Forall_app. split; [exact Hacc|]. now repeat constructor.
Qed.

Lemma evicted_namespaced (ls : list (str * str)) (e : str * Z) :
  In e (evicted ls) -> startsWith (fst e) CACHE_PREFIX = true.
Proof.
  unfold evicted. intros H. apply in_firstn in H.
  apply (Permutation_in _ (sort_entries_perm _)) in H.
  pose proof (scan_entries_namespaced (length ls) 0 ls [] (Forall_nil _)) as Hall.
  exact (proj1 (Forall_forall _ _) Hall e H).
Qed.

Lemma storage_safe_cleanup : storage_safe cleanup_storage.
Proof.
  intros ls key Hkey. unfold cleanup_storage.
  assert (G : forall (es : list (str * Z)) st,
             (forall e, In e es -> startsWith (fst e) CACHE_PREFIX = true) ->
             getItem key (fold_left (fun st e => removeItem (fst e) st) es st) =
             getItem key st).
  { induction es as [|e es IH]; intros st Hes; simpl; [reflexivity|].
    rewrite IH by (intros; apply Hes; now right).
    apply storage_safe_removeItem; [|exact Hkey]. apply Hes. now left. }
  rewrite G by apply evicted_namespaced.
  now apply scan_entries_foreign.
Qed.

Lemma storage_safe_clear : storage_safe (filter (fun kv => negb (namespaced kv))).
Proof.
  intros ls key Hkey. induction ls as [|[k v] ls IH]; simpl; [reflexivity|].
  unfold namespaced at 1. simpl.
  destruct (startsWith k CACHE_PREFIX) eqn:Ek; simpl.
  - rewrite IH. now rewrite (str_eqb_neq key k (foreign_neq _ _ Hkey Ek)).
  - now rewrite IH.
Qed.

Lemma wo_weaken {A : Type} (P P' : (heap -> heap) -> Prop) (p : prog A) :
  (forall f, P f -> P' f) -> writes_only P p -> writes_only P' p.
Proof. intros HP H. induction H; constructor; auto. Qed.

Ltac pw_step :=
  match goal with
  | |- pipeline_write _ =>
      first [ apply pw_files | apply pw_extraLibs | apply pw_hit | apply pw_miss
            | apply pw_storage;
              first [ apply storage_safe_removeItem, getCacheKey_namespaced
                    | apply storage_safe_setItem, getCacheKey_namespaced
                    | apply storage_safe_cleanup
                    | apply storage_safe_clear ] ]
  | |- writes_only _ (Write _ _) => constructor
  | |- writes_only _ (Ret _) => constructor
  | |- writes_only _ (Throw _) => constructor
  | |- writes_only _ OutOfFuel => constructor
  | |- writes_only _ (Yield _) => constructor
  | |- writes_only _ (IsVisited _ _) => constructor; intros
  | |- writes_only _ (MarkVisited _ _) => constructor
  | |- writes_only _ (Read _) => constructor; intros
  | |- writes_only _ (Now _) => constructor; intros
  | |- writes_only _ (Quota _) => constructor; intros
  | |- writes_only _ (Fetch _ _ _) => constructor; intros
  | |- writes_only _ ?p =>
      match p with
      | context [match ?x with _ => _ end] => destruct x
      end
  end.

Ltac pw_auto := repeat (cbn [bind try_catch await]; pw_step).

Lemma pw_register (path text : str) :
  writes_only pipeline_write (register path text).
Proof. unfold register, read, write. pw_auto. Qed.

Lemma pw_TypeCache_set (url content : str) (tag version : option str) :
  writes_only pipeline_write (TypeCache_set url content tag version).
Proof.
  unfold TypeCache_set, ensureCacheSpace, cleanupOldEntries, storage_setItem,
    now, read, write.
  pw_auto.
Qed.

Lemma pw_TypeCache_get (url : str) :
  writes_only pipeline_write (TypeCache_get url).
Proof.
  unfold TypeCache_get, validateETag, fetch, now, read, write. pw_auto.
Qed.

Lemma pw_TypeCache_remove (url : str) :
  writes_only pipeline_write (TypeCache_remove url).
Proof. unfold TypeCache_remove, write. pw_auto. Qed.

Lemma pw_TypeCache_clear : writes_only pipeline_write TypeCache_clear.
Proof. unfold TypeCache_clear, write. pw_auto. Qed.

Lemma walk_pipeline_writes (fuel : nat) :
  forall c, writes_only pipeline_write (walk fuel c).
Proof.
  induction fuel as [|fuel IH]; intros c; [constructor|].
  destruct c as [url packageName|specifier]; cbn [walk].
  - set (u := normalizeTypeUrl url).
    unfold isVisited, markVisited. cbn [bind].
    constructor. intros [|]; [constructor|]. constructor.
    apply wo_try_catch; [|intros; constructor].
    apply wo_bind; [apply wo_await, pw_TypeCache_get|]. intros cached.
    apply wo_bind.
    { destruct (truthy cached); [constructor|].
      unfold fetch. cbn [bind]. constructor. intros x.
      destruct x as [|res]; cbn [bind]; [constructor|].
      destruct (negb (res_ok res)); [constructor|].
      apply wo_bind; [unfold text_of; pw_auto|]. intros text.
      apply wo_bind; [apply wo_await, pw_TypeCache_set|].
      intros _. constructor. }
    intros [text|]; [|constructor].
    apply wo_bind; [unfold write; pw_auto|]. intros _.
    apply wo_bind; [apply pw_register|]. intros _.
    apply wo_bind.
    { destruct packageName as [[|c p]|]; try constructor.
      destruct (negb _); [apply pw_register | constructor]. }
    intros _. apply wo_bind.
    { apply wo_for_of. intros ref.
      destruct (resolveUrl ref u); [|constructor]. apply wo_await, IH. }
    intros _. apply wo_for_of. intros importRef.
    destruct (startsWith importRef _).
    { destruct (resolveUrl importRef u); [|constructor]. apply wo_await, IH. }
    destruct (negb _); [|constructor].
    apply wo_try_catch; [apply wo_await, IH | intros; constructor].
  - unfold isVisited, markVisited. cbn [bind].
    constructor. intros [|]; [constructor|]. constructor.
    apply wo_try_catch; [|intros; constructor].
    unfold fetch. cbn [bind]. constructor. intros x.
    destruct x as [|resp]; cbn [bind]; [constructor|].
    destruct (negb (res_ok resp)); [constructor|].
    apply wo_bind.
    { destruct (res_types resp) as [[|c typesHeader]|]; try constructor.
      destruct (resolveUrl _ _); constructor. }
    intros typesUrl. apply wo_await, IH.
Qed.

Lemma getItem_setItem_defined (path text p : str) (l : list (str * str)) :
  getItem p l <> None -> getItem p (setItem path text l) <> None.
Proof.
  intros H. destruct (str_eq_dec p path) as [->|Hne].
  - rewrite getItem_setItem_same. discriminate.
  - now rewrite getItem_setItem_other.
Qed.

Lemma heap_extends_refl (h : heap) : heap_extends h h.
Proof. unfold heap_extends. repeat split; auto; lia. Qed.

Lemma heap_extends_trans (h1 h2 h3 : heap) :
  heap_extends h1 h2 -> heap_extends h2 h3 -> heap_extends h1 h3.
Proof.
  intros (A1 & A2 & A3 & A4 & A5 & A6 & A7) (B1 & B2 & B3 & B4 & B5 & B6 & B7).
  unfold heap_extends. repeat split; auto; try lia; try congruence.
  intros key Hk. now rewrite B1, A1.
Qed.

Lemma pipeline_write_extends (f : heap -> heap) (h : heap) :
  pipeline_write f -> heap_extends h (f h).
Proof.
  intros [g Hg|path text|path text| |]; unfold heap_extends; simpl;
    repeat split; auto; try lia.
  - intros p. apply getItem_setItem_defined.
  - intros p. apply getItem_setItem_defined.
Qed.

Lemma wo_run_extends {A : Type} (w : world) (p : prog A) :
  writes_only pipeline_write p ->
  forall s, heap_extends (mem s) (mem (snd (run w p s))).
Proof.
  induction 1 as [a|e| |m k Hk IH|m k Hk IH|k Hk IH|f k Hf Hk IH|k Hk IH|k Hk IH
                 |m r k Hk IH|k Hk IH]; intros s; simpl;
    try apply heap_extends_refl;
    try (match goal with
         | |- context [run w _ ?s'] => first [exact (IH s') | exact (IH _ s')]
         end).
  eapply heap_extends_trans; [|apply (IH (with_mem s (f (mem s))))].
  simpl. now apply pipeline_write_extends.
Qed.

(** X7: no operation of the cache changes a [localStorage] key outside its
    namespace: [get], [set] (with its eviction), [remove] and [clear] leave
    every such key with the value it had. *)
Theorem cache_keeps_foreign_keys (w : world) (s : state) (key : str) :
  startsWith key CACHE_PREFIX = false ->
  let kept (p : prog unit) :=
    getItem key (localStorage (mem (snd (run w p s)))) =
    getItem key (localStorage (mem s)) in
  (forall url, kept (TypeCache_get url ;; Ret tt)) /\
  (forall url content tag version, kept (TypeCache_set url content tag version)) /\
  (forall url, kept (TypeCache_remove url)) /\
  kept TypeCache_clear.
Proof.
  intros Hkey kept. subst kept. cbv beta.
  assert (G : forall p : prog unit, writes_only pipeline_write p ->
              getItem key (localStorage (mem (snd (run w p s)))) =
              getItem key (localStorage (mem s))).
  { intros p Hp. exact (proj1 (wo_run_extends w p Hp s) key Hkey). }
  split; [|split; [|split]].
  - intros url. apply G. apply wo_bind; [apply pw_TypeCache_get | intros; constructor].
  - intros. apply G, pw_TypeCache_set.
  - intros. apply G, pw_TypeCache_remove.
  - apply G, pw_TypeCache_clear.
Qed.

(** X8: a walk only adds: whatever the network answers, [processFile] and
    [fetchEntry] never remove a file of the virtual file system or a
    registered library, never change a [localStorage] key outside the cache
    namespace or the sets of the manager, and never decrease the counters. *)
Theorem walk_only_adds (w : world) (fuel : nat) (c : call) (s : state) :
  heap_extends (mem s) (mem (snd (run w (walk fuel c) s))).
Proof. apply wo_run_extends, walk_pipeline_writes. Qed.

(** *** [chunkArray] *)

Lemma chunk_count (n i size : nat) :
  0 < size -> i < n ->
  (n - i + size - 1) / size = S ((n - (i + size) + size - 1) / size).
Proof.
  intros Hs Hi. destruct (Nat.le_gt_cases size (n - i)) as [Hge|Hlt].
  - replace (n - i + size - 1) with (1 * size + (n - (i + size) + size - 1)) by lia.
    rewrite Nat.div_add_l by lia. lia.
  - replace (n - (i + size)) with 0 by lia.
    rewrite (Nat.div_small (0 + size - 1) size) by lia.
    symmetry. apply Nat.div_unique with (r := n - i - 1); lia.
Qed.

Lemma chunk_loop_spec {X : Type} (array : list X) (size : nat) :
  0 < size ->
  forall fuel i chunks,
    length array - i < fuel ->
    exists rest,
      chunk_loop fuel i array size chunks = Some (chunks ++ rest) /\
      concat rest = skipn i array /\
      Forall (fun c => 1 <= length c <= size) rest /\
      length rest = (length array - i + size - 1) / size.
Proof.
  intros Hs. induction fuel as [|fuel IH]; intros i chunks Hfuel; [lia|].
  simpl. destruct (i <? length array) eqn:Ei.
  - apply Nat.ltb_lt in Ei.
    destruct (IH (i + size) (chunks ++ [firstn size (skipn i array)]) ltac:(lia))
      as (rest & Hrun & Hcat & Hall & Hlen).
    exists (firstn size (skipn i array) :: rest).
    rewrite Hrun, <- app_assoc. split; [reflexivity|]. split; [|split].
    + simpl. rewrite Hcat.
      replace (i + size) with (size + i) by lia.
      rewrite <- skipn_skipn. apply firstn_skipn.
    + constructor; [|exact Hall].
      rewrite length_firstn, length_skipn. lia.
    + simpl. rewrite Hlen. symmetry. now apply chunk_count.
  - apply Nat.ltb_ge in Ei. exists []. rewrite app_nil_r.
    split; [reflexivity|]. split; [now rewrite skipn_all2|].
    split; [constructor|]. simpl.
    replace (length array - i) with 0 by lia.
    symmetry. apply Nat.div_small. lia.
Qed.

Lemma chunk_loop_stuck {X : Type} (array : list X) (fuel : nat) :
  array <> [] -> forall chunks, chunk_loop fuel 0 array 0 chunks = None.
Proof.
  intros Hne. induction fuel as [|fuel IH]; intros chunks; [reflexivity|].
  simpl. destruct array as [|x array]; [contradiction|]. simpl. apply IH.
Qed.

(** X11: for a positive chunk size, [chunkArray] splits the array into
    consecutive chunks: glued together they give the array back, none is
    empty or longer than the size, and there are [ceil(n / size)] of them.
    With size 0 the loop never ends on a non-empty array. *)
Theorem chunkArray_partition {X : Type} (array : list X) (size fuel : nat) :
  (0 < size -> length array < fuel ->
   exists chunks,
     chunkArray fuel array size = Some chunks /\
     concat chunks = array /\
     Forall (fun c => 1 <= length c <= size) chunks /\
     length chunks = (length array + size - 1) / size) /\
  (size = 0 -> array <> [] -> chunkArray fuel array size = None).
Proof.
  split.
  - intros Hs Hfuel.
    destruct (chunk_loop_spec array size Hs fuel 0 [] ltac:(lia))
      as (rest & Hrun & Hcat & Hall & Hlen).
    exists rest. unfold chunkArray. rewrite Hrun. simpl.
    rewrite Nat.sub_0_r in Hlen. auto.
  - intros -> Hne. now apply chunk_loop_stuck.
Qed.

(** *** Early returns of [loadLibrary] *)

(** X12: [loadLibrary] returns at once, without any effect on the state and
    so without any request, in two cases: [true] for a library that is
    loaded or being loaded, whether allow-listed or not, and [false] for a
    library that is not allow-listed. *)
Theorem loadLibrary_early_returns (w : world) (fuel : nat)
      (config : IntelliSenseConfig) (name : str) (s : state) :
  (set_has name (loadedModules (mem s)) || set_has name (loadingQueue (mem s)) = true ->
   run w (loadLibrary fuel config name) s = (Returned true, s) /\
   start w (loadLibrary fuel config name) s = (Finished (Returned true), s)) /\
  (set_has name (loadedModules (mem s)) || set_has name (loadingQueue (mem s)) = false ->
   set_has name (supportedLibraries config) = false ->
   run w (loadLibrary fuel config name) s = (Returned false, s) /\
   start w (loadLibrary fuel config name) s = (Finished (Returned false), s)).
Proof.
  unfold loadLibrary, read. cbn [bind run start]. split.
  - intros H. rewrite H. split; reflexivity.
  - intros H Hs. rewrite H, Hs. split; reflexivity.
Qed.

(** *** What a batch reports *)

Lemma ro_weaken {A : Type} (P Q : A -> Prop) (p : prog A) :
  (forall a, P a -> Q a) -> returns_only P p -> returns_only Q p.
Proof. intros HPQ H. induction H; constructor; auto. Qed.

Lemma ro_of_no_throw {A : Type} (p : prog A) :
  no_throw p -> returns_only (fun _ => True) p.
Proof. induction 1; constructor; auto. Qed.

Lemma ro_bind {A B : Type} (Q : A -> Prop) (P : B -> Prop) (p : prog A)
      (f : A -> prog B) :
  returns_only Q p -> (forall a, Q a -> returns_only P (f a)) ->
  returns_only P (bind p f).
Proof. intros Hp Hf. induction Hp; simpl; try (constructor; auto). now apply Hf. Qed.

Lemma ro_try_catch {A : Type} (P : A -> Prop) (p : prog A) (h : exn -> prog A) :
  returns_only P p -> returns_only P (try_catch p h).
Proof. intros Hp. induction Hp; simpl; constructor; auto. Qed.

Lemma ro_try_finally {A : Type} (P : A -> Prop) (p : prog A) (f : prog unit) :
  returns_only P p -> returns_only (fun _ => True) f ->
  returns_only P (try_finally p f).
Proof.
  intros Hp Hf. induction Hp; simpl; try (constructor; auto).
  apply (ro_bind (fun _ => True)); [exact Hf|]. intros _ _. now constructor.
Qed.

Lemma loadLibrary_honest (fuel : nat) (config : IntelliSenseConfig) (name : str) :
  returns_only (honest config name) (loadLibrary fuel config name).
Proof.
  unfold loadLibrary, read, write. cbn [bind]. constructor. intros h.
  destruct (_ || _); [constructor; now left|].
  destruct (set_has name (supportedLibraries config)) eqn:Es; cbn [negb];
    [|constructor; now right].
  constructor. apply ro_try_finally; [|repeat constructor].
  apply ro_try_catch.
  apply (ro_bind (fun _ => True)).
  { apply ro_of_no_throw. unfold await.
    apply no_throw_bind; [apply fetchAndAddTypes_no_throw|].
    intros; repeat constructor. }
  intros _ _. constructor. constructor. now left.
Qed.

Lemma run_ro {A : Type} (w : world) (P : A -> Prop) (p : prog A) :
  returns_only P p -> forall s, result_ok P (fst (run w p s)).
Proof. induction 1; intros s; simpl; auto. Qed.

Lemma start_ro {A : Type} (w : world) (P : A -> Prop) (p : prog A) :
  returns_only P p -> forall s, task_returns_only P (fst (start w p s)).
Proof. induction 1; intros s; simpl; auto. Qed.

Lemma resume_ro {A : Type} (w : world) (P : A -> Prop) (t : task A) (s : state) :
  task_returns_only P t -> task_returns_only P (fst (resume w t s)).
Proof.
  destruct t as [r|r k|k]; simpl; intros H; [exact H | |].
  - apply start_ro, H.
  - now apply start_ro.
Qed.

Lemma finish_ro {A : Type} (w : world) (P : A -> Prop) (t : task A) (s : state) :
  task_returns_only P t -> result_ok P (fst (finish w t s)).
Proof.
  destruct t as [[a|e|]|r k|k]; simpl; intros H; auto.
  - apply run_ro, H.
  - now apply run_ro.
Qed.

Lemma step_spawn {A : Type} (w : world) (pool : list (task A)) (s : state)
      (p : prog A) :
  step_pool w (pool, s) (Spawn p) =
  (pool ++ [fst (start w p s)], snd (start w p s)).
Proof. unfold step_pool. now destruct (start w p s). Qed.

Lemma step_resume {A : Type} (w : world) (pool : list (task A)) (s : state)
      (i : nat) :
  step_pool w (pool, s) (Resume i) =
  match nth_error pool i with
  | Some t => (replace_nth i (fst (resume w t s)) pool, snd (resume w t s))
  | None => (pool, s)
  end.
Proof.
  unfold step_pool. destruct (nth_error pool i) as [t|]; [|reflexivity].
  now destruct (resume w t s).
Qed.

Lemma run_pool_cons {A : Type} (w : world) (a : action A) (acts : list (action A))
      (cfg : list (task A) * state) :
  run_pool w (a :: acts) cfg = run_pool w acts (step_pool w cfg a).
Proof. reflexivity. Qed.

Section Batch.

Variable w : world.
Variable fuel : nat.
Variable config : IntelliSenseConfig.

Let R (name : str) (t : task bool) : Prop :=
  task_returns_only (honest config name) t.

Lemma spawn_all_honest (names : list str) :
  forall names0 pool s,
    Forall2 R names0 pool ->
    Forall2 R (names0 ++ names)
      (fst (run_pool w (map (fun lib => Spawn (loadLibrary fuel config lib)) names)
                     (pool, s))).
Proof.
  induction names as [|n names IH]; intros names0 pool s H.
  - cbn [map run_pool fold_left fst]. now rewrite app_nil_r.
  - cbn [map]. rewrite run_pool_cons, step_spawn.
    replace (names0 ++ n :: names) with ((names0 ++ [n]) ++ names)
      by (now rewrite <- app_assoc).
    apply IH. apply Forall2_app; [exact H|]. constructor; [|constructor].
    unfold R. apply start_ro, loadLibrary_honest.
Qed.

Lemma replace_nth_Forall2 (names : list str) (pool : list (task bool)) :
  Forall2 R names pool ->
  forall i t t',
    nth_error pool i = Some t ->
    (forall n, R n t -> R n t') ->
    Forall2 R names (replace_nth i t' pool).
Proof.
  induction 1 as [|n t0 names pool Hn Hrest IH]; intros i t t' Hi Ht.
  - destruct i; discriminate.
  - destruct i as [|i]; simpl in *.
    + injection Hi as ->. constructor; auto.
    + constructor; [exact Hn | eapply IH; eauto].
Qed.

Lemma resume_all_honest (schedule : list nat) :
  forall names pool s,
    Forall2 R names pool ->
    Forall2 R names (fst (run_pool w (map Resume schedule) (pool, s))).
Proof.
  induction schedule as [|i schedule IH]; intros names pool s H; [exact H|].
  cbn [map]. rewrite run_pool_cons, step_resume.
  destruct (nth_error pool i) as [t|] eqn:Ei; [|now apply IH].
  apply IH. eapply replace_nth_Forall2; eauto.
  intros n Hn. unfold R in *. now apply resume_ro.
Qed.

Lemma finish_all_honest (names : list str) (pool : list (task bool)) :
  Forall2 R names pool ->
  forall s,
    Forall2 (fun n r => result_ok (honest config n) r) names
            (fst (finish_all w pool s)).
Proof.
  induction 1 as [|n t names pool Hn Hrest IH]; intros s; simpl; [constructor|].
  destruct (finish w t s) as [r s'] eqn:Ef.
  specialize (IH s'). destruct (finish_all w pool s') as [rs s''].
  simpl in *. constructor; [|exact IH].
  replace r with (fst (finish w t s)) by (now rewrite Ef).
  now apply finish_ro.
Qed.

Lemma settle_honest (names : list str) (results : list (result bool)) :
  Forall2 (fun n r => result_ok (honest config n) r) names results ->
  forall l, settle names results = Some l ->
    map library l = names /\
    Forall (fun r => honest config (library r) (success r)) l.
Proof.
  induction 1 as [|n r names results Hr Hrest IH]; intros l Hl; simpl in Hl.
  - injection Hl as <-. split; [reflexivity | constructor].
  - destruct r as [b|e|]; simpl in Hr; try contradiction; try discriminate.
    destruct (settle names results) as [l0|]; [|discriminate].
    injection Hl as <-. destruct (IH l0 eq_refl) as [H1 H2].
    simpl. split; [now rewrite H1 | constructor; auto].
Qed.

End Batch.

(** X13: whatever the network answers and however the event loop
    interleaves the loads, when [loadLibraries] settles it reports one
    record per name, in the order of the names, and a record with
    [success: false] is always for a name that is not allow-listed: the
    load of an allow-listed library is never reported as failed. *)
Theorem loadLibraries_reports (w : world) (schedule : list nat) (fuel : nat)
      (config : IntelliSenseConfig) (names : list str) (s : state)
      (records : list LoadResult) :
  fst (loadLibraries w schedule fuel config names s) = Some records ->
  map library records = names /\
  Forall (fun r => success r = false ->
                   set_has (library r) (supportedLibraries config) = false)
         records.
Proof.
  unfold loadLibraries. intros H.
  pose proof (spawn_all_honest w fuel config names [] [] s (Forall2_nil _)) as Hsp.
  simpl in Hsp.
  destruct (run_pool w (map (fun lib => Spawn (loadLibrary fuel config lib)) names)
                     ([], s)) as [pool1 s1].
  pose proof (resume_all_honest w config schedule names pool1 s1 Hsp) as Hre.
  destruct (run_pool w (map Resume schedule) (pool1, s1)) as [pool2 s2].
  simpl in *.
  pose proof (finish_all_honest w config names pool2 Hre s2) as Hfin.
  destruct (finish_all w pool2 s2) as [results s3]. simpl in *.
  destruct (settle_honest config names results Hfin records H) as [H1 H2].
  split; [exact H1|].
  eapply Forall_impl; [|exact H2].
  intros r [Ht|Hf] Hs; [congruence | exact Hf].
Qed.

(** *** More of the walker *)

Lemma virtualPath_of_dts (url : str) (packageName : option str) :
  endsWith (virtualPath_of url packageName) dts = true.
Proof.
  unfold virtualPath_of.
  destruct packageName as [[|c p]|];
    try (destruct (endsWith (replaceFirst _ _ url) dts) eqn:E;
         [exact E | apply endsWith_app]).
  change ($"/index.d.ts") with ($"/index" ++ dts).
  rewrite !app_assoc. apply endsWith_app.
Qed.

Lemma packagePath_dts (name : str) :
  endsWith ($"file:///node_modules/@types/" ++ name ++ $"/index.d.ts") dts = true.
Proof.
  change ($"/index.d.ts") with ($"/index" ++ dts).
  rewrite !app_assoc. apply endsWith_app.
Qed.

Ltac dw_step :=
  match goal with
  | |- declaration_write _ =>
      first [ apply dw_storage | apply dw_hit | apply dw_miss
            | apply dw_files; assumption | apply dw_extraLibs; assumption ]
  | |- writes_only _ (Write _ _) => constructor
  | |- writes_only _ (Ret _) => constructor
  | |- writes_only _ (Throw _) => constructor
  | |- writes_only _ OutOfFuel => constructor
  | |- writes_only _ (Yield _) => constructor
  | |- writes_only _ (IsVisited _ _) => constructor; intros
  | |- writes_only _ (MarkVisited _ _) => constructor
  | |- writes_only _ (Read _) => constructor; intros
  | |- writes_only _ (Now _) => constructor; intros
  | |- writes_only _ (Quota _) => constructor; intros
  | |- writes_only _ (Fetch _ _ _) => constructor; intros
  | |- writes_only _ ?p =>
      match p with
      | context [match ?x with _ => _ end] => destruct x
      end
  end.

Ltac dw_auto := repeat (cbn [bind try_catch await]; dw_step).

Lemma dw_register (path text : str) :
  endsWith path dts = true -> writes_only declaration_write (register path text).
Proof. intros H. unfold register, read, write. dw_auto. Qed.

Lemma dw_TypeCache_set (url content : str) (tag version : option str) :
  writes_only declaration_write (TypeCache_set url content tag version).
Proof.
  unfold TypeCache_set, ensureCacheSpace, cleanupOldEntries, storage_setItem,
    now, read, write.
  dw_auto.
Qed.

Lemma dw_TypeCache_get (url : str) :
  writes_only declaration_write (TypeCache_get url).
Proof.
  unfold TypeCache_get, validateETag, fetch, now, read, write. dw_auto.
Qed.

Lemma walk_declaration_writes (fuel : nat) :
  forall c, writes_only declaration_write (walk fuel c).
Proof.
  induction fuel as [|fuel IH]; intros c; [constructor|].
  destruct c as [url packageName|specifier]; cbn [walk].
  - set (u := normalizeTypeUrl url).
    unfold isVisited, markVisited. cbn [bind].
    constructor. intros [|]; [constructor|]. constructor.
    apply wo_try_catch; [|intros; constructor].
    apply wo_bind; [apply wo_await, dw_TypeCache_get|]. intros cached.
    apply wo_bind.
    { destruct (truthy cached); [constructor|].
      unfold fetch. cbn [bind]. constructor. intros x.
      destruct x as [|res]; cbn [bind]; [constructor|].
      destruct (negb (res_ok res)); [constructor|].
      apply wo_bind; [unfold text_of; dw_auto|]. intros text.
      apply wo_bind; [apply wo_await, dw_TypeCache_set|].
      intros _. constructor. }
    intros [text|]; [|constructor].
    pose proof (virtualPath_of_dts u packageName) as Hvp.
    apply wo_bind; [unfold write; dw_auto|]. intros _.
    apply wo_bind; [now apply dw_register|]. intros _.
    apply wo_bind.
    { destruct packageName as [[|c p]|]; try constructor.
      destruct (negb _); [apply dw_register, packagePath_dts | constructor]. }
    intros _. apply wo_bind.
    { apply wo_for_of. intros ref.
      destruct (resolveUrl ref u); [|constructor]. apply wo_await, IH. }
    intros _. apply wo_for_of. intros importRef.
    destruct (startsWith importRef _).
    { destruct (resolveUrl importRef u); [|constructor]. apply wo_await, IH. }
    destruct (negb _); [|constructor].
    apply wo_try_catch; [apply wo_await, IH | intros; constructor].
  - unfold isVisited, markVisited. cbn [bind].
    constructor. intros [|]; [constructor|]. constructor.
    apply wo_try_catch; [|intros; constructor].
    unfold fetch. cbn [bind]. constructor. intros x.
    destruct x as [|resp]; cbn [bind]; [constructor|].
    destruct (negb (res_ok resp)); [constructor|].
    apply wo_bind.
    { destruct (res_types resp) as [[|c typesHeader]|]; try constructor.
      destruct (resolveUrl _ _); constructor. }
    intros typesUrl. apply wo_await, IH.
Qed.

Lemma getItem_setItem_inv (path text p : str) (l : list (str * str)) :
  getItem p (setItem path text l) <> None -> getItem p l <> None \/ p = path.
Proof.
  intros H. destruct (str_eq_dec p path) as [->|Hne]; [now right|].
  left. now rewrite getItem_setItem_other in H.
Qed.

Lemma adds_declarations_refl (h : heap) : adds_declarations h h.
Proof. split; intros path H; now left. Qed.

Lemma adds_declarations_trans (h1 h2 h3 : heap) :
  adds_declarations h1 h2 -> adds_declarations h2 h3 -> adds_declarations h1 h3.
Proof.
  intros [A1 A2] [B1 B2]. split; intros path H.
  - destruct (B1 path H) as [H2|H2]; [now apply A1 | now right].
  - destruct (B2 path H) as [H2|H2]; [now apply A2 | now right].
Qed.

Lemma declaration_write_adds (f : heap -> heap) (h : heap) :
  declaration_write f -> adds_declarations h (f h).
Proof.
  intros [g|path text Hp|path text Hp| |]; split; simpl; intros p H;
    try (now left);
    (destruct (getItem_setItem_inv _ _ _ _ H) as [H1| ->]; [now left | now right]).
Qed.

Lemma wo_run_declarations {A : Type} (w : world) (p : prog A) :
  writes_only declaration_write p ->
  forall s, adds_declarations (mem s) (mem (snd (run w p s))).
Proof.
  induction 1 as [a|e| |m k Hk IH|m k Hk IH|k Hk IH|f k Hf Hk IH|k Hk IH|k Hk IH
                 |m r k Hk IH|k Hk IH]; intros s; simpl;
    try apply adds_declarations_refl;
    try (match goal with
         | |- context [run w _ ?s'] => first [exact (IH s') | exact (IH _ s')]
         end).
  eapply adds_declarations_trans; [|apply (IH (with_mem s (f (mem s))))].
  simpl. now apply declaration_write_adds.
Qed.

(** X14: whatever the network answers, every file that a walk adds to the
    virtual file system, and every library it registers with the editor,
    is under a path that ends in [.d.ts]. *)
Theorem walk_adds_declaration_paths (w : world) (fuel : nat) (c : call) (s : state) :
  adds_declarations (mem s) (mem (snd (run w (walk fuel c) s))).
Proof. apply wo_run_declarations, walk_declaration_writes. Qed.

(** X15: a download that fails is not retried.  When [processFile] finds no
    cached record and the request is rejected or answered with an error
    status, it returns normally having changed nothing but the miss
    counter; the URL stays marked, so that a later [processFile] of the
    same URL returns at once without any request. *)
Theorem failed_download_not_retried (w : world) (fuel fuel' : nat) (url : str)
      (packageName packageName' : option str) (s : state) :
  let u := normalizeTypeUrl url in
  set_has u (visited s) = false ->
  getItem (getCacheKey u) (localStorage (mem s)) = None ->
  match net w (tick s) (Request GET u) with
  | Rejected => True
  | Replied res => res_ok res = false
  end ->
  let out := run w (processFile (S fuel) url packageName) s in
  fst out = Returned tt /\
  log (snd out) = log s ++ [(u, Request GET u)] /\
  mem (snd out) = count_miss (mem s) /\
  run w (processFile (S fuel') url packageName') (snd out) = (Returned tt, snd out).
Proof.
  intros u Hvis Hget Hnet out.
  assert (Hout : exists s', out = (Returned tt, s') /\
                   visited s' = set_add u (visited s) /\
                   log s' = log s ++ [(u, Request GET u)] /\
                   mem s' = count_miss (mem s)).
  { subst out. unfold processFile. cbn [walk]. fold u.
    unfold isVisited, markVisited. cbn [bind run]. rewrite Hvis. cbn [bind run].
    rewrite run_try_catch, run_bind. unfold await at 1. rewrite run_bind.
    rewrite run_get_absent by (left; exact Hget).
    cbn [run truthy bind fetch]. unfold fetch. cbn [bind run with_visited with_mem tick mem].
    destruct (net w (tick s) (Request GET u)) as [|res]; cbn [bind run].
    - eexists; repeat split.
    - rewrite Hnet. cbn [negb bind run]. eexists; repeat split. }
  destruct Hout as (s' & -> & Hv & Hl & Hm). cbn [fst snd].
  repeat split; auto.
  unfold processFile. cbn [walk]. fold u.
  unfold isVisited. cbn [bind run]. rewrite Hv, set_add_has_self. reflexivity.
Qed.

(** *** [clearCache] and the markers of the walker *)

Lemma set_delete_absent (x : str) (l : list str) :
  set_has x l = false -> set_delete x l = l.
Proof.
  unfold set_delete, set_has. induction l as [|y l IH]; simpl; [reflexivity|].
  intros H. apply orb_false_iff in H. destruct H as [H1 H2].
  rewrite H1. simpl. now rewrite IH.
Qed.

Lemma set_delete_add (x : str) (l : list str) :
  set_has x l = false -> set_delete x (set_add x l) = l.
Proof.
  intros H. unfold set_add. rewrite H. unfold set_delete.
  rewrite filter_app. simpl. rewrite str_eqb_refl. simpl.
  rewrite app_nil_r. now apply set_delete_absent.
Qed.

(** X16: [clearCache] empties the cache and forgets the loaded libraries,
    but not the markers of the walker.  Loading again a library that was
    walked before reports success and records the library as loaded
    without a single request: nothing is downloaded again, and the cache
    stays empty. *)
Theorem reload_after_clearCache (w : world) (fuel : nat)
      (config : IntelliSenseConfig) (name : str) (s : state) :
  set_has ($"package:" ++ name) (visited s) = true ->
  set_has name (supportedLibraries config) = true ->
  set_has name (loadingQueue (mem s)) = false ->
  let s1 := snd (run w clearCache s) in
  let out := run w (loadLibrary (S fuel) config name) s1 in
  fst out = Returned true /\
  log (snd out) = log s /\
  loadedModules (mem (snd out)) = [name] /\
  loadingQueue (mem (snd out)) = loadingQueue (mem s) /\
  files (mem (snd out)) = files (mem s) /\
  extraLibs (mem (snd out)) = extraLibs (mem s) /\
  getCurrentCacheSize (localStorage (mem (snd out))) = 0%N.
Proof.
  intros Hvis Hsup Hq s1 out. subst out s1.
  unfold clearCache, TypeCache_clear, write. cbn [bind run snd].
  unfold loadLibrary, read. cbn [bind run mem with_mem upd_loaded upd_storage
    loadedModules loadingQueue].
  change (set_has name []) with false. cbn [orb].
  rewrite Hq, Hsup. cbn [negb]. unfold write. cbn [bind run].
  rewrite run_try_finally, run_try_catch, run_bind.
  unfold fetchAndAddTypes, fetchEntry. rewrite !run_await.
  cbn [walk]. unfold isVisited. cbn [bind run visited with_mem].
  rewrite Hvis. cbn [bind run fst snd with_mem mem log upd_loading upd_loaded
    loadedModules loadingQueue files extraLibs localStorage].
  repeat split.
  - now apply set_delete_add.
  - apply cleared_size.
Qed.

(** *** The names [extractImports] returns *)

Lemma split_on_no_slash (s : str) :
  Forall (fun p => count_occ ascii_dec p slash = 0) (split_on slash s).
Proof.
  induction s as [|c s IH]; simpl; [repeat constructor|].
  destruct (ascii_dec c slash) as [->|Hc]; [constructor; [reflexivity | exact IH]|].
  destruct (split_on slash s) as [|h t].
  - constructor; [|constructor]. simpl. now destruct (ascii_dec c slash).
  - inversion IH; subst. constructor; [|assumption].
    simpl. now destruct (ascii_dec c slash).
Qed.

Lemma split_on_cons (c : ascii) (s : str) :
  c <> slash -> exists h t, split_on slash (c :: s) = (c :: h) :: t.
Proof.
  intros Hc. simpl. destruct (ascii_dec c slash); [contradiction|].
  destruct (split_on slash s) as [|h t]; eauto.
Qed.

Lemma join_two_slashes (parts : list str) :
  Forall (fun p => count_occ ascii_dec p slash = 0) parts ->
  count_occ ascii_dec (join $"/" (firstn 2 parts)) slash <= 1.
Proof.
  intros H. destruct parts as [|p [|q rest]]; [simpl; lia| |].
  - inversion H; subst. simpl. lia.
  - inversion H as [|? ? Hp H1]; subst. inversion H1 as [|? ? Hq H2]; subst.
    cbn [firstn join]. rewrite count_occ_app.
    change ($"/" ++ q) with (slash :: q).
    rewrite count_occ_cons_eq by reflexivity. lia.
Qed.

Lemma startsWith_char (x c : ascii) (s : str) :
  startsWith (c :: s) [x] = if ascii_dec x c then true else false.
Proof. simpl. now destruct (ascii_dec x c). Qed.

Lemma package_name_scoped (r : str) :
  count_occ ascii_dec ("@"%char :: r) slash <= 1 -> package_name ("@"%char :: r).
Proof.
  intros H. unfold package_name. change ($".") with ["."%char].
  change ($"/") with [slash]. change ($"@") with ["@"%char].
  rewrite !startsWith_char. repeat split; try reflexivity.
  destruct (ascii_dec "@"%char "@"%char); [exact H | congruence].
Qed.

Lemma clean_name_package (m : str) :
  startsWith m $"." = false -> startsWith m $"/" = false ->
  package_name (if startsWith m $"@"
                then join $"/" (firstn 2 (split_on slash m))
                else hd [] (split_on slash m)).
Proof.
  intros Hdot Hslash. destruct m as [|c m]; [repeat split; simpl; lia|].
  change ($".") with ["."%char] in Hdot. change ($"/") with [slash] in Hslash.
  change ($"@") with ["@"%char].
  rewrite startsWith_char in Hdot, Hslash.
  assert (Hc : c <> slash)
    by (intros ->; destruct (ascii_dec slash slash); congruence).
  destruct (split_on_cons c m Hc) as (h & t & E).
  pose proof (split_on_no_slash (c :: m)) as Hparts.
  rewrite startsWith_char.
  destruct (ascii_dec "@"%char c) as [<-|Hat].
  - rewrite E in Hparts |- *.
    pose proof (join_two_slashes _ Hparts) as Hcount. change ($"/") with [slash] in Hcount |- *.
    destruct t as [|q t']; cbn [firstn join app] in Hcount |- *;
      apply package_name_scoped; exact Hcount.
  - rewrite E in Hparts |- *. simpl hd. inversion Hparts as [|? ? Hh _]; subst.
    unfold package_name. change ($".") with ["."%char].
    change ($"/") with [slash]. change ($"@") with ["@"%char].
    rewrite !startsWith_char.
    repeat split; try assumption. rewrite Hh. lia.
Qed.

Lemma add_import_package (imports : list str) (m : str) :
  Forall package_name imports -> Forall package_name (add_import imports m).
Proof.
  intros H. unfold add_import.
  destruct (startsWith m $".") eqn:Hdot; [exact H|].
  destruct (startsWith m $"/") eqn:Hslash; [exact H|].
  destruct (_ && _); [|exact H].
  rewrite Forall_forall in H |- *. intros name Hin.
  unfold set_add in Hin. destruct (set_has _ imports); [now apply H|].
  apply in_app_iff in Hin. destruct Hin as [Hin|[<-|[]]]; [now apply H|].
  now apply clean_name_package.
Qed.

Lemma extractImports_names (code : str) : Forall package_name (extractImports code).
Proof.
  unfold extractImports. generalize patterns. intros ps.
  assert (G : forall acc, Forall package_name acc ->
            Forall package_name (fold_left (fun imports pattern =>
              fold_left add_import (Regex.exec_all (length code) pattern code) imports)
              ps acc)).
  { induction ps as [|p ps IH]; intros acc H; simpl; [exact H|].
    apply IH. generalize (Regex.exec_all (length code) p code). intros ms.
    revert acc H. induction ms as [|m ms IHm]; intros acc H; simpl; [exact H|].
    apply IHm. now apply add_import_package. }
  apply G. constructor.
Qed.

(** X17: whatever the source text, every name [extractImports] returns is
    a package name, never a path: it starts with neither a dot nor a slash
    and has no slash, or at most one when scoped.  The libraries
    [analyzeAndLoadTypes] goes on to load are such names, without
    duplicates, all allow-listed and none loaded or being loaded. *)
Theorem extractImports_package_names (code : str) :
  Forall package_name (extractImports code) /\
  forall config h,
    NoDup (newLibraries config h code) /\
    Forall (fun lib => package_name lib /\
                       set_has lib (supportedLibraries config) = true /\
                       set_has lib (loadedModules h) = false /\
                       set_has lib (loadingQueue h) = false)
           (newLibraries config h code).
Proof.
  split; [apply extractImports_names|]. intros config h. unfold newLibraries. split.
  - apply NoDup_filter, extractImports_NoDup.
  - rewrite Forall_forall. intros lib Hin. apply filter_In in Hin.
    destruct Hin as [Hin Hf].
    apply andb_true_iff in Hf. destruct Hf as [Hf H3].
    apply andb_true_iff in Hf. destruct Hf as [H1 H2].
    apply negb_true_iff in H2, H3.
    pose proof (extractImports_names code) as Hall.
    rewrite Forall_forall in Hall. auto.
Qed.

(** *** Registration with the editor *)

Lemma run_register (w : world) (path text : str) (s : state) :
  exists libs,
    run w (register path text) s =
      (Returned tt, with_mem s (upd_extraLibs (fun _ => libs) (mem s))) /\
    getItem path libs = Some text /\
    (forall p, p <> path -> getItem p libs = getItem p (extraLibs (mem s))) /\
    (getItem path (extraLibs (mem s)) = Some text -> libs = extraLibs (mem s)).
Proof.
  unfold register, read, write. cbn [bind run].
  destruct (getItem path (extraLibs (mem s))) as [existing|] eqn:E.
  - destruct (str_eqb existing text) eqn:Eq.
    + apply str_eqb_eq in Eq. subst existing.
      exists (extraLibs (mem s)). cbn [run]. repeat split; auto.
      destruct s as [v [] l t]; reflexivity.
    + exists (setItem path text (extraLibs (mem s))). cbn [run].
      repeat split.
      * apply getItem_setItem_same.
      * intros p Hp. now apply getItem_setItem_other.
      * intros H. injection H as ->. now rewrite str_eqb_refl in Eq.
  - exists (setItem path text (extraLibs (mem s))). cbn [run].
    repeat split.
    + apply getItem_setItem_same.
    + intros p Hp. now apply getItem_setItem_other.
    + discriminate.
Qed.

Lemma updates_register (w : world) (path text : str) (s : state) :
  updates w (register path text) s =
    match getItem path (extraLibs (mem s)) with
    | Some existing => if str_eqb existing text then 0 else 1
    | None => 1
    end.
Proof.
  unfold register, read, write. cbn [bind updates].
  destruct (getItem path (extraLibs (mem s))) as [existing|]; [|reflexivity].
  now destruct (str_eqb existing text).
Qed.

(** X18: the duplicate check of the registration step.  [addExtraLib] is
    called at most once, and not at all exactly when the path is already
    registered with this text.  After the step the editor holds the text
    under the path and every other registration is as before, so that
    registering the same text again makes no call and leaves the state as
    it is. *)
Theorem register_idempotent (w : world) (path text : str) (s : state) :
  let s1 := snd (run w (register path text) s) in
  fst (run w (register path text) s) = Returned tt /\
  getItem path (extraLibs (mem s1)) = Some text /\
  (forall p, p <> path ->
     getItem p (extraLibs (mem s1)) = getItem p (extraLibs (mem s))) /\
  run w (register path text) s1 = (Returned tt, s1) /\
  updates w (register path text) s <= 1 /\
  (updates w (register path text) s = 0 <->
   getItem path (extraLibs (mem s)) = Some text) /\
  updates w (register path text) s1 = 0.
Proof.
  intros s1. subst s1.
  destruct (run_register w path text s) as (libs & Hrun & Hget & Hother & _).
  rewrite Hrun. cbn [fst snd mem with_mem upd_extraLibs extraLibs].
  split; [reflexivity|]. split; [exact Hget|]. split; [exact Hother|].
  set (s1 := with_mem s (upd_extraLibs (fun _ => libs) (mem s))).
  split.
  { destruct (run_register w path text s1) as (libs' & Hrun' & _ & _ & Hsame).
    rewrite Hrun'. rewrite (Hsame Hget).
    destruct s as [v [] l t]; reflexivity. }
  rewrite !updates_register.
  assert (Hs1 : getItem path (extraLibs (mem s1)) = Some text) by exact Hget.
  rewrite Hs1, str_eqb_refl.
  destruct (getItem path (extraLibs (mem s))) as [existing|].
  - destruct (str_eqb existing text) eqn:E.
    + apply str_eqb_eq in E. subst existing.
      split; [lia|]. split; [split; intros _; reflexivity | reflexivity].
    + split; [lia|]. split; [|reflexivity].
      split; [discriminate|]. intros H. injection H as ->.
      now rewrite str_eqb_refl in E.
  - split; [lia|]. split; [|reflexivity]. split; discriminate.
Qed.

(** *** Storing and registering a file *)

Lemma run_registration (w : world) (vp text : str) (packageName : option str)
      (s2 : state) :
  exists libs,
    run w (write (upd_files (setItem vp text)) ;;
           register vp text ;;
           match packageName with
           | Some (c :: p) =>
               if negb (includes vp $"/dist/")
               then register ($"file:///node_modules/@types/" ++ (c :: p)
                                ++ $"/index.d.ts") text
               else Ret tt
           | _ => Ret tt
           end ;;
           Ret tt) s2 =
      (Returned tt,
       with_mem s2 (upd_extraLibs (fun _ => libs)
                      (upd_files (setItem vp text) (mem s2)))) /\
    getItem vp libs = Some text /\
    (forall c p, packageName = Some (c :: p) ->
       includes vp $"/dist/" = false ->
       getItem ($"file:///node_modules/@types/" ++ (c :: p) ++ $"/index.d.ts")
               libs = Some text).
Proof.
  unfold write. cbn [bind run]. rewrite run_bind.
  set (s3 := with_mem s2 (upd_files (setItem vp text) (mem s2))).
  destruct (run_register w vp text s3) as (libs & Hr & Hg & Ho & _).
  rewrite Hr. rewrite run_bind.
  set (s4 := with_mem s3 (upd_extraLibs (fun _ => libs) (mem s3))).
  destruct packageName as [[|c p]|].
  1, 3: (exists libs; split; [reflexivity|];
         split; [exact Hg | intros; discriminate]).
  destruct (includes vp $"/dist/") eqn:Ed; cbn [negb].
  - exists libs. split; [reflexivity|]. split; [exact Hg|].
    intros; discriminate.
  - set (pk := $"file:///node_modules/@types/" ++ (c :: p) ++ $"/index.d.ts").
    destruct (run_register w pk text s4) as (libs' & Hr' & Hg' & Ho' & _).
    exists libs'. rewrite Hr'. split; [reflexivity|]. split.
    + destruct (str_eq_dec vp pk) as [E|E]; [rewrite E; exact Hg'|].
      rewrite Ho' by exact E. exact Hg.
    + intros c0 p0 H _. injection H as <- <-. exact Hg'.
Qed.

Ltac use_registration H :=
  match goal with
  | |- context [run ?w ?q ?s2] =>
      match type of H with
      | run w ?q' s2 = _ => change (run w q s2) with (run w q' s2); rewrite H
      end
  end.

(** *** A successful download *)

Lemma run_processFile_download (w : world) (fuel : nat) (url : str)
      (packageName : option str) (s : state) (res : response) (text : str) :
  let u := normalizeTypeUrl url in
  let vp := virtualPath_of u packageName in
  set_has u (visited s) = false ->
  getItem (getCacheKey u) (localStorage (mem s)) = None ->
  net w (tick s) (Request GET u) = Replied res ->
  res_ok res = true ->
  res_body res = Some text ->
  preProcessFile text = ([], []) ->
  let out := run w (processFile (S fuel) url packageName) s in
  let h' := mem (snd out) in
  fst out = Returned tt /\
  log (snd out) = log s ++ [(u, Request GET u)] /\
  getItem vp (files h') = Some text /\
  getItem vp (extraLibs h') = Some text /\
  (forall c p, packageName = Some (c :: p) -> includes vp $"/dist/" = false ->
     getItem ($"file:///node_modules/@types/" ++ (c :: p) ++ $"/index.d.ts")
             (extraLibs h') = Some text) /\
  (quota_exceeded w (S (S (tick s))) = false ->
   getItem (getCacheKey u) (localStorage h') =
     Some (JSON_stringify
             (CachedType text (clock w (S (tick s))) None
                (if truthy (res_etag res) then res_etag res else None)))) /\
  missCount h' = (missCount (mem s) + 1)%N.
Proof.
  intros u vp Hvis Hget Hnet Hok Hbody Hleaf out h'. subst out h'.
  unfold processFile. cbn [walk]. fold u. fold vp.
  unfold isVisited, markVisited. cbn [bind run]. rewrite Hvis. cbn [bind run].
  rewrite run_try_catch, run_bind, run_await.
  rewrite run_get_absent by (left; exact Hget).
  cbn [truthy]. rewrite run_bind. unfold fetch. cbn [bind run with_visited with_mem tick mem].
  rewrite Hnet. cbn [bind run]. rewrite Hok. cbn [negb].
  unfold text_of. rewrite Hbody. cbn [bind run].
  rewrite run_bind, run_await, run_set_state.
  cbn [run]. rewrite Hleaf. cbn [fst snd for_of bind].
  match goal with
  | |- context [after_set w ?s0 u text ?tag None] =>
      set (s2 := after_set w s0 u text tag None)
  end.
  destruct (run_registration w vp text packageName s2) as (libs' & Hr' & Hg' & Hp').
  use_registration Hr'.
  cbn [run fst snd mem log files extraLibs localStorage missCount with_mem
       upd_extraLibs].
  subst s2. unfold after_set.
  cbn [fst snd mem log files extraLibs localStorage missCount with_mem
       upd_extraLibs upd_files upd_storage count_miss logged with_visited
       visited tick].
  repeat split; auto.
  - apply getItem_setItem_same.
  - intros Hq. unfold written.
    cbn [tick logged with_mem with_visited]. rewrite Hq.
    apply getItem_setItem_same.
Qed.

(** X19: a file with no dependencies that is not cached and whose download
    succeeds is stored in the virtual file system and registered with the
    editor under its virtual path, and for the entry file of a package
    outside [/dist/] also under the [@types] path of the package; one
    request is made, one miss is counted, and the text is cached with the
    tag of the response unless the storage refuses the write. *)
Theorem processFile_download (w : world) (fuel : nat) (url : str)
      (packageName : option str) (s : state) (res : response) (text : str) :
  let u := normalizeTypeUrl url in
  let vp := virtualPath_of u packageName in
  set_has u (visited s) = false ->
  getItem (getCacheKey u) (localStorage (mem s)) = None ->
  net w (tick s) (Request GET u) = Replied res ->
  res_ok res = true ->
  res_body res = Some text ->
  preProcessFile text = ([], []) ->
  let out := run w (processFile (S fuel) url packageName) s in
  let h' := mem (snd out) in
  fst out = Returned tt /\
  log (snd out) = log s ++ [(u, Request GET u)] /\
  getItem vp (files h') = Some text /\
  getItem vp (extraLibs h') = Some text /\
  (forall c p, packageName = Some (c :: p) -> includes vp $"/dist/" = false ->
     getItem ($"file:///node_modules/@types/" ++ (c :: p) ++ $"/index.d.ts")
             (extraLibs h') = Some text) /\
  (quota_exceeded w (S (S (tick s))) = false ->
   getItem (getCacheKey u) (localStorage h') =
     Some (JSON_stringify
             (CachedType text (clock w (S (tick s))) None
                (if truthy (res_etag res) then res_etag res else None)))) /\
  missCount h' = (missCount (mem s) + 1)%N.
Proof. exact (run_processFile_download w fuel url packageName s res text). Qed.

(** *** Resolution of a package entry *)

Lemma replaceAll_head (c : ascii) (rest : str) :
  c <> "."%char ->
  replaceAll dts_dts dts (c :: rest) = c :: replaceAll_from dts_dts dts 0 rest.
Proof.
  intros Hc. unfold replaceAll. cbn [replaceAll_from].
  change dts_dts with ("."%char :: $"d.ts.d.ts").
  cbn [startsWith]. destruct (ascii_dec "."%char c) as [E|_]; [|reflexivity].
  now destruct Hc.
Qed.

Lemma collapse_dts_head (fuel : nat) :
  forall (c : ascii) (rest : str),
    c <> "."%char -> exists r, collapse_dts fuel (c :: rest) = c :: r.
Proof.
  induction fuel as [|fuel IH]; intros c rest Hc; cbn [collapse_dts]; [eauto|].
  destruct (includes (c :: rest) dts_dts); [|eauto].
  rewrite replaceAll_head by exact Hc. now apply IH.
Qed.

Lemma normalizeTypeUrl_head (c : ascii) (rest : str) :
  c <> "."%char -> exists r, normalizeTypeUrl (c :: rest) = c :: r.
Proof.
  intros Hc. unfold normalizeTypeUrl.
  destruct (collapse_dts_head (length (c :: rest)) c rest Hc) as [r E].
  rewrite E.
  destruct (endsWith (c :: r) dts); [eauto|].
  destruct (includes (c :: r) $"?"); [eauto|].
  destruct (_ || _); [eauto|]. exists (r ++ dts). reflexivity.
Qed.

Lemma set_add_has_other (m x : str) (v : list str) :
  set_has x v = false -> x <> m -> set_has x (set_add m v) = false.
Proof.
  intros Hx Hne. destruct (set_has x (set_add m v)) eqn:E; [|reflexivity].
  apply set_has_In, set_add_In in E. destruct E as [E|E]; [contradiction|].
  apply set_has_In in E. congruence.
Qed.

(** X20: loading a package whose resolution probe succeeds without naming a
    declaration file falls back to the [?dts] URL of the package.  When
    that file is downloaded and has no dependencies, two requests are made
    in all, the probe and the download, and the text ends up in the
    virtual file system and with the editor under the [index.d.ts] of the
    package, and outside [/dist/] also under its [@types] path. *)
Theorem fetchAndAddTypes_fallback_entry (w : world) (fuel : nat) (c : ascii)
      (p : str) (s : state) (resp res : response) (text : str) :
  let specifier := c :: p in
  let m := $"package:" ++ specifier in
  let baseUrl := $"https://esm.sh/" ++ specifier in
  let u := normalizeTypeUrl ($"https://esm.sh/" ++ specifier ++ $"?dts") in
  let index := $"file:///node_modules/" ++ specifier ++ $"/index.d.ts" in
  let types := $"file:///node_modules/@types/" ++ specifier ++ $"/index.d.ts" in
  set_has m (visited s) = false ->
  set_has u (visited s) = false ->
  getItem (getCacheKey u) (localStorage (mem s)) = None ->
  net w (tick s) (Request HEAD baseUrl) = Replied resp ->
  res_ok resp = true ->
  truthy (res_types resp) = false ->
  net w (S (tick s)) (Request GET u) = Replied res ->
  res_ok res = true ->
  res_body res = Some text ->
  preProcessFile text = ([], []) ->
  let out := run w (fetchAndAddTypes (S (S fuel)) specifier) s in
  fst out = Returned tt /\
  log (snd out) = log s ++ [(m, Request HEAD baseUrl); (u, Request GET u)] /\
  getItem index (files (mem (snd out))) = Some text /\
  getItem index (extraLibs (mem (snd out))) = Some text /\
  (includes index $"/dist/" = false ->
   getItem types (extraLibs (mem (snd out))) = Some text).
Proof.
  intros specifier m baseUrl u index types Hm Hu Hget Hnet Hok Htypes Hnet' Hok'
    Hbody Hleaf out.
  subst out. unfold fetchAndAddTypes, fetchEntry. rewrite run_await.
  remember (S fuel) as fuel1 eqn:Efuel.
  cbn [walk]. subst fuel1. fold specifier. fold m. fold baseUrl.
  unfold isVisited, markVisited. cbn [bind run]. rewrite Hm. cbn [bind run].
  rewrite run_try_catch. unfold fetch. cbn [bind run tick with_visited].
  rewrite Hnet. cbn [bind run]. rewrite Hok. cbn [negb].
  set (s1 := logged (with_visited s (set_add m (visited s))) m (Request HEAD baseUrl)).
  assert (Hne : u <> m).
  { destruct (normalizeTypeUrl_head "h"%char ($"ttps://esm.sh/" ++ specifier ++ $"?dts"))
      as [r Hr]; [discriminate|].
    unfold u.
    change ($"https://esm.sh/" ++ specifier ++ $"?dts")
      with ("h"%char :: $"ttps://esm.sh/" ++ specifier ++ $"?dts").
    rewrite Hr. discriminate. }
  assert (Hu1 : set_has u (visited s1) = false)
    by exact (set_add_has_other m u (visited s) Hu Hne).
  destruct (res_types resp) as [[|c0 h]|]; try discriminate Htypes;
    cbn [bind]; rewrite run_await;
    match goal with
    | |- context [run w (walk (S fuel) (ProcessFile ?url ?pkg)) s1] =>
        pose proof (run_processFile_download w fuel url pkg s1 res text
                      Hu1 Hget Hnet' Hok' Hbody Hleaf) as H;
        unfold processFile in H; cbv zeta in H;
        destruct (run w (walk (S fuel) (ProcessFile url pkg)) s1) as [r s']
    end;
    cbn [fst snd] in H |- *;
    destruct H as (H1 & H2 & H3 & H4 & H5 & _); subst r; cbn [fst snd];
    (split; [reflexivity|]); (split; [rewrite H2; unfold s1; cbn [log logged];
                                       now rewrite <- app_assoc|]);
    (split; [exact H3|]); (split; [exact H4|]);
    intros Hd; exact (H5 c p eq_refl Hd).
Qed.

(** *** A file served from the cache *)

Lemma downloads_app (l1 l2 : list event) :
  downloads (l1 ++ l2) = downloads l1 ++ downloads l2.
Proof. unfold downloads. now rewrite filter_app, map_app. Qed.

Lemma run_get_hit_state (w : world) (s : state) (url : str) (c0 : ascii)
      (cached : str) (info : CachedTypeInfo) :
  getItem (getCacheKey url) (localStorage (mem s)) = Some (c0 :: cached) ->
  JSON_parse (c0 :: cached) = Some info ->
  (clock w (tick s) - timestamp info <= CACHE_EXPIRY)%Z ->
  revalidates w (S (tick s)) url (etag info) ->
  exists probes t,
    run w (TypeCache_get url) s =
      (Returned (Some (content info)),
       State (visited s) (count_hit (mem s)) (log s ++ probes) t) /\
    downloads probes = [] /\
    (truthy (etag info) = false -> probes = []).
Proof.
  intros Hget Hparse Hfresh Hval.
  assert (Hexp : (CACHE_EXPIRY <? clock w (tick s) - timestamp info)%Z = false)
    by (apply Z.ltb_ge; exact Hfresh).
  unfold TypeCache_get, validateETag, fetch, now, read, write. simpl.
  rewrite Hget, Hparse. simpl. rewrite Hexp.
  unfold revalidates in Hval.
  destruct (etag info) as [[|c t]|]; simpl;
    try (exists [], (S (tick s)); rewrite app_nil_r; repeat split; reflexivity).
  destruct (net w (S (tick s)) (Request HEAD url)) as [|resp]; simpl.
  - exists [(url, Request HEAD url)], (S (S (tick s))).
    split; [reflexivity|]. split; [reflexivity | discriminate].
  - rewrite Hval. unfold option_eqb. rewrite str_eqb_refl. simpl.
    exists [(url, Request HEAD url)], (S (S (tick s))).
    split; [reflexivity|]. split; [reflexivity | discriminate].
Qed.

(** X21: a file with no dependencies whose cached record is fresh and
    passes revalidation is served from the cache: nothing is downloaded,
    the cached text is stored in the virtual file system and registered
    with the editor, one hit is counted and the storage is left as it is. *)
Theorem processFile_from_cache (w : world) (fuel : nat) (url : str)
      (packageName : option str) (s : state) (c0 : ascii) (cached : str)
      (info : CachedTypeInfo) :
  let u := normalizeTypeUrl url in
  let vp := virtualPath_of u packageName in
  set_has u (visited s) = false ->
  getItem (getCacheKey u) (localStorage (mem s)) = Some (c0 :: cached) ->
  JSON_parse (c0 :: cached) = Some info ->
  (clock w (tick s) - timestamp info <= CACHE_EXPIRY)%Z ->
  revalidates w (S (tick s)) u (etag info) ->
  content info <> [] ->
  preProcessFile (content info) = ([], []) ->
  let out := run w (processFile (S fuel) url packageName) s in
  let h' := mem (snd out) in
  fst out = Returned tt /\
  downloads (log (snd out)) = downloads (log s) /\
  getItem vp (files h') = Some (content info) /\
  getItem vp (extraLibs h') = Some (content info) /\
  localStorage h' = localStorage (mem s) /\
  hitCount h' = (hitCount (mem s) + 1)%N /\
  missCount h' = missCount (mem s).
Proof.
  intros u vp Hvis Hget Hparse Hfresh Hval Hne Hleaf out h'. subst out h'.
  unfold processFile. cbn [walk]. fold u. fold vp.
  unfold isVisited, markVisited. cbn [bind run]. rewrite Hvis. cbn [bind run].
  rewrite run_try_catch, run_bind, run_await.
  destruct (run_get_hit_state w (with_visited s (set_add u (visited s))) u c0 cached
              info Hget Hparse Hfresh Hval) as (probes & t & Hrun & Hd & _).
  rewrite Hrun.
  assert (Ht : truthy (Some (content info)) = true)
    by (destruct (content info); [congruence | reflexivity]).
  rewrite Ht. cbn [bind run]. rewrite Hleaf. cbn [fst snd for_of bind].
  match goal with
  | |- context [run w _ ?s0] => set (s2 := s0)
  end.
  destruct (run_registration w vp (content info) packageName s2)
    as (libs' & Hr' & Hg' & Hp').
  use_registration Hr'.
  subst s2.
  cbn [fst snd mem log files extraLibs localStorage hitCount missCount with_mem
       upd_extraLibs upd_files count_hit with_visited visited].
  rewrite downloads_app, Hd, app_nil_r.
  repeat split; auto. apply getItem_setItem_same.
Qed.

(** *** The text handed to the transpiler *)

Lemma wrappedCode_hasCreateRoot (rawCode : str) :
  hasCreateRoot (wrappedCode rawCode) = true.
Proof.
  unfold hasCreateRoot.
  assert (H : includes (wrappedCode rawCode) $"createRoot" = true).
  { unfold wrappedCode.
    change (nl ++ $"import { createRoot } from 'react-dom/client';" ++ ?rest)
      with ((nl ++ $"import { ") ++ $"createRoot" ++
            ($" } from 'react-dom/client';" ++ rest)).
    apply includes_app. }
  now rewrite H.
Qed.

(** X22: the text [bundle] hands to the transpiler always passes its own
    full-application test, whatever the source, so that wrapping is
    idempotent: a text that was wrapped is never wrapped again.  The source
    always occurs unchanged in the text handed over. *)
Theorem bundle_input_idempotent (rawCode : str) :
  hasCreateRoot (bundle_input rawCode) = true /\
  bundle_input (bundle_input rawCode) = bundle_input rawCode /\
  includes (bundle_input rawCode) rawCode = true.
Proof.
  assert (H : hasCreateRoot (bundle_input rawCode) = true).
  { unfold bundle_input. destruct (hasCreateRoot rawCode) eqn:E; [exact E|].
    apply wrappedCode_hasCreateRoot. }
  split; [exact H|]. split.
  - unfold bundle_input at 1. now rewrite H.
  - unfold bundle_input. destruct (hasCreateRoot rawCode).
    + pose proof (includes_app [] rawCode []) as Hi.
      now rewrite app_nil_r in Hi.
    + unfold wrappedCode.
      change (nl ++ $"import { createRoot } from 'react-dom/client';" ++ nl ++
              $"import { ThemeProvider } from '@vapor-ui/core';" ++ nl ++
              nl ++ rawCode ++ ?rest)
        with ((nl ++ $"import { createRoot } from 'react-dom/client';" ++ nl ++
               $"import { ThemeProvider } from '@vapor-ui/core';" ++ nl ++ nl)
              ++ rawCode ++ rest).
      apply includes_app.
Qed.

End Pipeline.

(** *** The sample codec decodes what it encodes *)

Module SampleFacts.
Import Sample.

Lemma take_ones_encode (n : nat) (r : str) :
  take_ones (repeat one n ++ colon :: r) = Some (n, r).
Proof.
  induction n as [|n IH]; simpl; [reflexivity|]. now rewrite IH.
Qed.

Lemma decode_encode_str (s r : str) :
  decode_str (encode_str s ++ r) = Some (s, r).
Proof.
  unfold decode_str, encode_str. rewrite <- app_assoc. simpl.
  rewrite take_ones_encode.
  assert (H : (length (s ++ r) <? length s) = false).
  { apply Nat.ltb_ge. rewrite length_app. lia. }
  rewrite H. f_equal. f_equal.
  - now rewrite firstn_app, Nat.sub_diag, firstn_all, firstn_O, app_nil_r.
  - now rewrite skipn_app, Nat.sub_diag, skipn_all, skipn_O.
Qed.

Lemma decode_encode_opt (o : option str) (r : str) :
  decode_opt (encode_opt o ++ r) = Some (o, r).
Proof.
  destruct o as [s|]; simpl; [|reflexivity].
  now rewrite decode_encode_str.
Qed.

Lemma decode_encode_pos (p : positive) (r : str) :
  decode_pos (encode_pos p ++ r) = Some (p, r).
Proof.
  induction p as [p IH|p IH|]; simpl; [now rewrite IH | now rewrite IH | reflexivity].
Qed.

Lemma decode_encode_Z (z : Z) (r : str) :
  decode_Z (encode_Z z ++ r) = Some (z, r).
Proof.
  destruct z as [|p|p]; simpl; [reflexivity | |]; now rewrite decode_encode_pos.
Qed.

Lemma parse_stringify (info : CachedTypeInfo) :
  parse (stringify info) = Some info.
Proof.
  destruct info as [c t v e]. unfold parse, stringify. simpl.
  now rewrite decode_encode_Z, decode_encode_opt, decode_encode_opt.
Qed.

End SampleFacts.

(** * Runs on sample inputs *)

Lemma strlen_app (a b : str) : strlen (a ++ b) = (strlen a + strlen b)%N.
Proof. unfold strlen. rewrite length_app. lia. Qed.

Lemma strlen_filler (n : N) : strlen (Sample.filler n) = n.
Proof. unfold strlen, Sample.filler. rewrite repeat_length. apply N2Nat.id. Qed.

Lemma strlen_stringify (info : CachedTypeInfo) :
  (strlen (content info) <= strlen (Sample.stringify info))%N.
Proof.
  unfold Sample.stringify.
  change ("{"%char :: ?x) with ([ "{"%char ] ++ x).
  rewrite !strlen_app. lia.
Qed.

Lemma small_record_size :
  getCurrentCacheSize [small_record] = 17%N.
Proof. vm_compute. reflexivity. Qed.

Lemma large_record_size :
  (60000000 <= getCurrentCacheSize [large_record])%N.
Proof.
  rewrite cache_size_cons.
  change (namespaced large_record) with
    (startsWith (getCacheKey $"https://esm.sh/b.d.ts") CACHE_PREFIX).
  replace (startsWith (getCacheKey $"https://esm.sh/b.d.ts") CACHE_PREFIX)
    with true by (vm_compute; reflexivity).
  pose proof (strlen_stringify
                (CachedType (Sample.filler 60000000) 20 None None)) as H.
  simpl content in H. rewrite strlen_filler in H.
  change (snd large_record) with
    (Sample.stringify (CachedType (Sample.filler 60000000) 20 None None)).
  unfold getCurrentCacheSize. simpl fold_left. lia.
Qed.

Lemma full_storage_over_budget :
  (MAX_CACHE_SIZE < getCurrentCacheSize full_storage)%N.
Proof.
  unfold full_storage. rewrite cache_size_cons.
  pose proof large_record_size as H.
  assert (MAX_CACHE_SIZE = 52428800%N) as -> by reflexivity.
  destruct (namespaced small_record); lia.
Qed.

Lemma full_storage_wellformed :
  wellformed_storage Sample.parse full_storage.
Proof.
  unfold wellformed_storage, full_storage.
  constructor; [|constructor; [|constructor]]; intros _;
    unfold small_record, large_record; simpl snd;
    rewrite SampleFacts.parse_stringify;
    (split; [unfold Sample.stringify|]; discriminate).
Qed.

Lemma set_evicts_when_over_budget_witness :
  fst (run Sample.offline
         (TypeCache_set Sample.parse Sample.stringify
            $"https://esm.sh/d.d.ts" $"export {}" None None)
         (Sample.with_storage full_storage)) = Returned tt /\
  length (evicted Sample.parse full_storage) =
    (3 * length (filter namespaced full_storage) + 9) / 10.
Proof.
  pose proof (set_evicts_when_over_budget Sample.parse Sample.stringify
                Sample.offline (Sample.with_storage full_storage)
                $"https://esm.sh/d.d.ts" $"export {}" None None
                full_storage_over_budget full_storage_wellformed) as H.
  split; [exact (proj1 H) | exact (proj1 (proj2 (proj2 H)))].
Defined.

(** C4 as stated fails: a [set] that takes the cache from 17 bytes to more
    than 50 MB evicts nothing; the one older record is still stored after
    the write. *)
Lemma set_crossing_budget_evicts_nothing :
  let url := $"https://esm.sh/b.d.ts" in
  let value := Sample.stringify (CachedType (Sample.filler 60000000) 1000 None None) in
  let out := run Sample.offline
               (TypeCache_set Sample.parse Sample.stringify url
                  (Sample.filler 60000000) None None)
               (Sample.with_storage [small_record]) in
  (getCurrentCacheSize [small_record] <= MAX_CACHE_SIZE)%N /\
  (MAX_CACHE_SIZE < getCurrentCacheSize [small_record] + strlen value)%N /\
  localStorage (mem (snd out)) = [small_record; (getCacheKey url, value)].
Proof.
  intros url value out.
  assert (Hsmall : (getCurrentCacheSize [small_record] <= MAX_CACHE_SIZE)%N).
  { rewrite small_record_size. vm_compute. discriminate. }
  split; [exact Hsmall|]. split.
  - pose proof (strlen_stringify
                  (CachedType (Sample.filler 60000000) 1000 None None)) as H.
    simpl content in H. rewrite strlen_filler in H. fold value in H.
    assert (MAX_CACHE_SIZE = 52428800%N) as -> by reflexivity. lia.
  - destruct (run_set_within_budget Sample.parse Sample.stringify Sample.offline
                (Sample.with_storage [small_record]) url
                (Sample.filler 60000000) None None Hsmall) as [_ Hs].
    subst out. rewrite Hs. unfold written.
    change (quota_exceeded Sample.offline _) with false. cbv iota.
    change (clock Sample.offline _) with 1000%Z. fold value.
    generalize value. intros v. vm_compute. reflexivity.
Qed.

(** C5: a record that cannot be decoded is reported as a miss, but [get]
    leaves it in storage. *)
Theorem get_keeps_undecodable_record :
  run Sample.offline (TypeCache_get Sample.parse $"https://esm.sh/c.d.ts")
      (Sample.with_storage [broken_record])
  = (Returned None,
     State [] (Heap [broken_record] 0 1 [] [] [] []) [] 0) /\
  Sample.parse (snd broken_record) = None.
Proof. split; vm_compute; reflexivity. Qed.

(** Three calls for the same package and one of its files, interleaved *)
Definition sample_calls : list (action unit) :=
  [ Spawn (fetchEntry Sample.parse Sample.stringify Sample.scan Sample.resolve 8 $"react");
    Spawn (fetchEntry Sample.parse Sample.stringify Sample.scan Sample.resolve 8 $"react");
    Spawn (processFile Sample.parse Sample.stringify Sample.scan Sample.resolve 8
             $"https://esm.sh/v18/react/index" None);
    Resume 0; Resume 2; Resume 0; Resume 1; Resume 2; Resume 2; Resume 2;
    Resume 2; Resume 2; Resume 2; Resume 2; Resume 2; Resume 2; Resume 2;
    Resume 2; Resume 2; Resume 2; Resume 2; Resume 2; Resume 2; Resume 2;
    Resume 2; Resume 2; Resume 2; Resume 2; Resume 2; Resume 2; Resume 2 ].

Lemma sample_calls_walker :
  Forall (walker_action Sample.parse Sample.stringify Sample.scan Sample.resolve)
         sample_calls.
Proof.
  unfold sample_calls.
  repeat (constructor; [first [exact I | exists 8; left; eexists; reflexivity]|]).
  constructor.
Qed.

Lemma visited_once_witness :
  NoDup (log (snd (run_pool Sample.cdn sample_calls ([], Sample.initial)))) /\
  length (log (snd (run_pool Sample.cdn sample_calls ([], Sample.initial)))) = 5.
Proof.
  split; [|vm_compute; reflexivity].
  exact (proj1 (visited_once Sample.parse Sample.stringify Sample.scan
                  Sample.resolve Sample.cdn sample_calls Sample.initial
                  sample_calls_walker eq_refl)).
Defined.

(** A library with allow-listed name whose every request fails *)
Definition two_libraries : list str := [$"react"; $"axios"].

Definition run_loadLibraries (config : IntelliSenseConfig) (names : list str)
    : option (list LoadResult) :=
  fst (loadLibraries Sample.parse Sample.stringify Sample.scan Sample.resolve
         Sample.cdn [0; 1; 1; 0; 0; 1] 8 config names Sample.initial).

(** C3: [axios] is allow-listed and unreachable in the sample registry
    (every request for it is rejected), [react] is reachable; the batch
    reports success for both.  With the names of the specification, which
    are not allow-listed, both are reported as failures, and allow-listing
    them makes both succeed although neither is reachable. *)
Theorem loadLibraries_unreachable_reports_success :
  Sample.cdn_net 0 (Request HEAD $"https://esm.sh/axios") = Rejected /\
  run_loadLibraries defaultConfig two_libraries =
    Some [LoadRes $"react" true; LoadRes $"axios" true] /\
  run_loadLibraries defaultConfig [$"good"; $"bad-unreachable"] =
    Some [LoadRes $"good" false; LoadRes $"bad-unreachable" false] /\
  run_loadLibraries (Config true true [$"good"; $"bad-unreachable"] 1000 3)
                    [$"good"; $"bad-unreachable"] =
    Some [LoadRes $"good" true; LoadRes $"bad-unreachable" true].
Proof. repeat split; vm_compute; reflexivity. Qed.

Lemma get_revalidation_fail_open_witness :
  fst (run Sample.offline (TypeCache_get Sample.parse $"https://esm.sh/e.d.ts")
           (Sample.with_storage [tagged_record]))
  = Returned (Some $"export const e: number").
Proof.
  pose proof (get_revalidation_fail_open Sample.parse Sample.offline
                (Sample.with_storage [tagged_record]) $"https://esm.sh/e.d.ts"
                "{"%char (tl (snd tagged_record))
                (CachedType $"export const e: number" 10 None (Some $"W/1"))
                "W"%char $"/1") as H.
  apply H; try reflexivity. vm_compute. discriminate.
Defined.

Lemma loadLibrary_marks_loaded_witness :
  run Sample.offline
      (loadLibrary Sample.parse Sample.stringify Sample.scan Sample.resolve
         8 defaultConfig $"react")
      Sample.initial
  = (Returned true,
     State [$"package:react"] (Heap [] 0 0 [] [] [] [$"react"])
           [($"package:react", Request HEAD $"https://esm.sh/react")] 1) /\
  (let suspended :=
     start Sample.offline
       (loadLibrary Sample.parse Sample.stringify Sample.scan Sample.resolve
          8 defaultConfig $"react")
       Sample.initial in
   load_status $"react" suspended /\
   loadingQueue (mem (snd suspended)) = [$"react"] /\
   loadedModules (mem (snd suspended)) = []).
Proof.
  pose proof (loadLibrary_marks_loaded Sample.parse Sample.stringify Sample.scan
                Sample.resolve Sample.offline 8 defaultConfig $"react"
                Sample.initial eq_refl eq_refl eq_refl) as H.
  cbv zeta in H. destruct H as (_ & _ & _ & _ & H & _ & Hstatus & _).
  split.
  - destruct (H eq_refl) as [H1 _]. rewrite H1. vm_compute. reflexivity.
  - split; [exact (Hstatus 0)|]. split; reflexivity.
Defined.

Ltac pick_member := repeat (first [left; reflexivity | right]).

Lemma sample_graph :
  finite_graph Sample.parse Sample.stringify Sample.scan Sample.resolve
               Sample.cdn sample_files sample_packages sample_texts.
Proof.
  constructor.
  - exact SampleFacts.parse_stringify.
  - intros n r resp t H Hb. cbn [net Sample.cdn] in H. unfold Sample.cdn_net in H.
    repeat match type of H with
           | context [str_eqb ?a ?b] => destruct (str_eqb a b)
           end;
      try discriminate; injection H as <-; simpl in Hb; injection Hb as <-;
      unfold sample_texts; simpl; tauto.
  - intros url t rel u Hu Ht Hrel Hres.
    unfold sample_files in Hu. unfold sample_texts in Ht. simpl in Hu, Ht.
    destruct Hu as [<-|[<-|[<-|[<-|[]]]]]; destruct Ht as [<-|[<-|[<-|[]]]];
      vm_compute in Hrel; try contradiction;
      destruct Hrel as [<-|[]]; vm_compute in Hres; injection Hres as <-;
      vm_compute; pick_member.
  - intros url t rel u Hu Ht Hrel Hdot Hres.
    unfold sample_texts in Ht. simpl in Ht.
    destruct Ht as [<-|[<-|[<-|[]]]]; vm_compute in Hrel; try contradiction.
    destruct Hrel as [<-|[]]. vm_compute in Hdot. discriminate.
  - intros t name Ht Hin _ _.
    unfold sample_texts in Ht. simpl in Ht.
    destruct Ht as [<-|[<-|[<-|[]]]]; vm_compute in Hin; try contradiction.
    destruct Hin as [<-|[]]. vm_compute. pick_member.
  - intros specifier n resp c typesHeader u Hin Hnet Hty Hres.
    unfold sample_packages in Hin. simpl in Hin.
    destruct Hin as [<-|[<-|[]]]; vm_compute in Hnet; injection Hnet as <-;
      simpl in Hty; try discriminate.
    injection Hty as <- <-. vm_compute in Hres. injection Hres as <-.
    vm_compute. pick_member.
  - intros specifier n resp Hin Hnet Hty.
    unfold sample_packages in Hin. simpl in Hin.
    destruct Hin as [<-|[<-|[]]]; vm_compute in Hnet; injection Hnet as <-;
      simpl in Hty; try discriminate.
    vm_compute. pick_member.
Qed.

Lemma fetchAndAddTypes_never_rejects_witness :
  fst (run Sample.cdn
         (fetchAndAddTypes Sample.parse Sample.stringify Sample.scan Sample.resolve
            7 $"react")
         Sample.initial) = Returned tt.
Proof.
  apply (proj2 (proj2 (proj2
           (fetchAndAddTypes_never_rejects Sample.parse Sample.stringify
              Sample.scan Sample.resolve Sample.cdn $"react")))
           sample_files sample_packages sample_texts Sample.initial 7
           sample_graph).
  - intros key value info [].
  - vm_compute. pick_member.
  - vm_compute. lia.
Defined.

(** * More runs on sample inputs *)

Lemma cache_round_trip_witness :
  fst (run Sample.offline (TypeCache_get Sample.parse $"https://esm.sh/a.d.ts")
         (snd (run Sample.offline
                 (TypeCache_set Sample.parse Sample.stringify
                    $"https://esm.sh/a.d.ts" $"export {}" None None)
                 Sample.initial)))
  = Returned (Some $"export {}").
Proof.
  refine (proj1 (cache_round_trip Sample.parse Sample.stringify Sample.offline
                   Sample.initial $"https://esm.sh/a.d.ts" $"export {}" None None
                   SampleFacts.parse_stringify _ eq_refl _ I)).
  - intros info. unfold Sample.stringify. discriminate.
  - vm_compute. discriminate.
Defined.

Lemma get_expired_witness :
  fst (run late_world (TypeCache_get Sample.parse $"https://esm.sh/a.d.ts")
         (Sample.with_storage [small_record])) = Returned None.
Proof.
  refine (proj1 (get_expired Sample.parse late_world
                   (Sample.with_storage [small_record]) $"https://esm.sh/a.d.ts"
                   "{"%char (tl (snd small_record))
                   (CachedType $"export {}" 10 None None) _ _ _));
    vm_compute; reflexivity.
Defined.

Lemma get_absent_witness :
  run Sample.offline (TypeCache_get Sample.parse $"https://esm.sh/a.d.ts")
      Sample.initial
  = (Returned None, State [] (Heap [] 0 1 [] [] [] []) [] 0).
Proof.
  exact (proj1 (get_absent Sample.parse Sample.offline Sample.initial
                  $"https://esm.sh/a.d.ts" (or_introl eq_refl))).
Defined.

Lemma get_counts_once_witness :
  let out :=
    run Sample.offline (TypeCache_get Sample.parse $"https://esm.sh/a.d.ts")
        (Sample.with_storage [small_record]) in
  (hitCount (mem (snd out)) + missCount (mem (snd out)) = 1)%N.
Proof.
  pose proof (get_counts_once Sample.parse Sample.stringify Sample.offline
                (Sample.with_storage [small_record]) $"https://esm.sh/a.d.ts"
                SampleFacts.parse_stringify
                (or_intror (or_intror
                   (ex_intro _ (CachedType $"export {}" 10 None None) eq_refl))))
    as H.
  cbv zeta in H. cbv zeta.
  destruct H as [(text & _ & Hh & Hm & _)|(_ & Hh & Hm)];
    rewrite Hh, Hm; reflexivity.
Defined.

Lemma set_swallows_quota_witness :
  localStorage (mem (snd (run full_disk
                            (TypeCache_set Sample.parse Sample.stringify
                               $"https://esm.sh/d.d.ts" $"export {}" None None)
                            (Sample.with_storage [small_record]))))
  = [small_record].
Proof.
  refine (proj1 (proj2 (set_swallows_quota Sample.parse Sample.stringify full_disk
                          (Sample.with_storage [small_record])
                          $"https://esm.sh/d.d.ts" $"export {}" None None))
                eq_refl _).
  vm_compute. discriminate.
Defined.

Lemma cache_key_collisions_witness :
  getCacheKey $"https://esm.sh/a/b" = getCacheKey $"https://esm.sh/a.b".
Proof.
  apply (proj1 (cache_key_collisions Sample.parse Sample.stringify
                  $"https://esm.sh/a/b" $"https://esm.sh/a.b")).
  repeat (constructor; [first [left; reflexivity | right; split; reflexivity]|]).
  constructor.
Defined.

Lemma cache_keeps_foreign_keys_witness :
  getItem $"theme"
    (localStorage (mem (snd (run Sample.offline TypeCache_clear
                               (Sample.with_storage shared_storage)))))
  = Some $"dark".
Proof.
  pose proof (cache_keeps_foreign_keys Sample.parse Sample.stringify Sample.offline
                (Sample.with_storage shared_storage) $"theme" eq_refl) as H.
  cbv zeta in H. destruct H as (_ & _ & _ & H). rewrite H. reflexivity.
Defined.

Lemma chunkArray_partition_witness :
  exists chunks,
    chunkArray 8 [$"react"; $"zod"; $"clsx"; $"swr"; $"ky"; $"ajv"; $"joi"] 3
      = Some chunks /\
    concat chunks = [$"react"; $"zod"; $"clsx"; $"swr"; $"ky"; $"ajv"; $"joi"] /\
    length chunks = 3.
Proof.
  destruct (proj1 (chunkArray_partition
                     [$"react"; $"zod"; $"clsx"; $"swr"; $"ky"; $"ajv"; $"joi"] 3 8))
    as (chunks & H1 & H2 & _ & H4).
  - repeat constructor.
  - repeat constructor.
  - exists chunks. split; [exact H1|]. split; [exact H2 | exact H4].
Defined.

Lemma loadLibrary_early_returns_witness :
  run Sample.offline
      (loadLibrary Sample.parse Sample.stringify Sample.scan Sample.resolve
         8 defaultConfig $"left-pad")
      Sample.initial
  = (Returned false, Sample.initial).
Proof.
  exact (proj1 (proj2 (loadLibrary_early_returns Sample.parse Sample.stringify
                         Sample.scan Sample.resolve Sample.offline 8
                         defaultConfig $"left-pad" Sample.initial)
                      eq_refl eq_refl)).
Defined.

Lemma loadLibraries_reports_witness :
  map library [LoadRes $"react" true; LoadRes $"left-pad" false]
    = [$"react"; $"left-pad"] /\
  set_has $"left-pad" (supportedLibraries defaultConfig) = false.
Proof.
  destruct (loadLibraries_reports Sample.parse Sample.stringify Sample.scan
              Sample.resolve Sample.cdn [0; 1; 1; 0; 0; 1] 8 defaultConfig
              [$"react"; $"left-pad"] Sample.initial
              [LoadRes $"react" true; LoadRes $"left-pad" false])
    as [H1 H2].
  - vm_compute. reflexivity.
  - split; [exact H1|].
    inversion H2 as [|r1 l1 _ Hrest]; subst.
    inversion Hrest as [|r2 l2 Hleft _]; subst.
    exact (Hleft eq_refl).
Defined.

Lemma failed_download_not_retried_witness :
  log (snd (run Sample.offline
              (processFile Sample.parse Sample.stringify Sample.scan Sample.resolve
                 3 $"https://esm.sh/x.d.ts" None)
              Sample.initial))
  = [($"https://esm.sh/x.d.ts", Request GET $"https://esm.sh/x.d.ts")].
Proof.
  exact (proj1 (proj2 (failed_download_not_retried Sample.parse Sample.stringify
                         Sample.scan Sample.resolve Sample.offline 2 2
                         $"https://esm.sh/x.d.ts" None None Sample.initial
                         eq_refl eq_refl I))).
Defined.

Lemma reload_after_clearCache_witness :
  let out :=
    run Sample.cdn
        (loadLibrary Sample.parse Sample.stringify Sample.scan Sample.resolve
           8 defaultConfig $"react")
        (snd (run Sample.cdn clearCache loaded_state)) in
  fst out = Returned true /\ log (snd out) = log loaded_state.
Proof.
  pose proof (reload_after_clearCache Sample.parse Sample.stringify Sample.scan
                Sample.resolve Sample.cdn 7 defaultConfig $"react" loaded_state
                eq_refl eq_refl eq_refl) as H.
  cbv zeta in H. destruct H as (H1 & H2 & _).
  split; [exact H1 | exact H2].
Defined.

Lemma processFile_download_witness :
  getItem $"file:///node_modules/v18/react/global.d.ts"
    (files (mem (snd (run Sample.cdn
                        (processFile Sample.parse Sample.stringify Sample.scan
                           Sample.resolve 3
                           $"https://esm.sh/v18/react/global.d.ts" None)
                        Sample.initial))))
  = Some $"export {}".
Proof.
  pose proof (processFile_download Sample.parse Sample.stringify Sample.scan
                Sample.resolve Sample.cdn 2
                $"https://esm.sh/v18/react/global.d.ts" None Sample.initial
                (Response true $"OK" None None (Some $"export {}")) $"export {}"
                eq_refl eq_refl eq_refl eq_refl eq_refl eq_refl) as H.
  cbv zeta in H. destruct H as (_ & _ & H & _). exact H.
Defined.

Lemma fetchAndAddTypes_fallback_entry_witness :
  getItem $"file:///node_modules/@types/clsx/index.d.ts"
    (extraLibs (mem (snd (run leaf_world
                            (fetchAndAddTypes Sample.parse Sample.stringify
                               Sample.scan Sample.resolve 3 $"clsx")
                            Sample.initial))))
  = Some $"export {}".
Proof.
  pose proof (fetchAndAddTypes_fallback_entry Sample.parse Sample.stringify
                Sample.scan Sample.resolve leaf_world 1 "c"%char $"lsx"
                Sample.initial
                (Response true $"OK" None None (Some []))
                (Response true $"OK" None None (Some $"export {}")) $"export {}"
                eq_refl eq_refl eq_refl eq_refl eq_refl eq_refl eq_refl eq_refl
                eq_refl eq_refl) as H.
  cbv zeta in H. destruct H as (_ & _ & _ & _ & H). exact (H eq_refl).
Defined.

Lemma processFile_from_cache_witness :
  let out :=
    run Sample.offline
        (processFile Sample.parse Sample.stringify Sample.scan Sample.resolve
           3 $"https://esm.sh/a.d.ts" None)
        (Sample.with_storage [small_record]) in
  downloads (log (snd out)) = [] /\
  getItem $"file:///node_modules/a.d.ts" (files (mem (snd out))) = Some $"export {}".
Proof.
  pose proof (processFile_from_cache Sample.parse Sample.stringify Sample.scan
                Sample.resolve Sample.offline 2 $"https://esm.sh/a.d.ts" None
                (Sample.with_storage [small_record])
                "{"%char (tl (snd small_record))
                (CachedType $"export {}" 10 None None)
                eq_refl eq_refl eq_refl) as H.
  cbv zeta in H.
  destruct H as (_ & H2 & H3 & _).
  - vm_compute. discriminate.
  - exact I.
  - discriminate.
  - reflexivity.
  - split; [exact H2 | exact H3].
Defined.
